(** * opencode-worktrees: a shallow embedding of the worktree plugin

    The development follows the TypeScript sources of the plugin:
    - [shared/git.ts]      branch-name validation ([branchNameSchema]),
    - [shared/sync.ts]     path safety and directory symlinking,
    - [shared/hooks.ts]    the execution of hooks,
    - [multi-repo/discovery.ts]  workspace-root discovery,
    - [state.ts]           the SQLite session / pending-operation store,
    - [multi-repo/sets.ts] creation and removal of worktree sets,
    - [worktree.ts]        the three shell escaping functions.

    JavaScript strings are sequences of UTF-16 code units; they are modelled
    as lists of [N].  [node:path] is modelled with its POSIX semantics, and
    a SQLite [TEXT] column holds well-formed Unicode only. *)

From Stdlib Require Import NArith ZArith List Ascii String Bool Lia.
From stdpp Require Import gmap list.
Import ListNotations.
Open Scope N_scope.

(* ===================================================================== *)
(** * Part I: definitions                                                 *)
(* ===================================================================== *)

(** ** Result type ([shared/result.ts]) *)

Inductive Result (T E : Type) : Type :=
| Ok (value : T)
| Err (error : E).
Arguments Ok {T E} value.
Arguments Err {T E} error.

Definition is_ok {T E} (r : Result T E) : bool :=
  match r with Ok _ => true | Err _ => false end.

(** ** JavaScript strings *)

Module Str.

(** A string is the list of its UTF-16 code units. *)
Abbreviation jstring := (list N).

(** String literals of the sources (all of them ASCII). *)
Definition js (s : string) : jstring :=
  List.map N_of_ascii (list_ascii_of_string s).

Fixpoint streq (a b : jstring) : bool :=
  match a, b with
  | [], [] => true
  | x :: a', y :: b' => (x =? y) && streq a' b'
  | _, _ => false
  end.

(** [s.startsWith(p)] *)
Fixpoint startsWith (s p : jstring) : bool :=
  match p, s with
  | [], _ => true
  | c :: p', d :: s' => (c =? d) && startsWith s' p'
  | _ :: _, [] => false
  end.

(** [s.endsWith(p)] *)
Definition endsWith (s p : jstring) : bool :=
  (length p <=? length s)%nat && streq (skipn (length s - length p) s) p.

(** [s.includes(p)] *)
Fixpoint includes (s p : jstring) : bool :=
  startsWith s p ||
  match s with
  | [] => false
  | _ :: s' => includes s' p
  end.

(** [s.replace(/c/g, r)] for a pattern that matches the single code unit
    [c]: every occurrence of [c] is replaced by [r], left to right. *)
Definition replaceAll (c : N) (r : jstring) (s : jstring) : jstring :=
  flat_map (fun x => if x =? c then r else [x]) s.

(** [/[...]/.test(s)] for a character class given as a predicate. *)
Definition testClass (cls : N -> bool) (s : jstring) : bool :=
  existsb cls s.

End Str.
Import Str.

(** ** Shell escaping ([escapeBash], [escapeAppleScript], [escapeBatch]) *)

Module Shell.

Definition BACKSLASH : N := 92.
Definition DQUOTE : N := 34.
Definition DOLLAR : N := 36.
Definition BACKTICK : N := 96.
Definition BANG : N := 33.
Definition NEWLINE : N := 10.
Definition SPACE : N := 32.
Definition PERCENT : N := 37.
Definition CARET : N := 94.
Definition AMP : N := 38.
Definition LT : N := 60.
Definition GT : N := 62.
Definition PIPE : N := 124.

(** [s.replace(/\\/g, "\\\\").replace(/"/g, '\\"').replace(/\$/g, "\\$")
      .replace(/`/g, "\\`").replace(/!/g, "\\!").replace(/\n/g, " ")] *)
Definition escapeBash (s : jstring) : jstring :=
  replaceAll NEWLINE [SPACE]
    (replaceAll BANG [BACKSLASH; BANG]
      (replaceAll BACKTICK [BACKSLASH; BACKTICK]
        (replaceAll DOLLAR [BACKSLASH; DOLLAR]
          (replaceAll DQUOTE [BACKSLASH; DQUOTE]
            (replaceAll BACKSLASH [BACKSLASH; BACKSLASH] s))))).

(** [str.replace(/\\/g, "\\\\").replace(/"/g, '\\"').replace(/\$/g, "\\$")] *)
Definition escapeAppleScript (str : jstring) : jstring :=
  replaceAll DOLLAR [BACKSLASH; DOLLAR]
    (replaceAll DQUOTE [BACKSLASH; DQUOTE]
      (replaceAll BACKSLASH [BACKSLASH; BACKSLASH] str)).

(** [s.replace(/%/g, "%%").replace(/\^/g, "^^").replace(/&/g, "^&")
      .replace(/</g, "^<").replace(/>/g, "^>").replace(/\|/g, "^|")] *)
Definition escapeBatch (s : jstring) : jstring :=
  replaceAll PIPE [CARET; PIPE]
    (replaceAll GT [CARET; GT]
      (replaceAll LT [CARET; LT]
        (replaceAll AMP [CARET; AMP]
          (replaceAll CARET [CARET; CARET]
            (replaceAll PERCENT [PERCENT; PERCENT] s))))).

(** The escaping rules as the documentation words them, one code unit at a
    time.  These follow the prose, not the code, and are compared with the
    functions above. *)
Definition bashRule (c : N) : jstring :=
  if (c =? BACKSLASH) || (c =? DQUOTE) || (c =? DOLLAR)
     || (c =? BACKTICK) || (c =? BANG)
  then [BACKSLASH; c]
  else if c =? NEWLINE then [SPACE] else [c].

Definition appleScriptRule (c : N) : jstring :=
  if (c =? BACKSLASH) || (c =? DQUOTE) || (c =? DOLLAR)
  then [BACKSLASH; c] else [c].

Definition batchRule (c : N) : jstring :=
  if (c =? PERCENT) || (c =? CARET) then [c; c]
  else if (c =? AMP) || (c =? LT) || (c =? GT) || (c =? PIPE)
  then [CARET; c] else [c].

End Shell.

(** ** Branch-name validation ([shared/git.ts]) *)

Module GitRef.

(** [code <= 0x1f || code === 0x7f] *)
Definition isControl (code : N) : bool := (code <=? 31) || (code =? 127).

Definition oneOf (chars : string) (c : N) : bool :=
  existsb (N.eqb c) (js chars).

(** The class of [/[~^:?*[\]\\;&|`$()]/]. *)
Definition refOrShellClass (c : N) : bool := oneOf "~^:?*[]\;&|`$()" c.

(** The class of [/[\x00-\x1f\x7f ~^:?*[\]\\]/]. *)
Definition invalidCharClass (c : N) : bool :=
  (c <=? 31) || (c =? 127) || oneOf " ~^:?*[]\" c.

Definition isValidBranchName (name : jstring) : bool :=
  if existsb isControl name then false
  else if testClass refOrShellClass name then false
  else true.

(** One link of the zod chain: the check and the message of its issue. *)
Record check := { passes : jstring -> bool; message : jstring }.

(** [z.string().min(1, ..).max(255, ..).refine(..)...], in chain order. *)
Definition branchNameChecks : list check :=
  [ {| passes := fun name => (1 <=? length name)%nat;
       message := js "Branch name cannot be empty" |};
    {| passes := fun name => (length name <=? 255)%nat;
       message := js "Branch name too long" |};
    {| passes := fun name => negb (startsWith name (js "-"));
       message := js "Branch name cannot start with '-' (prevents option injection)" |};
    {| passes := fun name => negb (startsWith name (js "/")) && negb (endsWith name (js "/"));
       message := js "Branch name cannot start or end with '/'" |};
    {| passes := fun name => negb (includes name (js "//"));
       message := js "Branch name cannot contain '//'" |};
    {| passes := fun name => negb (includes name (js "@{"));
       message := js "Branch name cannot contain '@{' (git reflog syntax)" |};
    {| passes := fun name => negb (includes name (js ".."));
       message := js "Branch name cannot contain '..'" |};
    {| passes := fun name => negb (testClass invalidCharClass name);
       message := js "Branch name contains invalid characters" |};
    {| passes := fun name => isValidBranchName name;
       message := js "Contains invalid git ref characters" |};
    {| passes := fun name => negb (startsWith name (js ".")) && negb (endsWith name (js "."));
       message := js "Cannot start or end with dot" |};
    {| passes := fun name => negb (endsWith name (js ".lock"));
       message := js "Cannot end with .lock" |} ].

(** Every failing link adds its issue; none of them aborts the chain, so
    the issues come in chain order. *)
Definition issues (name : jstring) : list jstring :=
  List.map message (List.filter (fun c => negb (passes c name)) branchNameChecks).

(** [branchNameSchema.safeParse(name)]: [Ok] carries the parsed value,
    [Err] the messages of [error.issues]. *)
Definition safeParse (name : jstring) : Result jstring (list jstring) :=
  match issues name with
  | [] => Ok name
  | m :: ms => Err (m :: ms)
  end.

(** The characters the documentation lists as rejected. *)
Definition listedChar (c : N) : bool :=
  oneOf "~^:?*[]\" c || (c =? 32) || (c <=? 31) || (c =? 127) || oneOf ";&|`$()" c.

End GitRef.

(** ** [node:path], POSIX flavour

    The plugin only uses [path.sep], [path.isAbsolute], [path.join],
    [path.resolve] and [path.dirname].  They are library functions; the
    definitions below follow the algorithms of [path.posix]. *)

Module Path.

Definition SLASH : N := 47.
Definition DOT : N := 46.

(** [path.sep] *)
Definition sep : jstring := [SLASH].

(** [path.length > 0 && path.charCodeAt(0) === 47] *)
Definition isAbsolute (path : jstring) : bool :=
  match path with
  | c :: _ => c =? SLASH
  | [] => false
  end.

(** [res.slice(0, res.lastIndexOf("/"))], or [None] when there is no
    separator in [res]. *)
Fixpoint beforeLastSlash (res : jstring) : option jstring :=
  match res with
  | [] => None
  | c :: rest =>
      match beforeLastSlash rest with
      | Some r => Some (c :: r)
      | None => if c =? SLASH then Some [] else None
      end
  end.

(** Length of what follows the last separator of [res] (the whole of
    [res] when it has none): [res.length - 1 - res.lastIndexOf("/")]. *)
Fixpoint afterLastSlashLength (res : jstring) : nat :=
  match res with
  | [] => O
  | c :: rest =>
      match beforeLastSlash rest with
      | Some _ => afterLastSlashLength rest
      | None => if c =? SLASH then length rest else S (length rest)
      end
  end.

Definition endsWithDotDot (res : jstring) : bool :=
  match rev res with
  | a :: b :: _ => (a =? DOT) && (b =? DOT)
  | _ => false
  end.

(** The state of the scan of [normalizeString]: the result so far, the
    length of its last segment, the segment being read ([path.slice(lastSlash
    + 1, i)]) and the dot counter, [None] standing for [-1]. *)
Record nstate := {
  res : jstring;
  lastSegmentLength : nat;
  segment : jstring;
  dots : option nat }.

Definition nextSegment (r : jstring) (l : nat) : nstate :=
  {| res := r; lastSegmentLength := l; segment := []; dots := Some O |}.

(** What [normalizeString] does when it meets a separator. *)
Definition atSeparator (allowAboveRoot : bool) (st : nstate) : nstate :=
  let r := res st in
  let aboveRoot :=
    if allowAboveRoot
    then nextSegment (if (0 <? length r)%nat then r ++ js "/.." else js "..") 2
    else nextSegment r (lastSegmentLength st) in
  match segment st, dots st with
  | [], _ => nextSegment r (lastSegmentLength st)
  | _, Some 1%nat => nextSegment r (lastSegmentLength st)
  | _, Some 2%nat =>
      if (length r <? 2)%nat || negb (lastSegmentLength st =? 2)%nat
         || negb (endsWithDotDot r)
      then
        if (2 <? length r)%nat then
          match beforeLastSlash r with
          | None => nextSegment [] 0
          | Some r' => nextSegment r' (afterLastSlashLength r')
          end
        else if negb (length r =? 0)%nat then nextSegment [] 0
        else aboveRoot
      else aboveRoot
  | seg, _ =>
      nextSegment (if (0 <? length r)%nat then r ++ SLASH :: seg else seg)
                  (length seg)
  end.

Definition atCodeUnit (allowAboveRoot : bool) (st : nstate) (code : N) : nstate :=
  if code =? SLASH then atSeparator allowAboveRoot st
  else
    {| res := res st;
       lastSegmentLength := lastSegmentLength st;
       segment := segment st ++ [code];
       dots := match dots st with
               | Some d => if code =? DOT then Some (S d) else None
               | None => None
               end |}.

(** [normalizeString(path, allowAboveRoot, "/", isPosixPathSeparator)]: one
    pass over the code units, then one more separator unless the path ends
    with one. *)
Definition normalizeString (path : jstring) (allowAboveRoot : bool) : jstring :=
  let st := fold_left (atCodeUnit allowAboveRoot) path (nextSegment [] 0) in
  res (if endsWith path sep then st else atSeparator allowAboveRoot st).

(** [path.normalize] *)
Definition normalize (path : jstring) : jstring :=
  match path with
  | [] => js "."
  | _ =>
    let absolute := isAbsolute path in
    let trailingSeparator := endsWith path sep in
    let p := normalizeString path (negb absolute) in
    match p with
    | [] => if absolute then js "/" else if trailingSeparator then js "./" else js "."
    | _ =>
      let p' := if trailingSeparator then p ++ sep else p in
      if absolute then SLASH :: p' else p'
    end
  end.

(** [path.join(...args)]: the non-empty arguments joined with ["/"], then
    normalized. *)
Definition joinArgs (args : list jstring) : jstring :=
  fold_left (fun joined arg =>
               match arg, joined with
               | [], _ => joined
               | _, [] => arg
               | _, _ => joined ++ SLASH :: arg
               end) args [].

Definition join (args : list jstring) : jstring :=
  match joinArgs args with
  | [] => js "."
  | joined => normalize joined
  end.

(** The right-to-left loop of [path.resolve]: arguments are prepended until
    an absolute one has been seen; the working directory comes last. *)
Fixpoint resolveLoop (rargs : list jstring) (resolvedPath : jstring)
  : jstring * bool :=
  match rargs with
  | [] => (resolvedPath, false)
  | path :: rest =>
      match path with
      | [] => resolveLoop rest resolvedPath
      | c :: _ =>
          let resolvedPath' := path ++ SLASH :: resolvedPath in
          if c =? SLASH then (resolvedPath', true)
          else resolveLoop rest resolvedPath'
      end
  end.

(** [path.resolve(...args)], with [process.cwd()] given as [cwd]. *)
Definition resolve (cwd : jstring) (args : list jstring) : jstring :=
  let '(resolvedPath, resolvedAbsolute) := resolveLoop (rev args ++ [cwd]) [] in
  let p := normalizeString resolvedPath (negb resolvedAbsolute) in
  if resolvedAbsolute then SLASH :: p
  else match p with [] => js "." | _ => p end.

(** The backward scan of [path.dirname] over the indices [len-1 .. 1]:
    the index of the separator that ends the directory part, if any.
    [rtail] is [path] without its first code unit, reversed. *)
Fixpoint dirnameEnd (rtail : jstring) (matchedSlash : bool) : option nat :=
  match rtail with
  | [] => None
  | c :: rest =>
      if c =? SLASH then
        if matchedSlash then dirnameEnd rest true
        else Some (S (length rest))
      else dirnameEnd rest false
  end.

(** [path.dirname] *)
Definition dirname (path : jstring) : jstring :=
  match path with
  | [] => js "."
  | c :: tail =>
      let hasRoot := c =? SLASH in
      match dirnameEnd (rev tail) true with
      | None => if hasRoot then js "/" else js "."
      | Some e =>
          if hasRoot && (e =? 1)%nat then js "//" else firstn e path
      end
  end.

End Path.

(** ** Paths by segments

    What [normalizeString] computes when it may not climb above the root,
    told segment by segment: the kept segments are held last one first. *)

Module Segments.
Import Path.

(** A segment that is kept as it is: not empty, without separator, neither
    ["."] nor [".."]. *)
Definition plain (seg : jstring) : bool :=
  negb (streq seg []) && negb (existsb (N.eqb SLASH) seg)
  && negb (streq seg (js ".")) && negb (streq seg (js "..")).

(** The kept segments joined with separators. *)
Fixpoint render (stack : list jstring) : jstring :=
  match stack with
  | [] => []
  | seg :: older =>
      match older with
      | [] => seg
      | _ => render older ++ SLASH :: seg
      end
  end.

(** The end of a segment: an empty one and ["."] are dropped, [".."] drops
    the segment before it, any other segment is kept. *)
Definition close (stack : list jstring) (seg : jstring) : list jstring :=
  if streq seg [] || streq seg (js ".") then stack
  else if streq seg (js "..") then tl stack
  else seg :: stack.

Fixpoint scan (path : jstring) (stack : list jstring) (seg : jstring)
  : list jstring * jstring :=
  match path with
  | [] => (stack, seg)
  | c :: rest =>
      if c =? SLASH then scan rest (close stack seg) []
      else scan rest stack (seg ++ [c])
  end.

Definition segmentsOf (path : jstring) : list jstring :=
  let '(stack, seg) := scan path [] [] in close stack seg.

(** The dot counter of [normalizeString] for the segment read so far. *)
Definition dotsOf (seg : jstring) : option nat :=
  if forallb (N.eqb DOT) seg then Some (length seg) else None.

(** The state of the scan of [normalizeString] when the segments kept so
    far are [stack] and the segment being read is [seg]. *)
Definition Inv (st : nstate) (stack : list jstring) (seg : jstring) : Prop :=
  res st = render stack /\
  forallb plain stack = true /\
  lastSegmentLength st = length (hd [] stack) /\
  segment st = seg /\
  dots st = dotsOf seg /\
  ~ In SLASH seg.

(** The result of the scan so far is not an absolute path. *)
Definition RelInv (st : nstate) : Prop :=
  isAbsolute (res st) = false /\ ~ In SLASH (segment st).

(** [p] is the directory [dir] or lies below it. *)
Definition atOrBelow (dir p : jstring) : Prop :=
  exists rest, p = dir ++ rest /\ (rest = [] \/ exists rest', rest = SLASH :: rest').

(** The absolute path [p] lies below the directory [dir] and is not [dir]
    itself; both are in resolved form. *)
Definition strictlyInside (dir p : jstring) : bool :=
  negb (streq p dir)
  && startsWith p (if streq dir (js "/") then dir else dir ++ sep).

End Segments.

(** ** External calls

    The plugin talks to the file system, to child processes and to the
    terminal launcher.  A program is a tree of such calls; each call is
    answered by the environment.  A response [Err e] stands for a rejected
    promise (a thrown exception) carrying the message [e].  Calls on the
    logger only print and are left out.

    [Spawn] is [Bun.spawn] and [Bun.spawnSync], as [git()] and [runHooks]
    use them.  Three functions of the plugin are calls of their own and not
    unfolded: [loadWorktreeConfig] (it reads, and may create, the
    configuration file), [copyFiles] (it checks, creates directories and
    writes files; it removes nothing and starts no process) and
    [openTerminal] (it starts the terminal). *)

Module Effects.

Inductive FileKind := KFile | KDirectory | KSymlink | KOther.

Definition isFile (k : FileKind) : bool :=
  match k with KFile => true | _ => false end.
Definition isDirectory (k : FileKind) : bool :=
  match k with KDirectory => true | _ => false end.

(** What a finished child process leaves: [stdout], [stderr], exit code. *)
Record ProcOutput := { stdout : jstring; stderr : jstring; exitCode : Z }.

(** The parts of [WorktreeConfig] the set operations read. *)
Record WorktreeConfig := {
  sync_copyFiles : list jstring;
  sync_symlinkDirs : list jstring;
  hooks_postCreate : list jstring;
  hooks_preDelete : list jstring }.

Record TerminalResult := { success : bool; terminalError : jstring }.

Abbreviation Error := (list N).

Inductive Op : Type -> Type :=
| Lstat (path : jstring) : Op (Result FileKind Error)
| Stat (path : jstring) : Op (Result FileKind Error)
| Readdir (path : jstring) : Op (Result (list jstring) Error)
| FileExists (path : jstring) : Op (Result bool Error)
| Mkdir (path : jstring) (recursive : bool) : Op (Result unit Error)
| Rm (path : jstring) (recursive force : bool) : Op (Result unit Error)
| Symlink (target path : jstring) : Op (Result unit Error)
| Spawn (argv : list jstring) (cwd : jstring) : Op (Result ProcOutput Error)
| LoadWorktreeConfig (directory : jstring) : Op (Result WorktreeConfig Error)
| CopyFiles (sourceDir targetDir : jstring) (files : list jstring)
    : Op (Result unit Error)
| OpenTerminal (cwd command name : jstring) : Op (Result TerminalResult Error).

Inductive Prog (A : Type) : Type :=
| Ret (a : A)
| Vis {X : Type} (op : Op X) (k : X -> Prog A).
Arguments Ret {A} a.
Arguments Vis {A X} op k.

Fixpoint bind {A B : Type} (m : Prog A) (f : A -> Prog B) : Prog B :=
  match m with
  | Ret a => f a
  | Vis op k => Vis op (fun x => bind (k x) f)
  end.

Definition call {X : Type} (op : Op X) : Prog X := Vis op Ret.

(** Sequencing inside a [try] block: an [Err] leaves the block. *)
Definition bindE {A B : Type} (m : Prog (Result A Error))
  (f : A -> Prog (Result B Error)) : Prog (Result B Error) :=
  bind m (fun r => match r with
                   | Ok a => f a
                   | Err e => Ret (Err e)
                   end).

(** A call together with the response it got. *)
Inductive Event : Type :=
| Ev {X : Type} (op : Op X) (response : X).

(** An environment: a state and the way it answers a call. *)
Definition Handler (W : Type) : Type := forall X : Type, Op X -> W -> X * W.

(** Running a program: its value, the final state and the calls made. *)
Fixpoint run {W A : Type} (h : Handler W) (p : Prog A) (w : W)
  : A * W * list Event :=
  match p with
  | Ret a => (a, w, [])
  | Vis op k =>
      let '(x, w1) := h _ op w in
      let '(a, w2, t) := run h (k x) w1 in
      (a, w2, Ev op x :: t)
  end.

Definition value {W A : Type} (r : A * W * list Event) : A := fst (fst r).
Definition world {W A : Type} (r : A * W * list Event) : W := snd (fst r).
Definition events {W A : Type} (r : A * W * list Event) : list Event := snd r.

(** Reading a list of events. *)
Definition lstatPath (e : Event) : list jstring :=
  match e with
  | Ev op _ => match op with Lstat p => [p] | _ => [] end
  end.

(** The paths handed to [lstat], in order. *)
Definition lstatPaths (t : list Event) : list jstring := flat_map lstatPath t.

Definition isRm (e : Event) : bool :=
  match e with
  | Ev op _ => match op with Rm _ _ _ => true | _ => false end
  end.

Definition isOpenTerminal (e : Event) : bool :=
  match e with
  | Ev op _ => match op with OpenTerminal _ _ _ => true | _ => false end
  end.

Definition isMkdir (e : Event) : bool :=
  match e with
  | Ev op _ => match op with Mkdir _ _ => true | _ => false end
  end.

Definition isSymlink (e : Event) : bool :=
  match e with
  | Ev op _ => match op with Symlink _ _ => true | _ => false end
  end.


(** Every call the program can make, whatever the responses, satisfies [P]
    together with its response. *)
Fixpoint allCalls {A : Type} (P : Event -> Prop) (p : Prog A) : Prop :=
  match p with
  | Ret _ => True
  | Vis op k => forall x, P (Ev op x) /\ allCalls P (k x)
  end.

End Effects.
Import Effects.

Declare Scope prog_scope.
Delimit Scope prog_scope with prog.
Notation "x <- m ;; k" := (bind m (fun x => k))
  (at level 100, m at next level, right associativity) : prog_scope.
Notation "x <-? m ;; k" := (bindE m (fun x => k))
  (at level 100, m at next level, right associativity) : prog_scope.
Open Scope prog_scope.

(** ** [git()] and [branchExists()] ([shared/git.ts]) *)

Module Git.

(** White space and line terminators of ECMAScript, as [String.prototype.trim]
    removes them. *)
Definition isWhite (c : N) : bool :=
  existsb (N.eqb c)
    [9; 10; 11; 12; 13; 32; 160; 5760; 8232; 8233; 8239; 8287; 12288; 65279]
  || ((8192 <=? c) && (c <=? 8202)).

Fixpoint trimStart (s : jstring) : jstring :=
  match s with
  | c :: s' => if isWhite c then trimStart s' else s
  | [] => []
  end.

Definition trim (s : jstring) : jstring := rev (trimStart (rev (trimStart s))).

(** [Bun.spawn(["git", ...args], {cwd})], then the exit code decides. *)
Definition git (args : list jstring) (cwd : jstring)
  : Prog (Result jstring jstring) :=
  r <- call (Spawn (js "git" :: args) cwd) ;;
  match r with
  | Ok out =>
      if negb (exitCode out =? 0)%Z then
        Ret (Err (match trim (stderr out) with
                  | [] => js "git " ++ hd (js "undefined") args ++ js " failed"
                  | msg => msg
                  end))
      else Ret (Ok (trim (stdout out)))
  | Err e => Ret (Err e)
  end.

Definition branchExists (cwd branch : jstring) : Prog bool :=
  result <- git [js "rev-parse"; js "--verify"; branch] cwd ;;
  Ret (is_ok result).

End Git.

(** ** Hooks ([shared/hooks.ts]) *)

Module Hooks.

(** [runHooks]: every command goes through [bash -c] in [cwd]; a failing
    exit code or a thrown error is only logged. *)
Fixpoint runHooks (cwd : jstring) (commands : list jstring) : Prog unit :=
  match commands with
  | [] => Ret tt
  | command :: rest =>
      _ <- call (Spawn [js "bash"; js "-c"; command] cwd) ;;
      runHooks cwd rest
  end.

End Hooks.

(** ** File synchronisation ([shared/sync.ts]) *)

Module Sync.
Import Path.

Section WithCwd.
(** [process.cwd()], which [path.resolve] falls back on. *)
Variable cwd : jstring.

Definition isPathSafe (filePath baseDir : jstring) : bool :=
  if isAbsolute filePath then false
  else if includes filePath (js "..") then false
  else
    let resolved := resolve cwd [baseDir; filePath] in
    if negb (startsWith resolved (baseDir ++ sep)) && negb (streq resolved baseDir)
    then false
    else true.

(** The [try] block of the loop body of [symlinkDirs]. *)
Definition linkDir (sourcePath targetPath : jstring) : Prog (Result unit Error) :=
  fileStat <- call (Stat sourcePath) ;;
  match fileStat with
  | Ok KDirectory =>
      _ <-? call (Mkdir (dirname targetPath) true) ;;
      _ <-? call (Rm targetPath true true) ;;
      _ <-? call (Symlink sourcePath targetPath) ;;
      Ret (Ok tt)
  | _ => Ret (Ok tt)
  end.

Fixpoint symlinkDirs (sourceDir targetDir : jstring) (dirs : list jstring)
  : Prog unit :=
  match dirs with
  | [] => Ret tt
  | dir :: rest =>
      if negb (isPathSafe dir sourceDir) then symlinkDirs sourceDir targetDir rest
      else
        let sourcePath := join [sourceDir; dir] in
        let targetPath := join [targetDir; dir] in
        _ <- linkDir sourcePath targetPath ;;
        symlinkDirs sourceDir targetDir rest
  end.

End WithCwd.
End Sync.

(** ** Workspace discovery ([multi-repo/discovery.ts]) *)

Module Discovery.
Import Path.

Definition MAX_LEVELS : nat := 10.

(** The [while] loop of [findWorkspaceRoot]; [levelsLeft] is
    [MAX_LEVELS - levelsUp]. *)
Fixpoint walkUp (levelsLeft : nat) (currentDir : jstring) : Prog (option jstring) :=
  match levelsLeft with
  | O => Ret None
  | S n =>
      if streq currentDir (js "/") then Ret None
      else
        stats <- call (Lstat (join [currentDir; js "main"])) ;;
        match stats with
        | Ok KDirectory => Ret (Some currentDir)
        | _ => walkUp n (dirname currentDir)
        end
  end.

Definition notFoundMessage (startDir : jstring) : jstring :=
  js "Workspace root not found (no main/ subdirectory within 10 levels from "
  ++ startDir ++ js ")".

Definition findWorkspaceRoot (cwd startDir : jstring)
  : Prog (Result jstring jstring) :=
  match startDir with
  | [] => Ret (Err (js "startDir must be a non-empty string"))
  | _ =>
      found <- walkUp MAX_LEVELS (resolve cwd [startDir]) ;;
      match found with
      | Some currentDir => Ret (Ok currentDir)
      | None => Ret (Err (notFoundMessage startDir))
      end
  end.

(** The [k]-th ancestor of a directory: [path.dirname] applied [k] times. *)
Definition ancestor (root : jstring) (k : nat) : jstring :=
  Nat.iter k dirname root.

(** In the state [w] of the environment, [lstat] finds a directory named
    [main] in [dir]. *)
Definition hasMain {W : Type} (h : Handler W) (w : W) (dir : jstring) : Prop :=
  fst (h _ (Lstat (join [dir; js "main"])) w) = Ok KDirectory.

(** [branch.replace(/\//g, "-")] *)
Definition sanitizeBranchForDir (branch : jstring) : jstring :=
  replaceAll SLASH (js "-") branch.

Definition getFeaturePath (workspaceRoot branch : jstring) : jstring :=
  join [workspaceRoot; sanitizeBranchForDir branch].

End Discovery.

(** ** SQLite [TEXT]

    [bun:sqlite] binds a JS string as UTF-8 and decodes a [TEXT] column back
    into a JS string.  A surrogate pair is one scalar value; a surrogate code
    unit that is not part of a pair has no UTF-8 form and is bound as U+FFFD.
    A [TEXT] value is held here as the JS string it reads back as, so binding
    is [toText] and two values are the same [TEXT] when their code units
    agree. *)

Module Text.

Definition REPLACEMENT : N := 65533.

Definition isHighSurrogate (c : N) : bool := (55296 <=? c) && (c <=? 56319).
Definition isLowSurrogate (c : N) : bool := (56320 <=? c) && (c <=? 57343).

Fixpoint toText (s : jstring) : jstring :=
  match s with
  | [] => []
  | c :: rest =>
      if isHighSurrogate c then
        match rest with
        | d :: rest' =>
            if isLowSurrogate d then c :: d :: toText rest'
            else REPLACEMENT :: toText rest
        | [] => [REPLACEMENT]
        end
      else if isLowSurrogate c then REPLACEMENT :: toText rest
      else c :: toText rest
  end.

(** [String.prototype.isWellFormed]: no surrogate outside a pair. *)
Fixpoint isWellFormed (s : jstring) : bool :=
  match s with
  | [] => true
  | c :: rest =>
      if isHighSurrogate c then
        match rest with
        | d :: rest' => isLowSurrogate d && isWellFormed rest'
        | [] => false
        end
      else negb (isLowSurrogate c) && isWellFormed rest
  end.

End Text.

(** ** The state store ([state.ts])

    The two SQLite tables are maps from their primary key to the other
    columns.  [sessions] has the key [id TEXT]; [pending_operations] has the
    key [id INTEGER] with [CHECK (id = 1)].  Strings are bound as [TEXT].
    A thrown [ZodError] is an [Err]; the database is then as it was. *)

Module State.
Import Text.

Record Session := {
  id : jstring; branch : jstring; path : jstring; createdAt : jstring }.

(** [sessionId] is a string or [null]. *)
Record PendingSpawn := {
  spawn_branch : jstring; spawn_path : jstring; spawn_sessionId : option jstring }.

Record PendingDelete := { delete_branch : jstring; delete_path : jstring }.

(** Columns of [sessions] besides [id]. *)
Record SessionRow := {
  col_branch : jstring; col_path : jstring; col_created_at : jstring }.

(** Columns of [pending_operations] besides [id]. *)
Record PendingRow := {
  op_type : jstring; op_branch : jstring; op_path : jstring;
  op_session_id : option jstring }.

Record Database := {
  sessions : gmap jstring SessionRow;
  pending_operations : gmap Z PendingRow }.

(** [z.string().min(1)] *)
Definition nonEmpty (s : jstring) : bool :=
  match s with [] => false | _ => true end.

Definition sessionSchema (s : Session) : bool :=
  nonEmpty (id s) && nonEmpty (branch s) && nonEmpty (path s)
  && nonEmpty (createdAt s).

Definition pendingSpawnSchema (p : PendingSpawn) : bool :=
  nonEmpty (spawn_branch p) && nonEmpty (spawn_path p)
  && match spawn_sessionId p with Some i => nonEmpty i | None => false end.

Definition pendingDeleteSchema (p : PendingDelete) : bool :=
  nonEmpty (delete_branch p) && nonEmpty (delete_path p).

Definition zodError : jstring := js "ZodError".

(** [INSERT OR REPLACE INTO sessions (id, branch, path, created_at) ...] *)
Definition addSession (db : Database) (session : Session)
  : Result Database jstring :=
  if sessionSchema session then
    Ok {| sessions :=
            <[ toText (id session) :=
               {| col_branch := toText (branch session);
                  col_path := toText (path session);
                  col_created_at := toText (createdAt session) |} ]> (sessions db);
          pending_operations := pending_operations db |}
  else Err zodError.

(** [SELECT id, branch, path, created_at as createdAt FROM sessions
     WHERE id = $id] *)
Definition getSession (db : Database) (sessionId : jstring) : option Session :=
  if negb (nonEmpty sessionId) then None
  else
    match sessions db !! toText sessionId with
    | Some row =>
        Some {| id := toText sessionId; branch := col_branch row;
                path := col_path row; createdAt := col_created_at row |}
    | None => None
    end.

(** [DELETE FROM sessions WHERE branch = $branch] *)
Definition removeSession (db : Database) (branch : jstring) : Database :=
  if negb (nonEmpty branch) then db
  else
    {| sessions := filter (fun kv => col_branch (snd kv) <> toText branch)
                          (sessions db);
       pending_operations := pending_operations db |}.

Definition hasType (type : jstring) (row : PendingRow) : bool :=
  streq (op_type row) type.

(** [SELECT type, branch, path, session_id as sessionId
     FROM pending_operations WHERE id = 1 AND type = 'spawn'] *)
Definition getPendingSpawn (db : Database) : option PendingSpawn :=
  match pending_operations db !! 1%Z with
  | Some row =>
      if hasType (js "spawn") row then
        Some {| spawn_branch := op_branch row; spawn_path := op_path row;
                spawn_sessionId := op_session_id row |}
      else None
  | None => None
  end.

(** [SELECT type, branch, path FROM pending_operations
     WHERE id = 1 AND type = 'delete'] *)
Definition getPendingDelete (db : Database) : option PendingDelete :=
  match pending_operations db !! 1%Z with
  | Some row =>
      if hasType (js "delete") row then
        Some {| delete_branch := op_branch row; delete_path := op_path row |}
      else None
  | None => None
  end.

(** [INSERT OR REPLACE INTO pending_operations (id, type, branch, path,
     session_id) VALUES (1, 'spawn', $branch, $path, $sessionId)] *)
Definition setPendingSpawn (db : Database) (spawn : PendingSpawn)
  : Result Database jstring :=
  if pendingSpawnSchema spawn then
    Ok {| sessions := sessions db;
          pending_operations :=
            <[ 1%Z := {| op_type := js "spawn";
                         op_branch := toText (spawn_branch spawn);
                         op_path := toText (spawn_path spawn);
                         op_session_id := option_map toText (spawn_sessionId spawn) |} ]>
              (pending_operations db) |}
  else Err zodError.

(** [INSERT OR REPLACE INTO pending_operations (id, type, branch, path,
     session_id) VALUES (1, 'delete', $branch, $path, NULL)] *)
Definition setPendingDelete (db : Database) (del : PendingDelete)
  : Result Database jstring :=
  if pendingDeleteSchema del then
    Ok {| sessions := sessions db;
          pending_operations :=
            <[ 1%Z := {| op_type := js "delete";
                         op_branch := toText (delete_branch del);
                         op_path := toText (delete_path del);
                         op_session_id := None |} ]>
              (pending_operations db) |}
  else Err zodError.

(** [DELETE FROM pending_operations WHERE id = 1 AND type = <type>] *)
Definition deletePending (type : jstring) (db : Database) : Database :=
  {| sessions := sessions db;
     pending_operations :=
       match pending_operations db !! 1%Z with
       | Some row =>
           if hasType type row then delete 1%Z (pending_operations db)
           else pending_operations db
       | None => pending_operations db
       end |}.

Definition clearPendingSpawn (db : Database) : Database :=
  deletePending (js "spawn") db.

Definition clearPendingDelete (db : Database) : Database :=
  deletePending (js "delete") db.

(** The tables as [initStateDb] creates them. *)
Definition emptyDb : Database := {| sessions := ∅; pending_operations := ∅ |}.

(** [CHECK (id = 1)] on [pending_operations]. *)
Definition checkedId (db : Database) : Prop :=
  forall k row, pending_operations db !! k = Some row -> k = 1%Z.

(** The database after a call that may have thrown. *)
Definition after (db : Database) (r : Result Database jstring) : Database :=
  match r with Ok db' => db' | Err _ => db end.

(** Calls on the pending-operation store and their interleavings. *)
Inductive PendingCall :=
| SetSpawn (spawn : PendingSpawn)
| SetDelete (del : PendingDelete)
| ClearSpawn
| ClearDelete.

Definition doCall (db : Database) (c : PendingCall) : Database :=
  match c with
  | SetSpawn spawn => after db (setPendingSpawn db spawn)
  | SetDelete del => after db (setPendingDelete db del)
  | ClearSpawn => clearPendingSpawn db
  | ClearDelete => clearPendingDelete db
  end.

Definition doCalls (db : Database) (cs : list PendingCall) : Database :=
  fold_left doCall cs db.

(** Sample payloads. *)
Definition spawnA : PendingSpawn :=
  {| spawn_branch := js "feat/a"; spawn_path := js "/wt/feat-a";
     spawn_sessionId := Some (js "ses_1") |}.
Definition deleteB : PendingDelete :=
  {| delete_branch := js "feat/b"; delete_path := js "/wt/feat-b" |}.
Definition deleteNoBranch : PendingDelete :=
  {| delete_branch := []; delete_path := js "/wt/feat-b" |}.
Definition session1 : Session :=
  {| id := js "ses_1"; branch := js "feat/a"; path := js "/wt/feat-a";
     createdAt := js "2025-01-01T00:00:00Z" |}.
Definition session1' : Session :=
  {| id := js "ses_1"; branch := js "feat/b"; path := js "/wt/feat-b";
     createdAt := js "2025-01-02T00:00:00Z" |}.
Definition session1NoBranch : Session :=
  {| id := js "ses_1"; branch := []; path := js "/wt/feat-b";
     createdAt := js "2025-01-02T00:00:00Z" |}.

(** The row [INSERT OR REPLACE] writes for a session. *)
Definition rowOf (s : Session) : SessionRow :=
  {| col_branch := toText (branch s); col_path := toText (path s);
     col_created_at := toText (createdAt s) |}.

(** A session, a spawn and a delete as they read back from the tables. *)
Definition storedSession (s : Session) : Session :=
  {| id := toText (id s); branch := toText (branch s); path := toText (path s);
     createdAt := toText (createdAt s) |}.

Definition storedSpawn (p : PendingSpawn) : PendingSpawn :=
  {| spawn_branch := toText (spawn_branch p); spawn_path := toText (spawn_path p);
     spawn_sessionId := option_map toText (spawn_sessionId p) |}.

Definition storedDelete (p : PendingDelete) : PendingDelete :=
  {| delete_branch := toText (delete_branch p);
     delete_path := toText (delete_path p) |}.

(** Every string of the value is well formed. *)
Definition wellFormedSession (s : Session) : bool :=
  isWellFormed (id s) && isWellFormed (branch s) && isWellFormed (path s)
  && isWellFormed (createdAt s).

Definition wellFormedSpawn (p : PendingSpawn) : bool :=
  isWellFormed (spawn_branch p) && isWellFormed (spawn_path p)
  && match spawn_sessionId p with Some i => isWellFormed i | None => true end.

Definition wellFormedDelete (p : PendingDelete) : bool :=
  isWellFormed (delete_branch p) && isWellFormed (delete_path p).

(** Sample values with a surrogate code unit that has no partner. *)
Definition deleteLone : PendingDelete :=
  {| delete_branch := [55296%N]; delete_path := js "/wt/feat-b" |}.
Definition session1Lone : Session :=
  {| id := js "ses_1"; branch := [55296%N]; path := js "/wt/feat-b";
     createdAt := js "2025-01-02T00:00:00Z" |}.

(** Number of rows of [sessions] whose [id] is [i]. *)
Definition rowsWithId (db : Database) (i : jstring) : nat :=
  length (List.filter (fun kv => streq (fst kv) i) (map_to_list (sessions db))).

End State.

(** ** Creating a worktree set ([multi-repo/sets.ts]) *)

Module SetCreation.
Import Path Discovery Git Sync Hooks.

Record CreateSetOptions := {
  workspaceRoot : jstring;
  branch : jstring;
  baseBranch : option jstring;
  repos : list jstring;
  runHooksFlag : option bool }.

Record RepoResult := {
  repo : jstring;
  success : bool;
  worktreePath : option jstring;
  error : option jstring }.

Record SetCreationResult := {
  featurePath : jstring;
  results : list RepoResult;
  successCount : nat;
  failureCount : nat }.

Definition failed (repo error : jstring) : RepoResult :=
  {| repo := repo; success := false; worktreePath := None; error := Some error |}.

Definition succeeded (repo worktreePath : jstring) : RepoResult :=
  {| repo := repo; success := true; worktreePath := Some worktreePath;
     error := None |}.

(** The result of the two early returns: every repository marked failed. *)
Definition allFailed (featurePath : jstring) (repos : list jstring)
  (error : jstring) : SetCreationResult :=
  {| featurePath := featurePath;
     results := List.map (fun repo => failed repo error) repos;
     successCount := 0;
     failureCount := length repos |}.

(** [results.push(r)] with [successCount++] or [failureCount++]. *)
Definition push (acc : SetCreationResult) (r : RepoResult) : SetCreationResult :=
  {| featurePath := featurePath acc;
     results := results acc ++ [r];
     successCount := if success r then S (successCount acc) else successCount acc;
     failureCount := if success r then failureCount acc else S (failureCount acc) |}.

(** The scan of an existing feature directory: does some entry have a
    [.git]?  A failing [exists()] is swallowed. *)
Fixpoint containsWorktree (featurePath : jstring) (entries : list jstring)
  : Prog bool :=
  match entries with
  | [] => Ret false
  | entry :: rest =>
      found <- call (FileExists (join [featurePath; entry; js ".git"])) ;;
      match found with
      | Ok true => Ret true
      | _ => containsWorktree featurePath rest
      end
  end.

Definition whenNonEmpty {A : Type} (l : list A) (p : Prog (Result unit Error))
  : Prog (Result unit Error) :=
  match l with
  | [] => Ret (Ok tt)
  | _ => p
  end.

Section WithCwd.
Variable cwd : jstring.

(** The [try] block of the loop over the repositories. *)
Definition tryRepo (options : CreateSetOptions) (featurePath repo : jstring)
  : Prog (Result RepoResult Error) :=
  let mainRepoPath := join [workspaceRoot options; js "main"; repo] in
  let worktreePath := join [featurePath; repo] in
  exists_ <- branchExists mainRepoPath (branch options) ;;
  gitResult <-
    (if exists_ : bool then
       git [js "worktree"; js "add"; worktreePath; branch options] mainRepoPath
     else
       let base := match baseBranch options with
                   | Some b => b
                   | None => js "HEAD"
                   end in
       git [js "worktree"; js "add"; js "-b"; branch options; worktreePath; base]
           mainRepoPath) ;;
  match gitResult with
  | Err e => Ret (Ok (failed repo e))
  | Ok _ =>
      worktreeConfig <-? call (LoadWorktreeConfig mainRepoPath) ;;
      _ <-? whenNonEmpty (sync_copyFiles worktreeConfig)
              (call (CopyFiles mainRepoPath worktreePath
                       (sync_copyFiles worktreeConfig))) ;;
      _ <-? whenNonEmpty (sync_symlinkDirs worktreeConfig)
              (_ <- symlinkDirs cwd mainRepoPath worktreePath
                      (sync_symlinkDirs worktreeConfig) ;;
               Ret (Ok tt)) ;;
      _ <-? (if match runHooksFlag options with Some b => b | None => true end
             then whenNonEmpty (hooks_postCreate worktreeConfig)
                    (_ <- runHooks worktreePath (hooks_postCreate worktreeConfig) ;;
                     Ret (Ok tt))
             else Ret (Ok tt)) ;;
      Ret (Ok (succeeded repo worktreePath))
  end.

(** One turn of the loop: the [try] block and its [catch]. *)
Definition processRepo (options : CreateSetOptions) (featurePath repo : jstring)
  : Prog RepoResult :=
  r <- tryRepo options featurePath repo ;;
  match r with
  | Ok result => Ret result
  | Err e => Ret (failed repo e)
  end.

Fixpoint processRepos (options : CreateSetOptions) (featurePath : jstring)
  (todo : list jstring) (acc : SetCreationResult) : Prog SetCreationResult :=
  match todo with
  | [] => Ret acc
  | repo :: rest =>
      r <- processRepo options featurePath repo ;;
      processRepos options featurePath rest (push acc r)
  end.

(** Step 8: launch the terminal, or remove the feature directory. *)
Definition finish (featurePath sanitizedBranch : jstring) (acc : SetCreationResult)
  : Prog (Result SetCreationResult Error) :=
  if (0 <? successCount acc)%nat then
    _ <-? call (OpenTerminal featurePath (js "opencode") sanitizedBranch) ;;
    Ret (Ok acc)
  else
    _ <- call (Rm featurePath true true) ;;
    Ret (Ok acc).

Definition createWorktreeSet (options : CreateSetOptions)
  : Prog (Result SetCreationResult Error) :=
  match GitRef.safeParse (branch options) with
  | Err issues =>
      let errorMsg := hd (js "Invalid branch name") issues in
      Ret (Ok (allFailed [] (repos options) (js "Invalid branch name: " ++ errorMsg)))
  | Ok _ =>
      let sanitizedBranch := sanitizeBranchForDir (branch options) in
      let featurePath := getFeaturePath (workspaceRoot options) (branch options) in
      listing <- call (Readdir featurePath) ;;
      let entries := match listing with Ok es => es | Err _ => [] end in
      occupied <- containsWorktree featurePath entries ;;
      if occupied : bool then
        Ret (Ok (allFailed featurePath (repos options)
                   (js "Feature directory already contains worktrees")))
      else
        _ <-? call (Mkdir featurePath true) ;;
        acc <- processRepos options featurePath (repos options)
                 {| featurePath := featurePath; results := [];
                    successCount := 0; failureCount := 0 |} ;;
        finish featurePath sanitizedBranch acc
  end.

End WithCwd.

(** What the calls made before the last step may be: never the terminal
    launcher, and an [rm] only as [symlinkDirs] issues it, on the place of a
    link for an entry that passed [isPathSafe], in the worktree of one of
    the repositories. *)
Definition loopCall (cwd : jstring) (options : CreateSetOptions) (e : Event)
  : Prop :=
  let featurePath := getFeaturePath (workspaceRoot options) (branch options) in
  isOpenTerminal e = false /\
  (isRm e = true ->
   exists repo dir resp,
     In repo (repos options) /\
     isPathSafe cwd dir (join [workspaceRoot options; js "main"; repo]) = true /\
     e = Ev (Rm (join [join [featurePath; repo]; dir]) true true) resp).

(** An [rm] call, if [e] is one, is at or below the worktree of one of the
    repositories. *)
Definition rmInWorktree (options : CreateSetOptions) (e : Event) : Prop :=
  let featurePath := getFeaturePath (workspaceRoot options) (branch options) in
  isRm e = true ->
  exists repo p resp,
    In repo (repos options) /\
    e = Ev (Rm p true true) resp /\
    Segments.atOrBelow (featurePath ++ SLASH :: repo) p.

End SetCreation.

(** ** Removing a worktree set ([multi-repo/sets.ts]) *)

Module SetRemoval.
Import Path Discovery Git Hooks.

Record RemoveSetOptions := { workspaceRoot : jstring; branch : jstring }.

Record SetRemovalResult := {
  featurePath : jstring;
  removedCount : nat;
  failureCount : nat;
  errors : list jstring }.

Definition nothingRemoved (featurePath error : jstring) : SetRemovalResult :=
  {| featurePath := featurePath; removedCount := 0; failureCount := 0;
     errors := [error] |}.

(** [errors.push(errMsg); failureCount++] *)
Definition fail (acc : SetRemovalResult) (errMsg : jstring) : SetRemovalResult :=
  {| featurePath := featurePath acc; removedCount := removedCount acc;
     failureCount := S (failureCount acc); errors := errors acc ++ [errMsg] |}.

(** [errors.push(errMsg)] alone. *)
Definition pushError (acc : SetRemovalResult) (errMsg : jstring) : SetRemovalResult :=
  {| featurePath := featurePath acc; removedCount := removedCount acc;
     failureCount := failureCount acc; errors := errors acc ++ [errMsg] |}.

(** [removedCount++] *)
Definition removed (acc : SetRemovalResult) : SetRemovalResult :=
  {| featurePath := featurePath acc; removedCount := S (removedCount acc);
     failureCount := failureCount acc; errors := errors acc |}.

(** [value.replace(/\/\.git$/, <empty string>)] *)
Definition stripDotGit (value : jstring) : jstring :=
  if endsWith value (js "/.git") then firstn (length value - 5) value else value.

(** The [try] block of the loop over the entries, from the accumulated
    result to the new one. *)
Definition tryEntry (featurePath : jstring) (acc : SetRemovalResult)
  (entry : jstring) : Prog (Result SetRemovalResult Error) :=
  let wtPath := join [featurePath; entry] in
  let gitFile := join [wtPath; js ".git"] in
  stats <- call (Lstat gitFile) ;;
  match stats with
  | Ok KFile =>
      commonDirResult <-
        git [js "rev-parse"; js "--path-format=absolute"; js "--git-common-dir"]
            wtPath ;;
      match commonDirResult with
      | Err e =>
          Ret (Ok (fail acc (js "Failed to resolve main repo for " ++ entry
                             ++ js ": " ++ e)))
      | Ok value =>
          let mainRepoPath := stripDotGit value in
          config <-? call (LoadWorktreeConfig mainRepoPath) ;;
          _ <-? SetCreation.whenNonEmpty (hooks_preDelete config)
                  (_ <- runHooks wtPath (hooks_preDelete config) ;;
                   Ret (Ok tt)) ;;
          removeResult <-
            git [js "worktree"; js "remove"; js "--force"; wtPath] mainRepoPath ;;
          match removeResult with
          | Err e =>
              Ret (Ok (fail acc (js "Failed to remove worktree " ++ entry
                                 ++ js ": " ++ e)))
          | Ok _ => Ret (Ok (removed acc))
          end
      end
  | _ => Ret (Ok acc)
  end.

Definition removeEntry (featurePath : jstring) (acc : SetRemovalResult)
  (entry : jstring) : Prog SetRemovalResult :=
  r <- tryEntry featurePath acc entry ;;
  match r with
  | Ok acc' => Ret acc'
  | Err e => Ret (fail acc (js "Unexpected error removing " ++ entry ++ js ": " ++ e))
  end.

Fixpoint removeEntries (featurePath : jstring) (entries : list jstring)
  (acc : SetRemovalResult) : Prog SetRemovalResult :=
  match entries with
  | [] => Ret acc
  | entry :: rest =>
      acc' <- removeEntry featurePath acc entry ;;
      removeEntries featurePath rest acc'
  end.

Definition removeWorktreeSet (options : RemoveSetOptions) : Prog SetRemovalResult :=
  let featurePath := getFeaturePath (workspaceRoot options) (branch options) in
  stats <- call (Lstat featurePath) ;;
  match stats with
  | Err _ =>
      Ret (nothingRemoved featurePath
             (js "Feature directory not found: " ++ featurePath))
  | Ok kind =>
      if negb (isDirectory kind) then
        Ret (nothingRemoved featurePath
               (js "Feature path exists but is not a directory: " ++ featurePath))
      else
        listing <- call (Readdir featurePath) ;;
        match listing with
        | Err e =>
            Ret (nothingRemoved featurePath
                   (js "Failed to read feature directory: " ++ e))
        | Ok entries =>
            acc <- removeEntries featurePath entries
                     {| featurePath := featurePath; removedCount := 0;
                        failureCount := 0; errors := [] |} ;;
            deleted <- call (Rm featurePath true true) ;;
            match deleted with
            | Ok _ => Ret acc
            | Err e =>
                Ret (pushError acc (js "Failed to remove feature directory: " ++ e))
            end
        end
  end.

End SetRemoval.

(** ** The course of a removal, entry by entry *)

Module RemovalRuns.
Import Path Discovery Git SetRemoval.

(** What [git()] returns for the answer [resp] of the process it started. *)
Definition gitResult (args : list jstring) (resp : Result ProcOutput Error)
  : Result jstring jstring :=
  match resp with
  | Ok out =>
      if (exitCode out =? 0)%Z then Ok (trim (stdout out))
      else Err (match trim (stderr out) with
                | [] => js "git " ++ hd (js "undefined") args ++ js " failed"
                | msg => msg
                end)
  | Err e => Err e
  end.

Definition commonDirArgs : list jstring :=
  [js "rev-parse"; js "--path-format=absolute"; js "--git-common-dir"].

Definition removeArgs (wtPath : jstring) : list jstring :=
  [js "worktree"; js "remove"; js "--force"; wtPath].

(** What became of an entry of the feature directory. *)
Inductive Outcome :=
| Skipped
| Removed
| Failed (errMsg : jstring).

(** The calls of [runHooks cwd commands]: one [bash -c] per command, in
    order, whatever each one answers. *)
Definition hooksRun (cwd : jstring) (commands : list jstring) (t : list Event)
  : Prop :=
  Forall2 (fun command e =>
             exists resp, e = Ev (Spawn [js "bash"; js "-c"; command] cwd) resp)
          commands t.

(** The calls made for one entry, with their answers, and the outcome the
    answers lead to. *)
Inductive entryRun (featurePath entry : jstring) : list Event -> Outcome -> Prop :=
| entry_skipped stats :
    stats <> Ok KFile ->
    entryRun featurePath entry
      [Ev (Lstat (join [join [featurePath; entry]; js ".git"])) stats]
      Skipped
| entry_unresolved resp e :
    gitResult commonDirArgs resp = Err e ->
    entryRun featurePath entry
      [Ev (Lstat (join [join [featurePath; entry]; js ".git"])) (Ok KFile);
       Ev (Spawn (js "git" :: commonDirArgs) (join [featurePath; entry])) resp]
      (Failed (js "Failed to resolve main repo for " ++ entry ++ js ": " ++ e))
| entry_config_error resp value e :
    gitResult commonDirArgs resp = Ok value ->
    entryRun featurePath entry
      [Ev (Lstat (join [join [featurePath; entry]; js ".git"])) (Ok KFile);
       Ev (Spawn (js "git" :: commonDirArgs) (join [featurePath; entry])) resp;
       Ev (LoadWorktreeConfig (stripDotGit value)) (Err e)]
      (Failed (js "Unexpected error removing " ++ entry ++ js ": " ++ e))
| entry_not_removed resp value config hooks resp' e :
    gitResult commonDirArgs resp = Ok value ->
    hooksRun (join [featurePath; entry]) (hooks_preDelete config) hooks ->
    gitResult (removeArgs (join [featurePath; entry])) resp' = Err e ->
    entryRun featurePath entry
      ([Ev (Lstat (join [join [featurePath; entry]; js ".git"])) (Ok KFile);
        Ev (Spawn (js "git" :: commonDirArgs) (join [featurePath; entry])) resp;
        Ev (LoadWorktreeConfig (stripDotGit value)) (Ok config)]
       ++ hooks
       ++ [Ev (Spawn (js "git" :: removeArgs (join [featurePath; entry]))
                 (stripDotGit value)) resp'])
      (Failed (js "Failed to remove worktree " ++ entry ++ js ": " ++ e))
| entry_removed resp value config hooks resp' out :
    gitResult commonDirArgs resp = Ok value ->
    hooksRun (join [featurePath; entry]) (hooks_preDelete config) hooks ->
    gitResult (removeArgs (join [featurePath; entry])) resp' = Ok out ->
    entryRun featurePath entry
      ([Ev (Lstat (join [join [featurePath; entry]; js ".git"])) (Ok KFile);
        Ev (Spawn (js "git" :: commonDirArgs) (join [featurePath; entry])) resp;
        Ev (LoadWorktreeConfig (stripDotGit value)) (Ok config)]
       ++ hooks
       ++ [Ev (Spawn (js "git" :: removeArgs (join [featurePath; entry]))
                 (stripDotGit value)) resp'])
      Removed.

(** The calls made for the entries, one entry after the other. *)
Inductive entriesRun (featurePath : jstring)
  : list jstring -> list Event -> list Outcome -> Prop :=
| entries_nil : entriesRun featurePath [] [] []
| entries_cons entry rest t o t' os :
    entryRun featurePath entry t o ->
    entriesRun featurePath rest t' os ->
    entriesRun featurePath (entry :: rest) (t ++ t') (o :: os).

Definition isRemoved (o : Outcome) : bool :=
  match o with Removed => true | _ => false end.

Definition isFailed (o : Outcome) : bool :=
  match o with Failed _ => true | _ => false end.

Definition messageOf (o : Outcome) : list jstring :=
  match o with Failed errMsg => [errMsg] | _ => [] end.

(** The accumulated result after an entry with outcome [o]. *)
Definition record (acc : SetRemovalResult) (o : Outcome) : SetRemovalResult :=
  match o with
  | Skipped => acc
  | Removed => removed acc
  | Failed errMsg => fail acc errMsg
  end.

End RemovalRuns.

(** ** A small file system

    An environment to run the programs in: a table from paths to kinds of
    nodes, a list of paths that cannot be removed, and the exit code the
    [git] binary and the hooks answer with, and the configuration of the
    repositories.  The terminal launcher succeeds. *)

Module Fs.
Import Path.

Record World := {
  nodes : list (jstring * FileKind);
  locked : list jstring;
  unreadable : list jstring;
  gitExit : Z;
  config : WorktreeConfig }.

Definition noConfig : WorktreeConfig :=
  {| sync_copyFiles := []; sync_symlinkDirs := [];
     hooks_postCreate := []; hooks_preDelete := [] |}.

Fixpoint lookup (p : jstring) (ns : list (jstring * FileKind)) : option FileKind :=
  match ns with
  | [] => None
  | (q, k) :: rest => if streq p q then Some k else lookup p rest
  end.

Definition existsPath (w : World) (p : jstring) : bool :=
  match lookup p (nodes w) with Some _ => true | None => false end.

(** [p] is [dir] or lies below it. *)
Definition under (dir p : jstring) : bool :=
  streq p dir || startsWith p (dir ++ sep).

Definition childName (dir p : jstring) : option jstring :=
  if startsWith p (dir ++ sep) then
    let name := skipn (length dir + 1) p in
    if includes name sep || streq name [] then None else Some name
  else None.

Definition children (dir : jstring) (ns : list (jstring * FileKind)) : list jstring :=
  flat_map (fun n => match childName dir (fst n) with
                     | Some name => [name]
                     | None => []
                     end) ns.

Definition setNodes (w : World) (ns : list (jstring * FileKind)) : World :=
  {| nodes := ns; locked := locked w; unreadable := unreadable w;
     gitExit := gitExit w; config := config w |}.

Definition ENOENT : jstring := js "ENOENT: no such file or directory".
Definition EACCES : jstring := js "EACCES: permission denied".

Definition handle : Handler World :=
  fun X op =>
    match op in Op X return World -> X * World with
    | Lstat p | Stat p => fun w =>
        (match lookup p (nodes w) with Some k => Ok k | None => Err ENOENT end, w)
    | Readdir p => fun w =>
        (if existsb (streq p) (unreadable w) then Err EACCES
         else match lookup p (nodes w) with
              | Some KDirectory => Ok (children p (nodes w))
              | _ => Err ENOENT
              end, w)
    | FileExists p => fun w =>
        (Ok (match lookup p (nodes w) with Some KFile => true | _ => false end), w)
    | Mkdir p _ => fun w =>
        (Ok tt, if existsPath w p then w else setNodes w ((p, KDirectory) :: nodes w))
    | Rm p _ _ => fun w =>
        if existsb (streq p) (locked w) then (Err EACCES, w)
        else (Ok tt, setNodes w (List.filter (fun n => negb (under p (fst n))) (nodes w)))
    | Symlink _ p => fun w =>
        if existsPath w p then (Err (js "EEXIST: file already exists"), w)
        else (Ok tt, setNodes w ((p, KSymlink) :: nodes w))
    | Spawn _ _ => fun w =>
        (Ok {| stdout := []; stderr := []; exitCode := gitExit w |}, w)
    | LoadWorktreeConfig _ => fun w => (Ok (config w), w)
    | CopyFiles _ _ _ => fun w => (Ok tt, w)
    | OpenTerminal _ _ _ => fun w =>
        (Ok {| success := true; terminalError := [] |}, w)
    end.

(** A feature directory [/ws/feat-x] with two worktrees and a stray file. *)
Definition featureWorld : World :=
  {| nodes := [ (js "/ws", KDirectory);
                (js "/ws/main", KDirectory);
                (js "/ws/feat-x", KDirectory);
                (js "/ws/feat-x/api", KDirectory);
                (js "/ws/feat-x/api/.git", KFile);
                (js "/ws/feat-x/notes.txt", KFile);
                (js "/ws/feat-x/web", KDirectory);
                (js "/ws/feat-x/web/.git", KFile) ];
     locked := [];
     unreadable := [];
     gitExit := 0%Z;
     config := noConfig |}.

(** The same, but the feature directory cannot be removed. *)
Definition lockedWorld : World :=
  {| nodes := nodes featureWorld;
     locked := [js "/ws/feat-x"];
     unreadable := [];
     gitExit := 0%Z;
     config := noConfig |}.

(** The same, but the feature directory cannot be listed. *)
Definition unreadableWorld : World :=
  {| nodes := nodes featureWorld;
     locked := [];
     unreadable := [js "/ws/feat-x"];
     gitExit := 0%Z;
     config := noConfig |}.

Definition featureOptions : SetRemoval.RemoveSetOptions :=
  {| SetRemoval.workspaceRoot := js "/ws"; SetRemoval.branch := js "feat/x" |}.


(** A workspace where [git] fails and the feature directory, once made,
    cannot be removed. *)
Definition stuckWorld : World :=
  {| nodes := [ (js "/ws", KDirectory); (js "/ws/main", KDirectory) ];
     locked := [js "/ws/feat-x"];
     unreadable := [];
     gitExit := 128%Z;
     config := noConfig |}.

Definition createOptions : SetCreation.CreateSetOptions :=
  {| SetCreation.workspaceRoot := js "/ws";
     SetCreation.branch := js "feat/x";
     SetCreation.baseBranch := None;
     SetCreation.repos := [js "api"];
     SetCreation.runHooksFlag := None |}.

(** The repository ["."], whose configuration links ["."]: the worktree is
    the feature directory, and the link takes its place. *)
Definition dotOptions : SetCreation.CreateSetOptions :=
  {| SetCreation.workspaceRoot := js "/ws";
     SetCreation.branch := js "feat/x";
     SetCreation.baseBranch := None;
     SetCreation.repos := [js "."];
     SetCreation.runHooksFlag := None |}.

Definition dotWorld : World :=
  {| nodes := [ (js "/ws", KDirectory); (js "/ws/main", KDirectory);
                (js "/ws/main/.git", KDirectory) ];
     locked := [];
     unreadable := [];
     gitExit := 0%Z;
     config := {| sync_copyFiles := []; sync_symlinkDirs := [js "."];
                  hooks_postCreate := []; hooks_preDelete := [] |} |}.

(** A repository with a linked directory, a file to copy and hooks. *)
Definition syncWorld : World :=
  {| nodes := [ (js "/ws", KDirectory); (js "/ws/main", KDirectory);
                (js "/ws/main/api", KDirectory);
                (js "/ws/main/api/.git", KDirectory);
                (js "/ws/main/api/.env", KFile);
                (js "/ws/main/api/node_modules", KDirectory) ];
     locked := [];
     unreadable := [];
     gitExit := 0%Z;
     config := {| sync_copyFiles := [js ".env"];
                  sync_symlinkDirs := [js "node_modules"];
                  hooks_postCreate := [js "npm install"];
                  hooks_preDelete := [js "make clean"] |} |}.

(** Options whose branch name the validator rejects (it has a space). *)
Definition badBranchOptions : SetCreation.CreateSetOptions :=
  {| SetCreation.workspaceRoot := js "/ws";
     SetCreation.branch := js "my branch";
     SetCreation.baseBranch := None;
     SetCreation.repos := [js "api"; js "web"];
     SetCreation.runHooksFlag := None |}.

(** A workspace [/ws] with one repository under [main/]. *)
Definition workspace : World :=
  {| nodes := [ (js "/ws", KDirectory);
                (js "/ws/main", KDirectory);
                (js "/ws/main/api", KDirectory);
                (js "/ws/main/api/.git", KDirectory) ];
     locked := [];
     unreadable := [];
     gitExit := 0%Z;
     config := noConfig |}.

End Fs.

(** ** Repository validation ([multi-repo/discovery.ts]) *)

Module RepoValidation.
Import Path.

(** The body of the loop of [validateRepos]: is [repo] to be kept? *)
Definition checkRepo (mainPath repo : jstring) : Prog bool :=
  match repo with
  | [] => Ret false
  | _ =>
      let repoPath := join [mainPath; repo] in
      let gitPath := join [repoPath; js ".git"] in
      repoStats <- call (Lstat repoPath) ;;
      match repoStats with
      | Ok repoKind =>
          gitStats <- call (Lstat gitPath) ;;
          match gitStats with
          | Ok gitKind => Ret (isDirectory repoKind && isDirectory gitKind)
          | Err _ => Ret false
          end
      | Err _ => Ret false
      end
  end.

Fixpoint validateLoop (mainPath : jstring) (repos validRepos : list jstring)
  : Prog (list jstring) :=
  match repos with
  | [] => Ret validRepos
  | repo :: rest =>
      keep <- checkRepo mainPath repo ;;
      validateLoop mainPath rest
        (if keep : bool then validRepos ++ [repo] else validRepos)
  end.

Definition validateRepos (workspaceRoot : jstring) (repos : list jstring)
  : Prog (Result (list jstring) jstring) :=
  match workspaceRoot with
  | [] => Ret (Err (js "workspaceRoot must be a non-empty string"))
  | _ =>
      validRepos <- validateLoop (join [workspaceRoot; js "main"]) repos [] ;;
      Ret (Ok validRepos)
  end.

(** In the state [w], [lstat] says that [p] is a directory. *)
Definition dirAt {W : Type} (h : Handler W) (w : W) (p : jstring) : bool :=
  match fst (h _ (Lstat p) w) with
  | Ok KDirectory => true
  | _ => false
  end.

(** Whether [validateRepos] keeps [repo], read off the file system. *)
Definition keeps {W : Type} (h : Handler W) (w : W) (mainPath repo : jstring) : bool :=
  State.nonEmpty repo
  && dirAt h w (join [mainPath; repo])
  && dirAt h w (join [join [mainPath; repo]; js ".git"]).

End RepoValidation.

(** ** Single-repository worktrees ([worktree.ts]) *)

Module SingleRepo.
Import Path Git.

(** [createWorktree] of the self-contained plugin: the worktree lives under
    [.opencode/worktrees] of the repository. *)
Definition createWorktree (repoRoot branch : jstring) (baseBranch : option jstring)
  : Prog (Result (Result jstring jstring) Error) :=
  let worktreePath := join [repoRoot; js ".opencode"; js "worktrees"; branch] in
  _ <-? call (Mkdir (dirname worktreePath) true) ;;
  exists_ <- branchExists repoRoot branch ;;
  if exists_ : bool then
    result <- git [js "worktree"; js "add"; worktreePath; branch] repoRoot ;;
    Ret (Ok (match result with Ok _ => Ok worktreePath | Err e => Err e end))
  else
    let base := match baseBranch with Some b => b | None => js "HEAD" end in
    result <- git [js "worktree"; js "add"; js "-b"; branch; worktreePath; base]
                  repoRoot ;;
    Ret (Ok (match result with Ok _ => Ok worktreePath | Err e => Err e end)).

Definition removeWorktree (repoRoot worktreePath : jstring)
  : Prog (Result unit jstring) :=
  result <- git [js "worktree"; js "remove"; js "--force"; worktreePath] repoRoot ;;
  Ret (match result with Ok _ => Ok tt | Err e => Err e end).

End SingleRepo.

(** ** Reading traces and results *)

Module Traces.

(** Every value the program can return, whatever the responses,
    satisfies [Q]. *)
Fixpoint allValues {A : Type} (Q : A -> Prop) (p : Prog A) : Prop :=
  match p with
  | Ret a => Q a
  | Vis _ k => forall x, allValues Q (k x)
  end.

(** The paths handed to [stat], in order. *)
Definition statPath (e : Event) : list jstring :=
  match e with
  | Ev op _ => match op with Stat p => [p] | _ => [] end
  end.
Definition statPaths (t : list Event) : list jstring := flat_map statPath t.

(** The processes started, in order: argument vector and directory. *)
Definition spawned (e : Event) : list (list jstring * jstring) :=
  match e with
  | Ev op _ => match op with Spawn argv cwd => [(argv, cwd)] | _ => [] end
  end.
Definition spawns (t : list Event) : list (list jstring * jstring) :=
  flat_map spawned t.

Definition isSpawn (e : Event) : bool :=
  match e with
  | Ev op _ => match op with Spawn _ _ => true | _ => false end
  end.

(** An existence check that answered "yes". *)
Definition foundExisting (e : Event) : bool :=
  match e with
  | Ev op resp =>
      match op in Op X return X -> bool with
      | FileExists _ => fun r => match r with Ok true => true | _ => false end
      | _ => fun _ => false
      end resp
  end.

Definition isReaddirOrExists (e : Event) : bool :=
  match e with
  | Ev op _ =>
      match op with Readdir _ | FileExists _ => true | _ => false end
  end.

(** The path a call reads a directory from: the source of a link, or what
    [stat] is asked about. *)
Definition linkSource (e : Event) : list jstring :=
  match e with
  | Ev op _ => match op with Stat s | Symlink s _ => [s] | _ => [] end
  end.

(** The path a call removes or creates a link at. *)
Definition destination (e : Event) : list jstring :=
  match e with
  | Ev op _ => match op with Rm p _ _ | Symlink _ p => [p] | _ => [] end
  end.

(** A call of [runHooks] in [cwd]. *)
Definition hookCall (cwd : jstring) (e : Event) : Prop :=
  exists command r, e = Ev (Spawn [js "bash"; js "-c"; command] cwd) r.

(** A call of [symlinkDirs] for the entry [dir]. *)
Definition linkCall (sourceDir targetDir dir : jstring) (e : Event) : Prop :=
  let sourcePath := Path.join [sourceDir; dir] in
  let targetPath := Path.join [targetDir; dir] in
  (exists r, e = Ev (Stat sourcePath) r) \/
  (exists r, e = Ev (Mkdir (Path.dirname targetPath) true) r) \/
  (exists r, e = Ev (Rm targetPath true true) r) \/
  (exists r, e = Ev (Symlink sourcePath targetPath) r).

End Traces.

(** ** The calls of the set operations *)

Module SetCalls.
Import Path Traces SetCreation.

(** What [createWorktreeSet] may do for one repository: the two [git]
    commands (the branch and the paths each one argument), the loading of
    the configuration, the file copy, the calls of [symlinkDirs], and, unless
    hooks are switched off, the hooks. *)
Definition repoCall (options : CreateSetOptions) (featurePath repo : jstring)
  (e : Event) : Prop :=
  let mainRepoPath := join [workspaceRoot options; js "main"; repo] in
  let worktreePath := join [featurePath; repo] in
  (exists r, e = Ev (Spawn [js "git"; js "rev-parse"; js "--verify"; branch options]
                       mainRepoPath) r) \/
  (exists r, e = Ev (Spawn [js "git"; js "worktree"; js "add"; worktreePath;
                            branch options] mainRepoPath) r) \/
  (exists base r, e = Ev (Spawn [js "git"; js "worktree"; js "add"; js "-b";
                                 branch options; worktreePath; base]
                            mainRepoPath) r /\
                  base = match baseBranch options with
                         | Some b => b
                         | None => js "HEAD"
                         end) \/
  (exists r, e = Ev (LoadWorktreeConfig mainRepoPath) r) \/
  (exists files r, e = Ev (CopyFiles mainRepoPath worktreePath files) r) \/
  (exists dir, linkCall mainRepoPath worktreePath dir e) \/
  (runHooksFlag options <> Some false /\ hookCall worktreePath e).


(** A well-formed entry of [results] for [repo]. *)
Definition resultFor (featurePath repo : jstring) (r : RepoResult) : Prop :=
  SetCreation.repo r = repo /\
  (success r = true ->
   worktreePath r = Some (join [featurePath; repo]) /\ error r = None) /\
  (success r = false ->
   worktreePath r = None /\ exists e, error r = Some e).

End SetCalls.

(** ** Reading escaped strings back

    Not part of the plugin: the reader that a shell applies to an escaped
    string, used to show that escaping loses nothing. *)

Module Unescape.

(** After a code unit of the class [escapes], the next one is taken as it
    is. *)
Fixpoint unescape (escapes : N -> bool) (s : jstring) : jstring :=
  match s with
  | [] => []
  | c :: rest =>
      if escapes c then
        match rest with
        | d :: rest' => d :: unescape escapes rest'
        | [] => [c]
        end
      else c :: unescape escapes rest
  end.

Definition isBackslash (c : N) : bool := c =? Shell.BACKSLASH.
Definition isPercentOrCaret (c : N) : bool :=
  (c =? Shell.PERCENT) || (c =? Shell.CARET).

(** A newline read as a space. *)
Definition newlineAsSpace (c : N) : N :=
  if c =? Shell.NEWLINE then Shell.SPACE else c.

End Unescape.

(* ===================================================================== *)
(** * Part II: theorems                                                   *)
(* ===================================================================== *)

Section ShellFacts.
Import Shell.

Lemma replaceAll_app c r a b :
  replaceAll c r (a ++ b) = replaceAll c r a ++ replaceAll c r b.
Proof. unfold replaceAll. apply flat_map_app. Qed.

Lemma replaceAll_cons c r x s :
  replaceAll c r (x :: s) = (if x =? c then r else [x]) ++ replaceAll c r s.
Proof. reflexivity. Qed.

End ShellFacts.

Section ShellProofs.
Import Shell.

Ltac split_unit x k :=
  destruct (N.eqb_spec x k) as [->|?]; [vm_compute; reflexivity|].

Ltac other_unit :=
  repeat match goal with
         | H : ?x <> ?k |- _ =>
             apply N.eqb_neq in H; unfold BACKSLASH, DQUOTE, DOLLAR, BACKTICK,
               BANG, NEWLINE, SPACE, PERCENT, CARET, AMP, LT, GT, PIPE in H
         end.

Ltac use_false :=
  repeat (cbn [flat_map app orb];
          match goal with
          | H : (?x =? ?k) = false |- context [?x =? ?k] => rewrite H
          end);
  reflexivity.

Lemma escapeBash_app a b : escapeBash (a ++ b) = escapeBash a ++ escapeBash b.
Proof. unfold escapeBash. now rewrite !replaceAll_app. Qed.

Lemma escapeAppleScript_app a b :
  escapeAppleScript (a ++ b) = escapeAppleScript a ++ escapeAppleScript b.
Proof. unfold escapeAppleScript. now rewrite !replaceAll_app. Qed.

Lemma escapeBatch_app a b : escapeBatch (a ++ b) = escapeBatch a ++ escapeBatch b.
Proof. unfold escapeBatch. now rewrite !replaceAll_app. Qed.

Lemma escapeBash_unit x : escapeBash [x] = bashRule x.
Proof.
  split_unit x BACKSLASH. split_unit x DQUOTE. split_unit x DOLLAR.
  split_unit x BACKTICK. split_unit x BANG. split_unit x NEWLINE.
  other_unit.
  unfold escapeBash, bashRule, replaceAll, BACKSLASH, DQUOTE, DOLLAR, BACKTICK,
    BANG, NEWLINE.
  use_false.
Qed.

Lemma escapeAppleScript_unit x : escapeAppleScript [x] = appleScriptRule x.
Proof.
  split_unit x BACKSLASH. split_unit x DQUOTE. split_unit x DOLLAR.
  other_unit.
  unfold escapeAppleScript, appleScriptRule, replaceAll, BACKSLASH, DQUOTE, DOLLAR.
  use_false.
Qed.

Lemma escapeBatch_unit x : escapeBatch [x] = batchRule x.
Proof.
  split_unit x PERCENT. split_unit x CARET. split_unit x AMP.
  split_unit x LT. split_unit x GT. split_unit x PIPE.
  other_unit.
  unfold escapeBatch, batchRule, replaceAll, PERCENT, CARET, AMP, LT, GT, PIPE.
  use_false.
Qed.

Lemma by_units (f : jstring -> jstring) (rule : N -> jstring) :
  f [] = [] ->
  (forall a b, f (a ++ b) = f a ++ f b) ->
  (forall x, f [x] = rule x) ->
  forall s, f s = flat_map rule s.
Proof.
  intros Hnil Happ Hunit s. induction s as [|x s IH]; [exact Hnil|].
  change (x :: s) with ([x] ++ s). rewrite Happ, Hunit, IH. reflexivity.
Qed.

(** C7. Each escaping function is its documented per-character rule:
    [escapeBash] prefixes backslash, double quote, dollar, backtick and
    exclamation mark with a backslash and turns every newline into a space;
    [escapeAppleScript] prefixes exactly backslash, double quote and dollar;
    [escapeBatch] doubles percent and caret and prefixes ampersand, less-than,
    greater-than and pipe with a caret.  The three functions are distinct:
    on the two-character input backtick, dollar their outputs differ
    pairwise. *)
Theorem escaping_rules :
  (forall s, escapeBash s = flat_map bashRule s) /\
  (forall s, escapeAppleScript s = flat_map appleScriptRule s) /\
  (forall s, escapeBatch s = flat_map batchRule s) /\
  (exists s, escapeBash s <> escapeAppleScript s /\
             escapeBash s <> escapeBatch s /\
             escapeAppleScript s <> escapeBatch s).
Proof.
  split; [|split; [|split]].
  - apply by_units; [reflexivity | apply escapeBash_app | apply escapeBash_unit].
  - apply by_units;
      [reflexivity | apply escapeAppleScript_app | apply escapeAppleScript_unit].
  - apply by_units; [reflexivity | apply escapeBatch_app | apply escapeBatch_unit].
  - exists (js "`$"). vm_compute. repeat split; discriminate.
Qed.

End ShellProofs.

Section GitRefProofs.
Import GitRef.

Lemma failing_check_rejects (c : check) (name : jstring) :
  In c branchNameChecks -> passes c name = false ->
  exists m ms, safeParse name = Err (m :: ms).
Proof.
  intros Hin Hfail.
  assert (Hm : In (message c) (issues name)).
  { unfold issues. apply in_map. apply List.filter_In. split; [exact Hin|].
    now rewrite Hfail. }
  unfold safeParse. destruct (issues name) as [|m ms]; [destruct Hm|].
  now exists m, ms.
Qed.

Lemma testClass_in cls (c : N) (s : jstring) :
  In c s -> cls c = true -> testClass cls s = true.
Proof.
  intros Hin Hc. unfold testClass. apply existsb_exists. now exists c.
Qed.

Lemma listedChar_split c :
  listedChar c = true -> invalidCharClass c = true \/ refOrShellClass c = true.
Proof.
  unfold listedChar, invalidCharClass, refOrShellClass, oneOf.
  cbn [js list_ascii_of_string List.map existsb N_of_ascii N_of_digits].
  repeat rewrite ?orb_true_iff, ?orb_false_r. intuition.
Qed.

Ltac nth_check n :=
  eapply (failing_check_rejects (nth n branchNameChecks
            {| passes := fun _ => true; message := [] |}));
  [cbn [nth branchNameChecks]; unfold branchNameChecks; simpl; tauto
  | cbn [nth branchNameChecks passes] ].

(** C2. The branch validator rejects every name that contains one of the
    characters [~ ^ : ? * [ ] \], a space, a control character (0x00-0x1f,
    0x7f) or one of the shell metacharacters [; & | ` $ ( )]; it also rejects
    the empty name, names longer than 255, a leading [-], a leading or
    trailing [/], [//], [@{], [..], a leading or trailing [.] and a trailing
    [.lock]. *)
Theorem branchNameSchema_rejects (name : jstring) :
  (exists c, In c name /\ listedChar c = true) \/
  name = [] \/
  (255 < length name)%nat \/
  startsWith name (js "-") = true \/
  startsWith name (js "/") = true \/
  endsWith name (js "/") = true \/
  includes name (js "//") = true \/
  includes name (js "@{") = true \/
  includes name (js "..") = true \/
  startsWith name (js ".") = true \/
  endsWith name (js ".") = true \/
  endsWith name (js ".lock") = true ->
  exists m ms, safeParse name = Err (m :: ms).
Proof.
  intros [(c & Hin & Hc)|[->|[Hlen|[H|[H|[H|[H|[H|[H|[H|[H|H]]]]]]]]]]].
  - destruct (listedChar_split c Hc) as [Hi|Hr].
    + nth_check 7%nat. now rewrite (testClass_in _ c name Hin Hi).
    + nth_check 8%nat. unfold isValidBranchName.
      rewrite (testClass_in _ c name Hin Hr). now destruct (existsb _ _).
  - nth_check 0%nat. reflexivity.
  - nth_check 1%nat. apply Nat.leb_gt. exact Hlen.
  - nth_check 2%nat. now rewrite H.
  - nth_check 3%nat. now rewrite H.
  - nth_check 3%nat. rewrite H. now rewrite andb_false_r.
  - nth_check 4%nat. now rewrite H.
  - nth_check 5%nat. now rewrite H.
  - nth_check 6%nat. now rewrite H.
  - nth_check 9%nat. now rewrite H.
  - nth_check 9%nat. rewrite H. now rewrite andb_false_r.
  - nth_check 10%nat. now rewrite H.
Qed.

Lemma branchNameSchema_rejects_witness :
  exists m ms, safeParse (js "feat;rm -rf") = Err (m :: ms).
Proof.
  apply branchNameSchema_rejects. left. exists 59. split.
  - vm_compute. tauto.
  - vm_compute. reflexivity.
Defined.

End GitRefProofs.


Section StrFacts.

Lemma streq_eq (a b : jstring) : streq a b = true <-> a = b.
Proof.
  revert b. induction a as [|x a IH]; intros [|y b]; simpl; try easy.
  rewrite andb_true_iff, N.eqb_eq, IH. split.
  - now intros [-> ->].
  - intros H. injection H. auto.
Qed.

Lemma streq_neq (a b : jstring) : streq a b = false <-> a <> b.
Proof.
  rewrite <- streq_eq. destruct (streq a b); split; congruence.
Qed.

End StrFacts.

Section StringFacts.

Lemma startsWith_app (a b : jstring) : startsWith (a ++ b) a = true.
Proof.
  induction a as [|c a IH]; [destruct b; reflexivity|].
  cbn [app startsWith]. now rewrite N.eqb_refl.
Qed.

Lemma startsWith_spec (p : jstring) : forall s,
  startsWith s p = true <-> exists t, s = p ++ t.
Proof.
  induction p as [|c p IH]; intros s.
  - split; [intros _; now exists s|intros _; destruct s; reflexivity].
  - destruct s as [|d s]; cbn [startsWith].
    + split; [discriminate|]. intros [t Ht]. discriminate.
    + rewrite andb_true_iff, N.eqb_eq, IH. split.
      * intros [-> [t ->]]. now exists t.
      * intros [t Ht]. injection Ht as -> ->. split; [reflexivity|now exists t].
Qed.

Lemma includes_spec (p s : jstring) :
  includes s p = true <-> exists a b, s = a ++ p ++ b.
Proof.
  split.
  - induction s as [|c s IH]; cbn [includes]; rewrite orb_true_iff.
    + intros [H|H]; [|discriminate].
      apply startsWith_spec in H as [t Ht]. now exists [], t.
    + intros [H|H].
      * apply startsWith_spec in H as [t Ht]. now exists [], t.
      * destruct (IH H) as (a & b & ->). now exists (c :: a), b.
  - intros (a & b & ->). induction a as [|c a IH].
    + cbn [app]. destruct (p ++ b) eqn:E; cbn [includes]; rewrite <- E;
        now rewrite startsWith_app.
    + cbn [app includes]. rewrite IH. apply orb_true_r.
Qed.

Lemma includes_app_false (a b p : jstring) :
  includes (a ++ b) p = false -> includes a p = false /\ includes b p = false.
Proof.
  intros H. split.
  - destruct (includes a p) eqn:E; [|reflexivity].
    apply includes_spec in E as (x & y & ->).
    rewrite <- H. symmetry. apply includes_spec.
    exists x, (y ++ b). now rewrite <- !app_assoc.
  - destruct (includes b p) eqn:E; [|reflexivity].
    apply includes_spec in E as (x & y & ->).
    rewrite <- H. symmetry. apply includes_spec.
    exists (a ++ x), y. now rewrite <- !app_assoc.
Qed.

Lemma endsWith_last (pre : jstring) (x y : N) :
  endsWith (pre ++ [x]) [y] = (x =? y).
Proof.
  unfold endsWith. rewrite List.length_app. cbn [length].
  replace (length pre + 1 - 1)%nat with (length pre) by lia.
  rewrite List.skipn_app, List.skipn_all, Nat.sub_diag. cbn [app skipn streq].
  rewrite andb_true_r.
  replace (1 <=? length pre + 1)%nat with true by (symmetry; apply Nat.leb_le; lia).
  reflexivity.
Qed.

Lemma endsWith_unit (s : jstring) (y : N) :
  endsWith s [y] = true <-> exists pre, s = pre ++ [y].
Proof.
  split.
  - destruct s as [|c s' _] using rev_ind; [discriminate|].
    rewrite endsWith_last. intros H. apply N.eqb_eq in H. subst. now exists s'.
  - intros [pre ->]. rewrite endsWith_last. apply N.eqb_refl.
Qed.

End StringFacts.

Section SegmentFacts.
Import Path Segments.

Lemma no_slash_spec (seg : jstring) :
  existsb (N.eqb SLASH) seg = false <-> ~ In SLASH seg.
Proof.
  split.
  - intros H Hin. assert (existsb (N.eqb SLASH) seg = true); [|congruence].
    apply existsb_exists. exists SLASH. split; [exact Hin|apply N.eqb_refl].
  - intros H. destruct (existsb (N.eqb SLASH) seg) eqn:E; [|reflexivity].
    apply existsb_exists in E as (x & Hin & Hx). apply N.eqb_eq in Hx. now subst.
Qed.

Lemma plain_spec (seg : jstring) :
  plain seg = true <->
  seg <> [] /\ ~ In SLASH seg /\ seg <> js "." /\ seg <> js "..".
Proof.
  unfold plain. rewrite !andb_true_iff, !negb_true_iff, no_slash_spec.
  rewrite !streq_neq. tauto.
Qed.

Lemma dotsOf_snoc (seg : jstring) (c : N) :
  dotsOf (seg ++ [c])
  = match dotsOf seg with
    | Some d => if c =? DOT then Some (S d) else None
    | None => None
    end.
Proof.
  unfold dotsOf. rewrite forallb_app, List.length_app. cbn [forallb length].
  rewrite (N.eqb_sym DOT c).
  destruct (forallb (N.eqb DOT) seg); cbn [andb]; [|reflexivity].
  destruct (c =? DOT); cbn [andb]; [|reflexivity].
  f_equal. lia.
Qed.

Lemma dotsOf_one (seg : jstring) : dotsOf seg = Some 1%nat <-> seg = js ".".
Proof.
  split.
  - unfold dotsOf. destruct (forallb (N.eqb DOT) seg) eqn:E; [|discriminate].
    intros H. injection H as H.
    destruct seg as [|c [|d seg]]; try discriminate.
    cbn [forallb] in E. rewrite andb_true_r in E. apply N.eqb_eq in E.
    subst. reflexivity.
  - intros ->. reflexivity.
Qed.

Lemma dotsOf_two (seg : jstring) : dotsOf seg = Some 2%nat <-> seg = js "..".
Proof.
  split.
  - unfold dotsOf. destruct (forallb (N.eqb DOT) seg) eqn:E; [|discriminate].
    intros H. injection H as H.
    destruct seg as [|c [|d [|e seg]]]; try discriminate.
    cbn [forallb] in E. rewrite andb_true_r in E.
    apply andb_true_iff in E as [E1 E2].
    apply N.eqb_eq in E1, E2. subst. reflexivity.
  - intros ->. reflexivity.
Qed.

Lemma render_cons (seg : jstring) (older : list jstring) :
  older <> [] -> render (seg :: older) = render older ++ SLASH :: seg.
Proof. destruct older; [congruence|reflexivity]. Qed.

Lemma render_nonempty (stack : list jstring) :
  forallb plain stack = true -> stack <> [] -> render stack <> [].
Proof.
  destruct stack as [|seg older]; [congruence|]. intros H _.
  cbn [forallb] in H. apply andb_true_iff in H as [Hseg _].
  apply plain_spec in Hseg as (Hne & _).
  cbn [render]. destruct older; [exact Hne|].
  intros E. apply app_eq_nil in E as [_ E]. discriminate.
Qed.

Lemma beforeLastSlash_none (seg : jstring) :
  ~ In SLASH seg -> beforeLastSlash seg = None.
Proof.
  induction seg as [|c seg IH]; intros H; [reflexivity|].
  cbn [beforeLastSlash]. rewrite IH by (intros Hin; apply H; now right).
  destruct (N.eqb_spec c SLASH) as [->|_]; [|reflexivity].
  exfalso. apply H. now left.
Qed.

Lemma beforeLastSlash_app (a seg : jstring) :
  ~ In SLASH seg -> beforeLastSlash (a ++ SLASH :: seg) = Some a.
Proof.
  intros H. induction a as [|c a IH].
  - cbn [app beforeLastSlash]. rewrite beforeLastSlash_none by exact H.
    now rewrite N.eqb_refl.
  - cbn [app beforeLastSlash]. now rewrite IH.
Qed.

Lemma afterLastSlashLength_none (seg : jstring) :
  ~ In SLASH seg -> afterLastSlashLength seg = length seg.
Proof.
  destruct seg as [|c seg]; intros H; [reflexivity|].
  cbn [afterLastSlashLength].
  rewrite beforeLastSlash_none by (intros Hin; apply H; now right).
  destruct (N.eqb_spec c SLASH) as [->|_]; [|reflexivity].
  exfalso. apply H. now left.
Qed.

Lemma afterLastSlashLength_app (a seg : jstring) :
  ~ In SLASH seg -> afterLastSlashLength (a ++ SLASH :: seg) = length seg.
Proof.
  intros H. induction a as [|c a IH].
  - cbn [app afterLastSlashLength]. rewrite beforeLastSlash_none by exact H.
    now rewrite N.eqb_refl.
  - cbn [app afterLastSlashLength]. now rewrite beforeLastSlash_app.
Qed.

Lemma afterLastSlashLength_render (stack : list jstring) :
  forallb plain stack = true ->
  afterLastSlashLength (render stack) = length (hd [] stack).
Proof.
  destruct stack as [|seg older]; [reflexivity|]. intros H.
  cbn [forallb] in H. apply andb_true_iff in H as [Hseg _].
  apply plain_spec in Hseg as (_ & Hno & _).
  cbn [render hd]. destruct older.
  - now apply afterLastSlashLength_none.
  - now apply afterLastSlashLength_app.
Qed.

Lemma endsWithDotDot_top (seg : jstring) (older : list jstring) :
  length seg = 2%nat -> endsWithDotDot (render (seg :: older)) = true ->
  seg = js "..".
Proof.
  intros Hlen. destruct seg as [|x [|y [|z seg]]]; try discriminate.
  assert (E : exists a, render ([x; y] :: older) = a ++ [x; y]).
  { cbn [render]. destruct older; [now exists []|].
    eexists (_ ++ [SLASH]). now rewrite <- app_assoc. }
  destruct E as [a ->]. unfold endsWithDotDot.
  rewrite rev_app_distr. cbn [rev app].
  rewrite andb_true_iff, !N.eqb_eq. now intros [-> ->].
Qed.

Lemma Inv_next (stack : list jstring) :
  forallb plain stack = true ->
  Inv (nextSegment (render stack) (length (hd [] stack))) stack [].
Proof. intros H. repeat split; auto. Qed.

Lemma length_render_pos (stack : list jstring) :
  forallb plain stack = true ->
  (0 <? length (render stack))%nat = negb (match stack with [] => true | _ => false end).
Proof.
  intros H. destruct stack as [|seg older]; [reflexivity|].
  pose proof (render_nonempty (seg :: older) H) as Hne.
  destruct (render (seg :: older)); [now exfalso; apply Hne|reflexivity].
Qed.

Lemma keep_segment (stack : list jstring) (seg : jstring) :
  seg <> [] -> ~ In SLASH seg ->
  dotsOf seg <> Some 1%nat -> dotsOf seg <> Some 2%nat ->
  close stack seg = seg :: stack /\ plain seg = true.
Proof.
  intros Hne Hno H1 H2.
  assert (Hd1 : seg <> js ".") by (intros E; now apply dotsOf_one in E).
  assert (Hd2 : seg <> js "..") by (intros E; now apply dotsOf_two in E).
  split; [|now apply plain_spec].
  unfold close. apply streq_neq in Hne, Hd1, Hd2. now rewrite Hne, Hd1, Hd2.
Qed.

Lemma step_sep (st : nstate) (stack : list jstring) (seg : jstring) :
  Inv st stack seg -> Inv (atSeparator false st) (close stack seg) [].
Proof.
  intros (Hres & Hplain & Hlast & Hseg & Hdots & Hno).
  unfold atSeparator. rewrite Hseg, Hdots, Hres, Hlast.
  destruct seg as [|c seg'].
  { cbn [close streq orb]. now apply Inv_next. }
  assert (Hne : streq (c :: seg') [] = false) by reflexivity.
  remember (c :: seg') as seg eqn:Eseg.
  destruct (dotsOf seg) as [[|[|[|n]]]|] eqn:Hd.
  - (* no dot counted for a non-empty segment *)
    subst seg. unfold dotsOf in Hd.
    destruct (forallb (N.eqb DOT) (c :: seg')); discriminate.
  - apply dotsOf_one in Hd. rewrite Hd.
    change (close stack (js ".")) with stack.
    now apply Inv_next.
  - apply dotsOf_two in Hd. rewrite Hd.
    change (close stack (js "..")) with (tl stack).
    destruct stack as [|top older].
    + cbn. now apply (Inv_next []).
    + cbn [tl hd].
      assert (Hp : forallb plain older = true).
      { cbn [forallb] in Hplain. now apply andb_true_iff in Hplain as [_ ?]. }
      assert (Htop : plain top = true).
      { cbn [forallb] in Hplain. now apply andb_true_iff in Hplain as [? _]. }
      apply plain_spec in Htop as (Htne & Htno & _ & Htdd).
      assert (Hcond : (length (render (top :: older)) <? 2)%nat
                      || negb (length top =? 2)%nat
                      || negb (endsWithDotDot (render (top :: older))) = true).
      { destruct (length top =? 2)%nat eqn:El; [|now rewrite orb_true_r].
        apply Nat.eqb_eq in El.
        destruct (endsWithDotDot (render (top :: older))) eqn:Ed;
          [|now rewrite orb_true_r].
        exfalso. apply Htdd. eapply endsWithDotDot_top; eauto. }
      rewrite Hcond.
      destruct older as [|next older'].
      * cbn [render].
        rewrite beforeLastSlash_none by exact Htno.
        destruct (2 <? length top)%nat; [now apply (Inv_next [])|].
        destruct top; [congruence|]. cbn. now apply (Inv_next []).
      * rewrite render_cons by discriminate.
        rewrite beforeLastSlash_app by exact Htno.
        rewrite (afterLastSlashLength_render (next :: older')) by exact Hp.
        assert (Hlen : (2 <? length (render (next :: older') ++ SLASH :: top))%nat = true).
        { apply Nat.ltb_lt. rewrite List.length_app. cbn [length].
          pose proof (render_nonempty (next :: older') Hp ltac:(discriminate)).
          destruct (render (next :: older')); [congruence|].
          destruct top; [congruence|]. cbn [length]. lia. }
        rewrite Hlen. now apply Inv_next.
  - (* three dots or more: an ordinary segment *)
    destruct (keep_segment stack seg) as [Hkeep Hps];
      [subst seg; discriminate|exact Hno|congruence|congruence|].
    rewrite Hkeep, length_render_pos by exact Hplain.
    destruct stack as [|top older]; cbn [negb].
    + repeat split; auto. cbn [forallb]. now rewrite Hps.
    + repeat split; auto. cbn [forallb] in *. now rewrite Hps.
  - destruct (keep_segment stack seg) as [Hkeep Hps];
      [subst seg; discriminate|exact Hno|congruence|congruence|].
    rewrite Hkeep, length_render_pos by exact Hplain.
    destruct stack as [|top older]; cbn [negb].
    + repeat split; auto. cbn [forallb]. now rewrite Hps.
    + repeat split; auto. cbn [forallb] in *. now rewrite Hps.
Qed.

Lemma step_char (st : nstate) (stack : list jstring) (seg : jstring) (c : N) :
  Inv st stack seg -> c <> SLASH -> Inv (atCodeUnit false st c) stack (seg ++ [c]).
Proof.
  intros (Hres & Hplain & Hlast & Hseg & Hdots & Hno) Hc.
  unfold atCodeUnit. apply N.eqb_neq in Hc. rewrite Hc.
  repeat split; cbn [res lastSegmentLength segment dots]; auto.
  - now rewrite Hseg.
  - rewrite Hdots. symmetry. apply dotsOf_snoc.
  - intros Hin. apply in_app_or in Hin as [Hin|[E|[]]]; [now apply Hno|].
    rewrite E, N.eqb_refl in Hc. discriminate.
Qed.

Lemma scan_inv (path : jstring) : forall st stack seg,
  Inv st stack seg ->
  Inv (fold_left (atCodeUnit false) path st)
      (fst (scan path stack seg)) (snd (scan path stack seg)).
Proof.
  induction path as [|c path IH]; intros st stack seg H; [exact H|].
  cbn [fold_left scan]. destruct (N.eqb_spec c SLASH) as [->|Hc].
  - apply IH. change (atCodeUnit false st SLASH) with (atSeparator false st).
    now apply step_sep.
  - apply IH. now apply step_char.
Qed.

Lemma scan_app (a b : jstring) : forall stack seg,
  scan (a ++ b) stack seg
  = scan b (fst (scan a stack seg)) (snd (scan a stack seg)).
Proof.
  induction a as [|c a IH]; intros stack seg; [reflexivity|].
  cbn [app scan]. destruct (c =? SLASH); apply IH.
Qed.

Lemma scan_segment_chars (seg' : jstring) : forall stack seg,
  ~ In SLASH seg' -> scan seg' stack seg = (stack, seg ++ seg').
Proof.
  induction seg' as [|c seg' IH]; intros stack seg H.
  - cbn. now rewrite app_nil_r.
  - cbn [scan]. destruct (N.eqb_spec c SLASH) as [->|_].
    + exfalso. apply H. now left.
    + rewrite IH by (intros Hin; apply H; now right).
      now rewrite <- app_assoc.
Qed.

Lemma segmentsOf_sep (path : jstring) :
  segmentsOf (path ++ sep) = segmentsOf path.
Proof.
  unfold segmentsOf. rewrite scan_app.
  destruct (scan path [] []) as [stack seg]. reflexivity.
Qed.

(** [normalizeString], when it may not climb above the root, joins the kept
    segments of the path. *)
Lemma normalizeString_segments (path : jstring) :
  normalizeString path false = render (segmentsOf path) /\
  forallb plain (segmentsOf path) = true.
Proof.
  pose proof (scan_inv path (nextSegment [] 0) [] [] (Inv_next [] eq_refl)) as H.
  unfold normalizeString, segmentsOf.
  destruct (endsWith path sep) eqn:E.
  - apply endsWith_unit in E as [pre ->].
    rewrite scan_app in H |- *.
    destruct (scan pre [] []) as [stack0 seg0].
    cbn [fst snd scan] in H |- *. change (SLASH =? SLASH) with true in H |- *.
    cbv iota in H |- *. cbn [fst snd] in H.
    destruct H as (Hres & Hplain & _). cbn [close streq orb]. now split.
  - destruct (scan path [] []) as [stack seg]. cbn [fst snd] in H.
    apply step_sep in H. destruct H as (Hres & Hplain & _). now split.
Qed.

Lemma scan_render (stack : list jstring) :
  forallb plain stack = true ->
  scan (render stack ++ sep) [] [] = (stack, []).
Proof.
  induction stack as [|seg older IH]; intros H; [reflexivity|].
  cbn [forallb] in H. apply andb_true_iff in H as [Hseg Holder].
  pose proof Hseg as Hp. apply plain_spec in Hp as (Hne & Hno & Hd1 & Hd2).
  assert (Hclose : forall st, close st seg = seg :: st).
  { intros st. unfold close. apply streq_neq in Hne, Hd1, Hd2.
    now rewrite Hne, Hd1, Hd2. }
  destruct older as [|next older'].
  - cbn [render]. rewrite scan_app, (scan_segment_chars seg) by exact Hno.
    cbn [fst snd sep scan app]. rewrite N.eqb_refl. now rewrite Hclose.
  - rewrite render_cons by discriminate.
    replace ((render (next :: older') ++ SLASH :: seg) ++ sep)
      with ((render (next :: older') ++ sep) ++ seg ++ sep)
      by (unfold sep; now rewrite <- !app_assoc).
    rewrite scan_app, IH by exact Holder. cbn [fst snd].
    rewrite scan_app, (scan_segment_chars seg) by exact Hno.
    cbn [fst snd sep scan app]. rewrite N.eqb_refl. now rewrite Hclose.
Qed.

(** Without [".."] nothing is dropped: the segments kept before stay. *)
Lemma scan_no_dotdot (path : jstring) : forall stack seg,
  includes (seg ++ path) (js "..") = false ->
  exists extra,
    close (fst (scan path stack seg)) (snd (scan path stack seg)) = extra ++ stack.
Proof.
  assert (Hclose : forall stack seg,
             includes seg (js "..") = false ->
             exists extra, close stack seg = extra ++ stack).
  { intros stack seg H. unfold close.
    destruct (streq seg [] || streq seg (js ".")); [now exists []|].
    destruct (streq seg (js "..")) eqn:E; [|now exists [seg]].
    apply streq_eq in E. subst seg. discriminate. }
  induction path as [|c path IH]; intros stack seg H.
  - rewrite app_nil_r in H. cbn [scan fst snd]. now apply Hclose.
  - cbn [scan]. destruct (N.eqb_spec c SLASH) as [->|Hc].
    + apply includes_app_false in H as [Hseg Hrest].
      change (SLASH :: path) with ([SLASH] ++ path) in Hrest.
      apply includes_app_false in Hrest as [_ Hpath].
      destruct (Hclose stack seg Hseg) as [e0 He0].
      destruct (IH (close stack seg) [] Hpath) as [extra He].
      exists (extra ++ e0). now rewrite He, He0, app_assoc.
    + apply IH. now rewrite <- app_assoc.
Qed.

Lemma render_app (extra stack : list jstring) :
  stack <> [] ->
  exists rest,
    render (extra ++ stack) = render stack ++ rest /\
    (rest = [] \/ exists rest', rest = SLASH :: rest').
Proof.
  intros Hne. induction extra as [|seg extra IH].
  - exists []. split; [now rewrite app_nil_r|now left].
  - destruct IH as (rest & Hr & Hrest).
    cbn [app]. rewrite render_cons by (destruct extra; [exact Hne|discriminate]).
    rewrite Hr, <- app_assoc. eexists. split; [reflexivity|].
    right. destruct Hrest as [->|[rest' ->]]; cbn [app]; eauto.
Qed.

Lemma scan_after_sep (path : jstring) (stack : list jstring) (seg : jstring) :
  snd (scan (path ++ sep) stack seg) = [].
Proof.
  rewrite scan_app. destruct (scan path stack seg) as [s0 g0].
  cbn [fst snd sep scan]. now rewrite N.eqb_refl.
Qed.

(** The segments of an absolute path in normal form. *)
Lemma segmentsOf_render (stack : list jstring) :
  forallb plain stack = true ->
  scan (SLASH :: render stack ++ sep) [] [] = (stack, []).
Proof.
  intros H. cbn [scan]. rewrite N.eqb_refl. cbn [close streq orb].
  now apply scan_render.
Qed.

Lemma segmentsOf_below (stack : list jstring) (tail : jstring) :
  forallb plain stack = true ->
  includes tail (js "..") = false ->
  tail = [] \/ (exists d, tail = SLASH :: d) ->
  exists extra, segmentsOf (SLASH :: render stack ++ tail) = extra ++ stack.
Proof.
  intros Hp Hinc [->|[d ->]].
  - exists []. rewrite app_nil_r, <- segmentsOf_sep. unfold segmentsOf.
    change ((SLASH :: render stack) ++ sep) with (SLASH :: render stack ++ sep).
    now rewrite segmentsOf_render.
  - change (SLASH :: d) with ([SLASH] ++ d) in Hinc.
    apply includes_app_false in Hinc as [_ Hd].
    unfold segmentsOf.
    replace (SLASH :: render stack ++ SLASH :: d)
      with ((SLASH :: render stack ++ sep) ++ d)
      by (unfold sep; cbn [app]; now rewrite <- app_assoc).
    rewrite scan_app, segmentsOf_render by exact Hp. cbn [fst snd].
    destruct (scan_no_dotdot d stack [] Hd) as [extra He].
    exists extra. destruct (scan d stack []). exact He.
Qed.

(** [path.normalize] of an absolute path. *)
Lemma normalize_segments (tail : jstring) :
  let path := SLASH :: tail in
  normalize path
  = match segmentsOf path with
    | [] => js "/"
    | stack => SLASH :: render stack ++ (if endsWith path sep then sep else [])
    end.
Proof.
  cbv zeta. unfold normalize.
  change (isAbsolute (SLASH :: tail)) with true. cbn [negb].
  destruct (normalizeString_segments (SLASH :: tail)) as [-> Hp].
  destruct (segmentsOf (SLASH :: tail)) as [|seg older] eqn:E; [reflexivity|].
  pose proof (render_nonempty (seg :: older) Hp ltac:(discriminate)) as Hne.
  destruct (render (seg :: older)) eqn:Er; [congruence|].
  destruct (endsWith (SLASH :: tail) sep); [reflexivity|now rewrite app_nil_r].
Qed.

Lemma normalize_below (stack : list jstring) (tail : jstring) :
  forallb plain stack = true -> stack <> [] ->
  includes tail (js "..") = false ->
  tail = [] \/ (exists d, tail = SLASH :: d) ->
  atOrBelow (SLASH :: render stack) (normalize (SLASH :: render stack ++ tail)).
Proof.
  intros Hp Hne Hinc Htail.
  destruct (segmentsOf_below stack tail Hp Hinc Htail) as [extra He].
  rewrite normalize_segments, He.
  destruct (render_app extra stack Hne) as (rest & Hr & Hrest).
  destruct (extra ++ stack) as [|seg older] eqn:E.
  { destruct extra; [cbn [app] in E; congruence|discriminate]. }
  rewrite Hr. unfold atOrBelow.
  exists (rest ++ (if endsWith (SLASH :: render stack ++ tail) sep then sep else [])).
  split; [cbn [app]; now rewrite <- app_assoc|].
  destruct Hrest as [->|[rest' ->]].
  - cbn [app]. destruct (endsWith _ sep); [right; now exists []|now left].
  - right. eexists. reflexivity.
Qed.

Lemma joinArgs_pair (a b : jstring) :
  a <> [] ->
  joinArgs [a; b] = match b with [] => a | _ => a ++ SLASH :: b end.
Proof.
  intros Ha. unfold joinArgs. cbn [fold_left].
  destruct a as [|x a']; [congruence|]. destruct b; reflexivity.
Qed.

(** Joining a relative path without [".."] to an absolute directory in
    normal form stays at or below the directory. *)
Lemma join_below (stack : list jstring) (dir : jstring) :
  forallb plain stack = true -> stack <> [] ->
  includes dir (js "..") = false ->
  atOrBelow (SLASH :: render stack) (join [SLASH :: render stack; dir]).
Proof.
  intros Hp Hne Hinc. unfold join.
  rewrite joinArgs_pair by discriminate.
  destruct dir as [|c dir'].
  - pose proof (normalize_below stack [] Hp Hne eq_refl (or_introl eq_refl)) as H.
    rewrite app_nil_r in H. exact H.
  - set (dir := c :: dir') in *.
    assert (Hinc' : includes (SLASH :: dir) (js "..") = false).
    { destruct (includes (SLASH :: dir) (js "..")) eqn:E; [|reflexivity].
      apply includes_spec in E as (a & b & E).
      destruct a as [|x a'].
      - cbn in E. discriminate.
      - cbn [app] in E. injection E as _ E.
        rewrite <- Hinc. symmetry. apply includes_spec. now exists a', b. }
    pose proof (normalize_below stack (SLASH :: dir) Hp Hne Hinc'
                  (or_intror (ex_intro _ dir eq_refl))) as H.
    exact H.
Qed.

(** Joining a plain name to an absolute directory in normal form appends
    it as one more segment. *)
Lemma no_trailing_slash (pre seg : jstring) :
  seg <> [] -> ~ In SLASH seg -> endsWith (pre ++ seg) sep = false.
Proof.
  intros Hne Hno. destruct (exists_last Hne) as (seg' & x & ->).
  rewrite app_assoc. unfold sep. rewrite endsWith_last.
  apply N.eqb_neq. intros ->. apply Hno. apply in_or_app. right. now left.
Qed.

Lemma normalize_plain (stack : list jstring) (name : jstring) :
  forallb plain stack = true -> plain name = true ->
  normalize (SLASH :: render stack ++ SLASH :: name)
  = SLASH :: render (name :: stack) /\
  segmentsOf (SLASH :: render stack ++ SLASH :: name) = name :: stack.
Proof.
  intros Hp Hname. pose proof Hname as Hn.
  apply plain_spec in Hn as (Hnn & Hno & Hd1 & Hd2).
  assert (Hseg : segmentsOf (SLASH :: render stack ++ SLASH :: name) = name :: stack).
  { unfold segmentsOf.
    replace (SLASH :: render stack ++ SLASH :: name)
      with ((SLASH :: render stack ++ sep) ++ name)
      by (unfold sep; cbn [app]; now rewrite <- app_assoc).
    rewrite scan_app, segmentsOf_render by exact Hp. cbn [fst snd].
    rewrite scan_segment_chars by exact Hno. cbn [app].
    unfold close. apply streq_neq in Hnn, Hd1, Hd2. now rewrite Hnn, Hd1, Hd2. }
  split; [|exact Hseg].
  rewrite normalize_segments, Hseg.
  replace (SLASH :: render stack ++ SLASH :: name)
    with ((SLASH :: render stack ++ [SLASH]) ++ name)
    by (cbn [app]; now rewrite <- app_assoc).
  rewrite no_trailing_slash by assumption. now rewrite app_nil_r.
Qed.

(** Joining a plain name to an absolute directory in normal form appends
    it as one more segment. *)
Lemma join_plain (stack : list jstring) (name : jstring) :
  forallb plain stack = true -> plain name = true ->
  join [SLASH :: render stack; name] = SLASH :: render (name :: stack).
Proof.
  intros Hp Hname.
  destruct (normalize_plain stack name Hp Hname) as [Hnorm _].
  unfold join. rewrite joinArgs_pair by discriminate.
  destruct name as [|c name']; [discriminate|]. exact Hnorm.
Qed.

End SegmentFacts.

Section PathFacts.
Import Path.

Lemma isAbsolute_cons (p : jstring) :
  isAbsolute p = true -> exists rest, p = SLASH :: rest.
Proof.
  destruct p as [|c rest]; [discriminate|]. cbn. intros H.
  apply N.eqb_eq in H. subst c. now exists rest.
Qed.

Lemma resolveLoop_absolute (cwd : jstring) :
  isAbsolute cwd = true ->
  forall rargs acc, snd (resolveLoop (rargs ++ [cwd]) acc) = true.
Proof.
  intros Hcwd. apply isAbsolute_cons in Hcwd as [rest ->].
  induction rargs as [|path rargs IH]; intros acc.
  - reflexivity.
  - cbn [app resolveLoop]. destruct path as [|c path']; [apply IH|].
    destruct (c =? SLASH); [reflexivity|apply IH].
Qed.

Lemma resolve_absolute (cwd : jstring) (args : list jstring) :
  isAbsolute cwd = true -> isAbsolute (resolve cwd args) = true.
Proof.
  intros Hcwd. unfold resolve.
  pose proof (resolveLoop_absolute cwd Hcwd (rev args) []) as H.
  destruct (resolveLoop (rev args ++ [cwd]) []) as [resolvedPath resolvedAbsolute].
  cbn in H. subst resolvedAbsolute. reflexivity.
Qed.

End PathFacts.

Section ResolveFacts.
Import Path Segments Sync.

Lemma resolve_base (cwd base : jstring) :
  isAbsolute base = true ->
  resolve cwd [base] = SLASH :: render (segmentsOf base).
Proof.
  intros Hb. destruct (isAbsolute_cons base Hb) as [t ->].
  unfold resolve. cbn [rev app resolveLoop]. rewrite N.eqb_refl. cbn [negb].
  rewrite (proj1 (normalizeString_segments _)).
  change (SLASH :: t ++ [SLASH]) with ((SLASH :: t) ++ sep).
  now rewrite segmentsOf_sep.
Qed.

Lemma resolve_pair (cwd base p : jstring) :
  isAbsolute base = true -> isAbsolute p = false ->
  resolve cwd [base; p]
  = SLASH :: render (segmentsOf (match p with
                                 | [] => base
                                 | _ => base ++ SLASH :: p
                                 end)).
Proof.
  intros Hb Hp. destruct (isAbsolute_cons base Hb) as [t ->].
  unfold resolve. cbn [rev app resolveLoop].
  destruct p as [|d p'].
  - rewrite N.eqb_refl. cbn [negb].
    rewrite (proj1 (normalizeString_segments _)).
    change (SLASH :: t ++ [SLASH]) with ((SLASH :: t) ++ sep).
    now rewrite segmentsOf_sep.
  - cbn [isAbsolute] in Hp. rewrite Hp, N.eqb_refl. cbn [negb].
    rewrite (proj1 (normalizeString_segments _)). cbn [app].
    replace (SLASH :: t ++ SLASH :: d :: p' ++ [SLASH])
      with (((SLASH :: t) ++ SLASH :: d :: p') ++ sep)
      by (unfold sep; cbn [app]; now rewrite <- app_assoc).
    now rewrite segmentsOf_sep.
Qed.

(** An absolute path in resolved form, other than the root, is a
    separator followed by its segments. *)
Lemma resolved_segments (cwd base : jstring) :
  isAbsolute cwd = true -> resolve cwd [base] = base -> base <> js "/" ->
  exists stack,
    base = SLASH :: render stack /\ forallb plain stack = true /\ stack <> [] /\
    isAbsolute base = true.
Proof.
  intros Hcwd Hres Hroot.
  assert (Hb : isAbsolute base = true)
    by (rewrite <- Hres; now apply resolve_absolute).
  rewrite (resolve_base cwd base Hb) in Hres.
  exists (segmentsOf base). split; [now symmetry|].
  destruct (isAbsolute_cons base Hb) as [t Ht].
  split; [apply normalizeString_segments|]. split; [|exact Hb].
  intros E. rewrite E in Hres. apply Hroot. now symmetry.
Qed.

Variable cwd : jstring.

(** Under a base in resolved form the containment test of [isPathSafe]
    never fires: what a relative path without [".."] resolves to is the base
    or lies below it. *)
Lemma resolve_below (base p : jstring) :
  isAbsolute cwd = true -> resolve cwd [base] = base -> base <> js "/" ->
  isAbsolute p = false -> includes p (js "..") = false ->
  atOrBelow base (resolve cwd [base; p]).
Proof.
  intros Hcwd Hres Hroot Hp Hinc.
  destruct (resolved_segments cwd base Hcwd Hres Hroot) as (stack & -> & Hpl & Hne & Hb).
  rewrite (resolve_pair cwd _ p Hb Hp).
  assert (Htail : exists tail,
             match p with
             | [] => SLASH :: render stack
             | _ => (SLASH :: render stack) ++ SLASH :: p
             end = SLASH :: render stack ++ tail /\
             includes tail (js "..") = false /\
             (tail = [] \/ exists d, tail = SLASH :: d)).
  { destruct p as [|d p'].
    - exists []. rewrite app_nil_r. repeat split; auto.
    - exists (SLASH :: d :: p'). split; [reflexivity|]. split; [|right; eauto].
      destruct (includes (SLASH :: d :: p') (js "..")) eqn:E; [|reflexivity].
      apply includes_spec in E as (a & b & E).
      destruct a as [|x a']; [cbn in E; discriminate|].
      cbn [app] in E. injection E as _ E.
      rewrite <- Hinc. symmetry. apply includes_spec. now exists a', b. }
  destruct Htail as (tail & -> & Hti & Htl).
  destruct (segmentsOf_below stack tail Hpl Hti Htl) as [extra ->].
  destruct (render_app extra stack Hne) as (rest & -> & Hrest).
  exists rest. split; [reflexivity|exact Hrest].
Qed.

Lemma atOrBelow_test (base p : jstring) :
  atOrBelow base p ->
  negb (startsWith p (base ++ sep)) && negb (streq p base) = false.
Proof.
  intros (rest & -> & [->|[rest' ->]]).
  - rewrite app_nil_r.
    assert (streq base base = true) as -> by now apply streq_eq.
    apply andb_false_r.
  - replace (base ++ SLASH :: rest') with ((base ++ sep) ++ rest')
      by (unfold sep; now rewrite <- app_assoc).
    now rewrite startsWith_app.
Qed.

Lemma isPathSafe_resolved (base p : jstring) :
  isAbsolute cwd = true -> resolve cwd [base] = base -> base <> js "/" ->
  isPathSafe cwd p base = negb (isAbsolute p) && negb (includes p (js "..")).
Proof.
  intros Hcwd Hres Hroot. unfold isPathSafe.
  destruct (isAbsolute p) eqn:Hp; [reflexivity|].
  destruct (includes p (js "..")) eqn:Hinc; [reflexivity|].
  now rewrite (atOrBelow_test _ _ (resolve_below base p Hcwd Hres Hroot Hp Hinc)).
Qed.

Lemma resolve_a_b (base : jstring) :
  isAbsolute cwd = true -> resolve cwd [base] = base -> base <> js "/" ->
  resolve cwd [base; js "a/b"] = base ++ js "/a/b".
Proof.
  intros Hcwd Hres Hroot.
  destruct (resolved_segments cwd base Hcwd Hres Hroot) as (stack & -> & Hpl & Hne & Hb).
  rewrite (resolve_pair cwd _ (js "a/b") Hb eq_refl).
  assert (Hseg : segmentsOf ((SLASH :: render stack) ++ SLASH :: js "a/b")
                 = js "b" :: js "a" :: stack).
  { unfold segmentsOf.
    replace ((SLASH :: render stack) ++ SLASH :: js "a/b")
      with ((SLASH :: render stack ++ sep) ++ js "a/b")
      by (unfold sep; cbn [app]; now rewrite <- app_assoc).
    rewrite scan_app, segmentsOf_render by exact Hpl. reflexivity. }
  change (match js "a/b" with
          | [] => SLASH :: render stack
          | _ => (SLASH :: render stack) ++ SLASH :: js "a/b"
          end) with ((SLASH :: render stack) ++ SLASH :: js "a/b").
  rewrite Hseg, render_cons by discriminate.
  rewrite render_cons by exact Hne.
  cbn [app]. now rewrite <- !app_assoc.
Qed.

Lemma strictlyInside_below (base tail : jstring) :
  base <> js "/" -> tail <> [] ->
  strictlyInside base (base ++ SLASH :: tail) = true.
Proof.
  intros Hroot Hne. unfold strictlyInside.
  apply streq_neq in Hroot. rewrite Hroot.
  replace (base ++ SLASH :: tail) with ((base ++ sep) ++ tail)
    by (unfold sep; now rewrite <- app_assoc).
  rewrite startsWith_app, andb_true_r. apply negb_true_iff, streq_neq.
  intros E. apply (f_equal (@length N)) in E.
  rewrite !List.length_app in E. cbn [length sep] in E. lia.
Qed.

End ResolveFacts.

Section BranchFacts.
Import Path Discovery GitRef.

Lemma issues_nil (name : jstring) :
  issues name = [] <-> forallb (fun c => passes c name) branchNameChecks = true.
Proof.
  unfold issues. induction branchNameChecks as [|c cs IH]; [easy|].
  cbn [List.filter forallb]. destruct (passes c name); cbn [negb andb].
  - exact IH.
  - split; discriminate.
Qed.

Lemma safeParse_ok (name : jstring) :
  is_ok (safeParse name) = true -> safeParse name = Ok name.
Proof. unfold safeParse. now destruct (issues name). Qed.

Lemma sanitized_no_slash (branch : jstring) : ~ In SLASH (sanitizeBranchForDir branch).
Proof.
  unfold sanitizeBranchForDir, replaceAll.
  induction branch as [|x s IH]; [easy|]. cbn [flat_map].
  intros H. apply in_app_or in H as [H|H]; [|now apply IH].
  destruct (N.eqb_spec x SLASH) as [->|Hx].
  - cbn in H. destruct H as [H|[]]. discriminate.
  - destruct H as [H|[]]. congruence.
Qed.

Lemma accepted_first (branch : jstring) :
  safeParse branch = Ok branch ->
  exists c rest, branch = c :: rest /\ c <> DOT.
Proof.
  intros H.
  assert (Hi : issues branch = []).
  { unfold safeParse in H. destruct (issues branch); [reflexivity|discriminate]. }
  apply issues_nil in Hi. unfold branchNameChecks in Hi.
  cbn [forallb passes] in Hi. rewrite !andb_true_iff in Hi.
  destruct Hi as (Hlen & _ & _ & _ & _ & _ & _ & _ & _ & [Hdot _] & _).
  destruct branch as [|c rest]; [discriminate|].
  exists c, rest. split; [reflexivity|].
  apply negb_true_iff in Hdot. intros ->.
  cbn in Hdot. destruct rest; discriminate.
Qed.

(** The directory name of an accepted branch is a plain segment. *)
Lemma sanitized_plain (branch : jstring) :
  is_ok (safeParse branch) = true ->
  Segments.plain (sanitizeBranchForDir branch) = true.
Proof.
  intros Hok. apply safeParse_ok in Hok.
  destruct (accepted_first branch Hok) as (c & rest & -> & Hdot).
  pose proof (sanitized_no_slash (c :: rest)) as Hno.
  assert (Hseg : exists c' seg',
             sanitizeBranchForDir (c :: rest) = c' :: seg' /\ c' <> DOT).
  { unfold sanitizeBranchForDir, replaceAll in *. cbn [flat_map] in *.
    destruct (N.eqb_spec c SLASH) as [->|Hc].
    - eexists _, _. split; [reflexivity|]. discriminate.
    - eexists _, _. split; [reflexivity|]. assumption. }
  destruct Hseg as (c' & seg' & Hs & Hc').
  rewrite Hs in *. apply plain_spec.
  split; [discriminate|]. split; [exact Hno|].
  split; intros E; injection E as E _; now apply Hc'.
Qed.

(** The feature directory under an absolute workspace root is an absolute
    path in normal form whose last segment is the sanitized branch. *)
Lemma featurePath_segments (workspaceRoot branch : jstring) :
  isAbsolute workspaceRoot = true ->
  is_ok (safeParse branch) = true ->
  exists stack,
    getFeaturePath workspaceRoot branch = SLASH :: Segments.render stack /\
    forallb Segments.plain stack = true /\ stack <> [].
Proof.
  intros Habs Hok. pose proof (sanitized_plain branch Hok) as Hpl.
  pose proof Hpl as Hp. apply plain_spec in Hp as (Hne & Hno & Hd1 & Hd2).
  destruct (isAbsolute_cons _ Habs) as [tail ->].
  unfold getFeaturePath, join. rewrite joinArgs_pair by discriminate.
  set (sb := sanitizeBranchForDir branch) in *.
  destruct sb as [|c sb'] eqn:Esb; [congruence|]. rewrite <- Esb in *.
  change ((SLASH :: tail) ++ SLASH :: sb) with (SLASH :: tail ++ SLASH :: sb).
  assert (Hseg : exists stack0,
             Segments.segmentsOf (SLASH :: tail ++ SLASH :: sb) = sb :: stack0).
  { unfold Segments.segmentsOf.
    replace (SLASH :: tail ++ SLASH :: sb) with (((SLASH :: tail) ++ sep) ++ sb)
      by (unfold sep; cbn [app]; now rewrite <- app_assoc).
    rewrite scan_app.
    pose proof (scan_after_sep (SLASH :: tail) [] []) as Hsnd.
    destruct (Segments.scan ((SLASH :: tail) ++ sep) [] []) as [stack0 seg0].
    cbn [fst snd] in Hsnd |- *. subst seg0.
    rewrite scan_segment_chars by exact Hno. cbn [app].
    exists stack0. unfold Segments.close.
    apply streq_neq in Hne, Hd1, Hd2. now rewrite Hne, Hd1, Hd2. }
  destruct Hseg as [stack0 Hseg].
  exists (sb :: stack0).
  rewrite normalize_segments, Hseg.
  replace (SLASH :: tail ++ SLASH :: sb) with ((SLASH :: tail ++ [SLASH]) ++ sb)
    by (cbn [app]; now rewrite <- app_assoc).
  rewrite no_trailing_slash by (apply streq_neq in Hne; try assumption; now apply streq_neq).
  rewrite app_nil_r. split; [reflexivity|]. split; [|discriminate].
  rewrite <- Hseg. apply normalizeString_segments.
Qed.

End BranchFacts.

Section RelativeFacts.
Import Path Segments.

Lemma isAbsolute_app (r x : jstring) :
  r <> [] -> isAbsolute (r ++ x) = isAbsolute r.
Proof. destruct r; [congruence|reflexivity]. Qed.

Lemma beforeLastSlash_relative (r r' : jstring) :
  beforeLastSlash r = Some r' -> isAbsolute r = false -> isAbsolute r' = false.
Proof.
  destruct r as [|c r0]; [discriminate|]. cbn [beforeLastSlash isAbsolute].
  destruct (beforeLastSlash r0).
  - intros H. injection H as <-. auto.
  - destruct (c =? SLASH); [|discriminate]. intros H. now injection H as <-.
Qed.

Lemma relative_sep (allow : bool) (st : nstate) :
  RelInv st -> RelInv (atSeparator allow st).
Proof.
  intros [Hr Hs]. unfold atSeparator.
  assert (Hseg : isAbsolute (segment st) = false).
  { destruct (segment st) as [|c seg]; [reflexivity|]. cbn. apply N.eqb_neq.
    intros ->. apply Hs. now left. }
  destruct (res st) as [|c r0] eqn:E.
  - cbn [length Nat.ltb Nat.leb orb negb Nat.eqb].
    destruct (segment st) as [|x seg] eqn:Es; [now split|].
    destruct (dots st) as [[|[|[|n]]]|], allow; split; auto.
  - change (0 <? length (c :: r0))%nat with true. cbv iota.
    destruct (segment st) as [|x seg] eqn:Es; [now split|].
    assert (Hpre : forall r', beforeLastSlash (c :: r0) = Some r' ->
                              isAbsolute r' = false).
    { intros r' H. eapply beforeLastSlash_relative; eauto. }
    destruct (dots st) as [[|[|[|n]]]|]; try (split; [exact Hr|auto]).
    destruct (_ || _); [|destruct allow; split; auto].
    destruct (2 <? length (c :: r0))%nat.
    + destruct (beforeLastSlash (c :: r0)) eqn:Eb; split; auto.
    + destruct (negb (length (c :: r0) =? 0)%nat); [split; auto|].
      destruct allow; split; auto.
Qed.

Lemma relative_char (allow : bool) (st : nstate) (c : N) :
  RelInv st -> RelInv (atCodeUnit allow st c).
Proof.
  intros H. unfold atCodeUnit. destruct (N.eqb_spec c SLASH) as [->|Hc].
  - now apply relative_sep.
  - destruct H as [Hr Hs]. split; [exact Hr|]. cbn [segment].
    intros Hin. apply in_app_or in Hin as [Hin|[E|[]]]; [now apply Hs|].
    now apply Hc.
Qed.

Lemma normalizeString_relative (path : jstring) (allow : bool) :
  isAbsolute (normalizeString path allow) = false.
Proof.
  unfold normalizeString.
  assert (H : RelInv (fold_left (atCodeUnit allow) path (nextSegment [] 0))).
  { assert (H0 : RelInv (nextSegment [] 0)) by (split; [reflexivity|easy]).
    revert H0. generalize (nextSegment [] 0).
    induction path as [|c path IH]; intros st H0; [exact H0|].
    cbn [fold_left]. apply IH. now apply relative_char. }
  destruct (endsWith path sep); [apply H|].
  now apply relative_sep.
Qed.

Lemma normalize_relative (path : jstring) :
  isAbsolute path = false -> isAbsolute (normalize path) = false.
Proof.
  intros Hp. unfold normalize. destruct path as [|c rest]; [reflexivity|].
  rewrite Hp. cbn [negb].
  pose proof (normalizeString_relative (c :: rest) true) as H.
  destruct (normalizeString (c :: rest) true) as [|x p] eqn:E.
  - destruct (endsWith (c :: rest) sep); reflexivity.
  - destruct (endsWith (c :: rest) sep); exact H.
Qed.

Lemma normalize_nonempty (path : jstring) : normalize path <> [].
Proof.
  unfold normalize. destruct path as [|c rest]; [discriminate|].
  destruct (normalizeString (c :: rest) (negb (isAbsolute (c :: rest)))) as [|x p].
  - destruct (isAbsolute (c :: rest)); [discriminate|].
    destruct (endsWith (c :: rest) sep); discriminate.
  - destruct (isAbsolute (c :: rest)); [discriminate|].
    destruct (endsWith (c :: rest) sep); discriminate.
Qed.

Lemma join_nonempty (args : list jstring) : join args <> [].
Proof.
  unfold join. destruct (joinArgs args); [discriminate|apply normalize_nonempty].
Qed.

(** A main repository under a workspace root that is not absolute is not
    absolute either. *)
Lemma mainRepoPath_relative (workspaceRoot repo : jstring) :
  isAbsolute workspaceRoot = false ->
  isAbsolute (join [workspaceRoot; js "main"; repo]) = false.
Proof.
  intros Hr. unfold join, joinArgs. cbn [fold_left].
  destruct workspaceRoot as [|c root], repo as [|d repo'];
    cbn [app]; apply normalize_relative; try reflexivity; exact Hr.
Qed.

End RelativeFacts.

Section SyncProofs.
Import Path Segments Sync.
Variable cwd : jstring.

(** C3 (as amended). [isPathSafe] is false on ["../x"] and on
    ["/etc/passwd"] (as on every absolute path) whatever the base.  For a
    base that is an absolute path in resolved form, other than the root,
    ["a/b"] resolves to the base followed by ["/a/b"], which lies strictly
    inside the base, and [isPathSafe] is true on it.  And [isPathSafe]
    rejects exactly the paths that are absolute, contain [".."], or whose
    resolution against the base neither starts with base plus separator nor
    equals the base. *)
Theorem isPathSafe_spec :
  (forall base, isPathSafe cwd (js "../x") base = false) /\
  (forall base, isPathSafe cwd (js "/etc/passwd") base = false) /\
  (forall p base, isAbsolute p = true -> isPathSafe cwd p base = false) /\
  (forall base,
      isAbsolute cwd = true -> resolve cwd [base] = base -> base <> js "/" ->
      resolve cwd [base; js "a/b"] = base ++ js "/a/b" /\
      strictlyInside (resolve cwd [base]) (resolve cwd [base; js "a/b"]) = true /\
      isPathSafe cwd (js "a/b") base = true) /\
  (forall p base,
      isPathSafe cwd p base = false <->
      (isAbsolute p = true \/
       includes p (js "..") = true \/
       (startsWith (resolve cwd [base; p]) (base ++ sep) = false /\
        resolve cwd [base; p] <> base))).
Proof.
  split; [|split; [|split; [|split; [|intros p base; split]]]].
  - intros base. reflexivity.
  - intros base. reflexivity.
  - intros p base H. unfold isPathSafe. now rewrite H.
  - intros base Hcwd Hres Hroot.
    pose proof (resolve_a_b cwd base Hcwd Hres Hroot) as Hab.
    split; [exact Hab|]. split.
    + rewrite Hres, Hab. now apply strictlyInside_below.
    + now rewrite (isPathSafe_resolved cwd base (js "a/b") Hcwd Hres Hroot).
  - unfold isPathSafe. intros H.
    destruct (isAbsolute p); [now left|].
    destruct (includes p (js "..")); [now right; left|].
    right; right.
    destruct (startsWith _ _); [discriminate|].
    destruct (streq _ base) eqn:E; [discriminate|].
    split; [reflexivity|]. now apply streq_neq.
  - unfold isPathSafe. intros [H|[H|[H1 H2]]].
    + now rewrite H.
    + rewrite H. now destruct (isAbsolute p).
    + rewrite H1. apply streq_neq in H2. rewrite H2.
      now destruct (isAbsolute p), (includes p (js "..")).
Qed.

End SyncProofs.

(** A relative path inside the base is accepted: ["a/b"] under ["/w"]. *)
Lemma isPathSafe_spec_witness :
  Path.resolve (js "/home/dev") [js "/w"; js "a/b"] = js "/w" ++ js "/a/b" /\
  Segments.strictlyInside (Path.resolve (js "/home/dev") [js "/w"])
    (Path.resolve (js "/home/dev") [js "/w"; js "a/b"]) = true /\
  Sync.isPathSafe (js "/home/dev") (js "a/b") (js "/w") = true.
Proof.
  apply (proj1 (proj2 (proj2 (proj2 (isPathSafe_spec (js "/home/dev")))))).
  - reflexivity.
  - vm_compute. reflexivity.
  - discriminate.
Defined.

(** C3 as worded fails for a base that is the root, that ends with a
    separator, or that is relative: what ["a/b"] resolves to lies strictly
    inside the resolved base, and [isPathSafe] still rejects it, because the
    test compares with the base as it was given, followed by a separator. *)
Lemma isPathSafe_spec_counterexample :
  let cwd := js "/home/dev" in
  let inside base :=
    Segments.strictlyInside (Path.resolve cwd [base])
      (Path.resolve cwd [base; js "a/b"]) in
  (inside (js "/") = true /\ Sync.isPathSafe cwd (js "a/b") (js "/") = false) /\
  (inside (js "/w/") = true /\ Sync.isPathSafe cwd (js "a/b") (js "/w/") = false) /\
  (inside (js "w") = true /\ Sync.isPathSafe cwd (js "a/b") (js "w") = false).
Proof. vm_compute. repeat split; reflexivity. Qed.

Section DiscoveryProofs.
Import Path Discovery.
Context {W : Type} (h : Handler W).

(** [lstat] only reads: it leaves the environment as it found it. *)
Hypothesis lstat_reads : forall p w, snd (h _ (Lstat p) w) = w.

Lemma ancestor_dirname d k : ancestor (dirname d) k = ancestor d (S k).
Proof. unfold ancestor. now rewrite Nat.iter_succ_r. Qed.

Lemma walkUp_spec n : forall d w,
  let r := run h (walkUp n d) w in
  world r = w /\
  (length (events r) <= n)%nat /\
  ((exists k, (k < n)%nat /\
      (forall j, (j <= k)%nat -> ancestor d j <> js "/") /\
      hasMain h w (ancestor d k) /\
      (forall j, (j < k)%nat -> ~ hasMain h w (ancestor d j)) /\
      value r = Some (ancestor d k) /\
      length (events r) = S k)
   \/
   ((forall k, (k < n)%nat ->
      (forall j, (j <= k)%nat -> ancestor d j <> js "/") ->
      ~ hasMain h w (ancestor d k)) /\
    value r = None)).
Proof.
  induction n as [|n IH]; intros d w; cbn zeta.
  - cbn. split; [reflexivity|]. split; [lia|]. right. split; [|reflexivity].
    intros k Hk. lia.
  - cbn [walkUp]. destruct (streq d (js "/")) eqn:Eroot.
    + apply streq_eq in Eroot. cbn. split; [reflexivity|]. split; [lia|].
      right. split; [|reflexivity].
      intros k _ Hne. exfalso. apply (Hne 0%nat); [lia|exact Eroot].
    + apply streq_neq in Eroot.
      cbn [bind call run].
      pose proof (lstat_reads (join [d; js "main"]) w) as Hw.
      assert (Hm : hasMain h w d <->
                   fst (h _ (Lstat (join [d; js "main"])) w) = Ok KDirectory)
        by reflexivity.
      destruct (h _ (Lstat (join [d; js "main"])) w) as [x w1].
      cbn [fst snd] in Hw, Hm. subst w1.
      assert (Hcont : x <> Ok KDirectory ->
        forall r, r = run h (walkUp n (dirname d)) w ->
        let r' := (let '(a, w2, t) := r in
                   (a, w2, Ev (Lstat (join [d; js "main"])) x :: t)) in
        world r' = w /\ (length (events r') <= S n)%nat /\
        ((exists k, (k < S n)%nat /\
            (forall j, (j <= k)%nat -> ancestor d j <> js "/") /\
            hasMain h w (ancestor d k) /\
            (forall j, (j < k)%nat -> ~ hasMain h w (ancestor d j)) /\
            value r' = Some (ancestor d k) /\
            length (events r') = S k)
         \/
         ((forall k, (k < S n)%nat ->
            (forall j, (j <= k)%nat -> ancestor d j <> js "/") ->
            ~ hasMain h w (ancestor d k)) /\
          value r' = None))).
      { intros Hx r Hr. specialize (IH (dirname d) w). cbn zeta in IH.
        rewrite <- Hr in IH. destruct r as [[a w2] t].
        unfold world, value, events in *. cbn [fst snd] in *.
        destruct IH as (Hw2 & Hlen & Hcase).
        split; [exact Hw2|]. split; [cbn [length]; lia|].
        destruct Hcase as [(k & Hk & Hne & Hmain & Hnear & Hval & Hl)|(Hnone & Hval)].
        - left. exists (S k). split; [lia|].
          split; [|split; [|split; [|split]]].
          + intros [|j] Hj; [exact Eroot|].
            rewrite <- ancestor_dirname. apply Hne. lia.
          + rewrite <- ancestor_dirname. exact Hmain.
          + intros [|j] Hj.
            * intros Hd. apply Hx. apply Hm. exact Hd.
            * rewrite <- ancestor_dirname. apply Hnear. lia.
          + rewrite <- ancestor_dirname. exact Hval.
          + cbn [length]. now rewrite Hl.
        - right. split; [|exact Hval].
          intros [|k] Hk Hne.
          + intros Hd. apply Hx. apply Hm. exact Hd.
          + rewrite <- ancestor_dirname. apply Hnone; [lia|].
            intros j Hj. rewrite ancestor_dirname. apply Hne. lia. }
      destruct x as [[| | |]|e];
        try (apply Hcont; [discriminate|reflexivity]).
      cbn. split; [reflexivity|]. split; [lia|].
      left. exists 0%nat. split; [lia|]. split; [|split; [|split; [|split]]].
      * intros j Hj. replace j with 0%nat by lia. exact Eroot.
      * apply Hm. reflexivity.
      * intros j Hj. lia.
      * reflexivity.
      * reflexivity.
Qed.

End DiscoveryProofs.

Section EffectsFacts.
Context {W : Type} (h : Handler W).

Lemma run_bind {A B : Type} (m : Prog A) (f : A -> Prog B) : forall w,
  run h (bind m f) w =
  let '(a, w1, t1) := run h m w in
  let '(b, w2, t2) := run h (f a) w1 in
  (b, w2, t1 ++ t2).
Proof.
  induction m as [a|X op k IH]; intros w; cbn [bind run].
  - destruct (run h (f a) w) as [[b w2] t2]. reflexivity.
  - destruct (h X op w) as [x w1]. rewrite IH.
    destruct (run h (k x) w1) as [[a w2] t1].
    destruct (run h (f a) w2) as [[b w3] t2]. reflexivity.
Qed.

End EffectsFacts.

Section DiscoveryTheorem.
Import Path Discovery.
Context {W : Type} (h : Handler W).
Hypothesis lstat_reads : forall p w, snd (h _ (Lstat p) w) = w.

(** C10. [findWorkspaceRoot] always returns, after at most ten [lstat]
    calls.  For a non-empty start directory, with [root] its resolution:
    either some ancestor [k < 10] of [root] (the 0-th being [root] itself)
    has a [main] directory, no nearer one has, none of the ancestors up to
    [k] is ["/"], and the result is [Ok] of that ancestor after [k + 1]
    calls; or no ancestor reached within ten levels before ["/"] has one and
    the result is the error. *)
Theorem findWorkspaceRoot_spec (cwd startDir : jstring) (w : W) :
  startDir <> [] ->
  let root := resolve cwd [startDir] in
  let r := run h (findWorkspaceRoot cwd startDir) w in
  (length (events r) <= 10)%nat /\
  ((exists k, (k < 10)%nat /\
      (forall j, (j <= k)%nat -> ancestor root j <> js "/") /\
      hasMain h w (ancestor root k) /\
      (forall j, (j < k)%nat -> ~ hasMain h w (ancestor root j)) /\
      value r = Ok (ancestor root k) /\
      length (events r) = S k)
   \/
   ((forall k, (k < 10)%nat ->
      (forall j, (j <= k)%nat -> ancestor root j <> js "/") ->
      ~ hasMain h w (ancestor root k)) /\
    value r = Err (notFoundMessage startDir))).
Proof.
  intros Hne root r. subst r. unfold findWorkspaceRoot.
  destruct startDir as [|c rest]; [congruence|].
  rewrite run_bind.
  pose proof (walkUp_spec h lstat_reads MAX_LEVELS root w) as Hspec.
  cbn zeta in Hspec. fold root.
  destruct (run h (walkUp MAX_LEVELS root) w) as [[found w1] t].
  unfold world, value, events in Hspec. cbn [fst snd] in Hspec.
  destruct Hspec as (_ & Hlen & Hcase). unfold MAX_LEVELS in *.
  destruct Hcase as [(k & Hk & Hroot & Hmain & Hnear & Hval & Hl)|(Hnone & Hval)];
    subst found; cbn [run]; unfold value, events; cbn [fst snd];
    rewrite app_nil_r; (split; [exact Hlen|]).
  - left. exists k. repeat (split; [assumption|]). split; [reflexivity|assumption].
  - right. split; [assumption|reflexivity].
Qed.

End DiscoveryTheorem.

(** In the workspace [/ws], searched from [/ws/main/api]. *)
Lemma findWorkspaceRoot_spec_witness :
  let root := Path.resolve (js "/home") [js "/ws/main/api"] in
  let r := run Fs.handle
             (Discovery.findWorkspaceRoot (js "/home") (js "/ws/main/api"))
             Fs.workspace in
  (length (events r) <= 10)%nat /\
  ((exists k, (k < 10)%nat /\
      (forall j, (j <= k)%nat -> Discovery.ancestor root j <> js "/") /\
      Discovery.hasMain Fs.handle Fs.workspace (Discovery.ancestor root k) /\
      (forall j, (j < k)%nat ->
         ~ Discovery.hasMain Fs.handle Fs.workspace (Discovery.ancestor root j)) /\
      value r = Ok (Discovery.ancestor root k) /\
      length (events r) = S k)
   \/
   ((forall k, (k < 10)%nat ->
      (forall j, (j <= k)%nat -> Discovery.ancestor root j <> js "/") ->
      ~ Discovery.hasMain Fs.handle Fs.workspace (Discovery.ancestor root k)) /\
    value r = Err (Discovery.notFoundMessage (js "/ws/main/api")))).
Proof.
  apply (findWorkspaceRoot_spec Fs.handle).
  - reflexivity.
  - discriminate.
Defined.

Example findWorkspaceRoot_example :
  let r := run Fs.handle
             (Discovery.findWorkspaceRoot (js "/home") (js "/ws/main/api"))
             Fs.workspace in
  value r = Ok (js "/ws") /\ length (events r) = 3%nat.
Proof. vm_compute. split; reflexivity. Qed.

Section TextFacts.
Import Text.

Lemma toText_wellFormed_upto (n : nat) : forall s,
  (length s <= n)%nat -> isWellFormed s = true -> toText s = s.
Proof.
  induction n as [|n IH]; intros s Hlen Hwf.
  - destruct s; [reflexivity|cbn in Hlen; lia].
  - destruct s as [|c rest]; [reflexivity|].
    cbn [length] in Hlen. cbn [isWellFormed toText] in *.
    destruct (isHighSurrogate c).
    + destruct rest as [|d rest']; [discriminate|].
      apply andb_true_iff in Hwf as [Hd Hwf]. rewrite Hd.
      rewrite IH; [reflexivity| cbn [length] in Hlen; lia | exact Hwf].
    + apply andb_true_iff in Hwf as [Hc Hwf].
      apply negb_true_iff in Hc. rewrite Hc.
      rewrite IH; [reflexivity| lia | exact Hwf].
Qed.

Lemma toText_wellFormed (s : jstring) : isWellFormed s = true -> toText s = s.
Proof. apply (toText_wellFormed_upto (length s)). lia. Qed.

End TextFacts.

Section StateProofs.
Import Text State.

Lemma checked_singleton (m : gmap Z PendingRow) (row : PendingRow) :
  (forall k r, m !! k = Some r -> k = 1%Z) ->
  <[1%Z := row]> m = {[ 1%Z := row ]}.
Proof.
  intros Hc. apply map_eq. intros k.
  destruct (decide (k = 1%Z)) as [->|Hk].
  - now rewrite lookup_insert_eq, lookup_singleton_eq.
  - rewrite lookup_insert_ne, lookup_singleton_ne by congruence.
    destruct (m !! k) as [r|] eqn:E; [|reflexivity].
    exfalso. apply Hk. eapply Hc. exact E.
Qed.

Lemma checked_size (m : gmap Z PendingRow) :
  (forall k r, m !! k = Some r -> k = 1%Z) -> (size m <= 1)%nat.
Proof.
  intros Hc. destruct (m !! 1%Z) as [row|] eqn:E.
  - rewrite <- (insert_id m 1%Z row E), (checked_singleton m row Hc).
    rewrite map_size_singleton. lia.
  - assert (m = ∅) as ->; [|rewrite map_size_empty; lia].
    apply map_eq. intros k. rewrite lookup_empty.
    destruct (m !! k) as [r|] eqn:Ek; [|reflexivity].
    rewrite (Hc k r Ek) in Ek. congruence.
Qed.

Lemma checked_insert (db : Database) (row : PendingRow) :
  checkedId db ->
  checkedId {| sessions := sessions db;
               pending_operations := <[1%Z := row]> (pending_operations db) |}.
Proof.
  intros Hc k r. cbn. destruct (decide (k = 1%Z)) as [->|Hk]; [reflexivity|].
  rewrite lookup_insert_ne by congruence. apply Hc.
Qed.

Lemma checked_deletePending (type : jstring) (db : Database) :
  checkedId db -> checkedId (deletePending type db).
Proof.
  intros Hc k r. unfold deletePending. cbn.
  destruct (pending_operations db !! 1%Z) as [row|]; [|apply Hc].
  destruct (hasType type row); [|apply Hc].
  destruct (decide (k = 1%Z)) as [->|Hk]; [reflexivity|].
  rewrite lookup_delete_ne by congruence. apply Hc.
Qed.

Lemma checked_doCall (db : Database) (c : PendingCall) :
  checkedId db -> checkedId (doCall db c).
Proof.
  intros Hc. destruct c as [spawn|del| |]; cbn [doCall].
  - unfold setPendingSpawn. destruct (pendingSpawnSchema spawn); [|exact Hc].
    now apply checked_insert.
  - unfold setPendingDelete. destruct (pendingDeleteSchema del); [|exact Hc].
    now apply checked_insert.
  - now apply checked_deletePending.
  - now apply checked_deletePending.
Qed.

Lemma checked_doCalls (cs : list PendingCall) : forall db,
  checkedId db -> checkedId (doCalls db cs).
Proof.
  induction cs as [|c cs IH]; intros db Hc; [exact Hc|].
  cbn. apply IH. now apply checked_doCall.
Qed.

Lemma checked_emptyDb : checkedId emptyDb.
Proof. intros k r. cbn. now rewrite lookup_empty. Qed.

(** C1 (as amended). For every spawn payload [A], accepted or refused, and
    every delete payload [B] that passes its schema, [setPendingSpawn A]
    followed by [setPendingDelete B] leaves exactly one pending row, of type
    ['delete'], holding the branch and path of [B] as [TEXT] (the strings
    themselves when they are well formed); [getPendingSpawn] then returns
    null.  A payload that does not pass its schema makes its setter throw,
    and the tables are as they were.  Every interleaving of the four
    set/clear calls leaves at most one pending row, and a getter returns a
    value only when the stored type tag is its own. *)
Theorem pending_singleton :
  (forall db A B,
      checkedId db ->
      pendingDeleteSchema B = true ->
      exists db2,
        setPendingDelete (doCall db (SetSpawn A)) B = Ok db2 /\
        size (pending_operations db2) = 1%nat /\
        pending_operations db2 !! 1%Z =
          Some {| op_type := js "delete"; op_branch := toText (delete_branch B);
                  op_path := toText (delete_path B); op_session_id := None |} /\
        getPendingSpawn db2 = None /\
        getPendingDelete db2 = Some (storedDelete B) /\
        (wellFormedDelete B = true -> getPendingDelete db2 = Some B)) /\
  (forall db A,
      pendingSpawnSchema A = false ->
      setPendingSpawn db A = Err zodError /\ doCall db (SetSpawn A) = db) /\
  (forall db B,
      pendingDeleteSchema B = false ->
      setPendingDelete db B = Err zodError /\ doCall db (SetDelete B) = db) /\
  (forall db cs,
      checkedId db ->
      (size (pending_operations (doCalls db cs)) <= 1)%nat /\
      (forall p, getPendingSpawn (doCalls db cs) = Some p ->
         exists row, pending_operations (doCalls db cs) !! 1%Z = Some row /\
                     op_type row = js "spawn") /\
      (forall p, getPendingDelete (doCalls db cs) = Some p ->
         exists row, pending_operations (doCalls db cs) !! 1%Z = Some row /\
                     op_type row = js "delete")).
Proof.
  split; [|split; [|split]].
  - intros db A B Hc HB.
    pose proof (checked_doCall db (SetSpawn A) Hc) as Hc1.
    set (db1 := doCall db (SetSpawn A)) in *.
    unfold setPendingDelete. rewrite HB. eexists.
    split; [reflexivity|]. cbn [pending_operations].
    rewrite (checked_singleton _ _ Hc1).
    split; [apply map_size_singleton|].
    split; [apply lookup_singleton_eq|].
    unfold getPendingSpawn, getPendingDelete. cbn [pending_operations].
    rewrite lookup_singleton_eq. split; [reflexivity|].
    split; [reflexivity|].
    intros Hwf. cbn -[js toText]. unfold wellFormedDelete in Hwf.
    apply andb_true_iff in Hwf as [Hb Hp].
    rewrite (toText_wellFormed _ Hb), (toText_wellFormed _ Hp).
    destruct B. reflexivity.
  - intros db A HA. cbn [doCall]. unfold setPendingSpawn. rewrite HA.
    split; reflexivity.
  - intros db B HB. cbn [doCall]. unfold setPendingDelete. rewrite HB.
    split; reflexivity.
  - intros db cs Hc. pose proof (checked_doCalls cs db Hc) as Hc'.
    split; [apply checked_size; exact Hc'|].
    unfold getPendingSpawn, getPendingDelete, hasType.
    split; intros p; destruct (pending_operations (doCalls db cs) !! 1%Z) as [row|];
      try discriminate;
      destruct (streq (op_type row) _) eqn:E; try discriminate;
      intros _; exists row; (split; [reflexivity|]); now apply streq_eq.
Qed.

End StateProofs.

Section StateExamples.
Import Text State.

Lemma pending_singleton_witness :
  exists db2,
    setPendingDelete (doCall emptyDb (SetSpawn spawnA)) deleteB = Ok db2 /\
    size (pending_operations db2) = 1%nat /\
    pending_operations db2 !! 1%Z =
      Some {| op_type := js "delete"; op_branch := toText (delete_branch deleteB);
              op_path := toText (delete_path deleteB); op_session_id := None |} /\
    getPendingSpawn db2 = None /\
    getPendingDelete db2 = Some (storedDelete deleteB) /\
    (wellFormedDelete deleteB = true -> getPendingDelete db2 = Some deleteB).
Proof.
  apply (proj1 pending_singleton).
  - apply checked_emptyDb.
  - reflexivity.
Defined.

(** C1 as worded fails in two ways.  When the second payload does not pass
    its schema, [setPendingDelete] throws and the spawn row stays.  And a
    payload that passes its schema is not always what the row holds: a
    surrogate code unit without its partner is stored as U+FFFD. *)
Lemma pending_singleton_counterexample :
  ~ (forall db A B,
       checkedId db ->
       let db2 := doCalls db [SetSpawn A; SetDelete B] in
       size (pending_operations db2) = 1%nat /\
       (exists row, pending_operations db2 !! 1%Z = Some row /\
                    op_type row = js "delete" /\
                    op_branch row = delete_branch B /\
                    op_path row = delete_path B) /\
       getPendingSpawn db2 = None)
  /\
  ~ (forall db A B,
       checkedId db ->
       pendingDeleteSchema B = true ->
       let db2 := doCalls db [SetSpawn A; SetDelete B] in
       size (pending_operations db2) = 1%nat /\
       (exists row, pending_operations db2 !! 1%Z = Some row /\
                    op_type row = js "delete" /\
                    op_branch row = delete_branch B /\
                    op_path row = delete_path B) /\
       getPendingSpawn db2 = None).
Proof.
  split; intros H.
  - destruct (H emptyDb spawnA deleteNoBranch checked_emptyDb) as (_ & _ & Hget).
    unfold doCalls, getPendingSpawn in Hget. cbn -[toText] in Hget.
    rewrite lookup_insert_eq in Hget. discriminate Hget.
  - destruct (H emptyDb spawnA deleteLone checked_emptyDb eq_refl)
      as (_ & (row & Hrow & _ & Hbranch & _) & _).
    unfold doCalls in Hrow. cbn -[toText] in Hrow.
    rewrite lookup_insert_eq in Hrow. injection Hrow as <-.
    discriminate Hbranch.
Qed.

End StateExamples.

Section SessionProofs.
Import Text State.

Lemma one_row_per_key (l : list (jstring * SessionRow)) (k : jstring) (v : SessionRow) :
  NoDup (l.*1) -> (k, v) ∈ l ->
  length (List.filter (fun kv => streq (fst kv) k) l) = 1%nat.
Proof.
  induction l as [|[k' v'] l IH]; intros Hnd Hin.
  - now apply elem_of_nil in Hin.
  - cbn [fmap list_fmap fst] in Hnd. apply NoDup_cons in Hnd as [Hk' Hnd].
    cbn [List.filter fst].
    apply elem_of_cons in Hin as [Heq|Hin].
    + injection Heq as <- <-.
      assert (streq k k = true) as -> by now apply streq_eq.
      cbn [length]. f_equal.
      assert (Hnone : forall kv, kv ∈ l -> streq (fst kv) k = false).
      { intros [k2 v2] H2. apply streq_neq. cbn. intros ->.
        apply Hk'. apply list_elem_of_fmap. now exists (k, v2). }
      clear -Hnone. induction l as [|kv l IH]; [reflexivity|].
      cbn [List.filter]. rewrite (Hnone kv) by apply list_elem_of_here.
      apply IH. intros kv' H'. apply Hnone. now apply list_elem_of_further.
    + assert (streq k' k = false) as ->.
      { apply streq_neq. intros ->. apply Hk'.
        apply list_elem_of_fmap. now exists (k, v). }
      now apply IH.
Qed.

Lemma rowsWithId_stored (db : Database) (i : jstring) (row : SessionRow) :
  sessions db !! i = Some row -> rowsWithId db i = 1%nat.
Proof.
  intros H. unfold rowsWithId.
  apply (one_row_per_key _ i row).
  - apply NoDup_fst_map_to_list.
  - now apply elem_of_map_to_list.
Qed.

Lemma nonEmpty_true (s : jstring) : nonEmpty s = true -> s <> [].
Proof. now destruct s. Qed.

Lemma storedSession_wellFormed (s : Session) :
  wellFormedSession s = true -> storedSession s = s.
Proof.
  unfold wellFormedSession, storedSession. rewrite !andb_true_iff.
  intros [[[Hi Hb] Hp] Hc].
  rewrite (toText_wellFormed _ Hi), (toText_wellFormed _ Hb),
    (toText_wellFormed _ Hp), (toText_wellFormed _ Hc).
  now destruct s.
Qed.

(** C9 (as amended). Take two sessions with the same id, the second of
    which passes [sessionSchema] (no empty field); the first may pass or be
    refused.  [addSession] with the first and then with the second leaves
    exactly one row for that id, holding the branch, path and createdAt of
    the second as [TEXT], so [getSession] returns the second session as
    stored, and the second session itself when its strings are well formed;
    rows of other ids are untouched.  A session that does not pass the
    schema makes [addSession] throw, and the tables are as they were.  For
    every session, valid or not, calling [addSession] twice with the same
    data leaves the database as calling it once. *)
Theorem addSession_upsert :
  (forall db s1 s2,
      id s1 = id s2 ->
      sessionSchema s2 = true ->
      exists db2,
        addSession (after db (addSession db s1)) s2 = Ok db2 /\
        rowsWithId db2 (toText (id s2)) = 1%nat /\
        sessions db2 !! toText (id s2) = Some (rowOf s2) /\
        getSession db2 (id s2) = Some (storedSession s2) /\
        (wellFormedSession s2 = true -> getSession db2 (id s2) = Some s2) /\
        (forall i, i <> toText (id s2) -> sessions db2 !! i = sessions db !! i) /\
        pending_operations db2 = pending_operations db) /\
  (forall db s,
      sessionSchema s = false ->
      addSession db s = Err zodError /\ after db (addSession db s) = db) /\
  (forall db s,
      after (after db (addSession db s))
            (addSession (after db (addSession db s)) s)
      = after db (addSession db s)).
Proof.
  split; [|split].
  - intros db s1 s2 Hid H2.
    assert (Hget : forall db2,
               sessions db2 !! toText (id s2) = Some (rowOf s2) ->
               getSession db2 (id s2) = Some (storedSession s2)).
    { intros db2 Hrow. unfold getSession. rewrite Hrow.
      unfold sessionSchema in H2. rewrite !andb_true_iff in H2.
      destruct H2 as [[[Hi _] _] _]. rewrite Hi. reflexivity. }
    unfold addSession at 1. rewrite H2. eexists.
    split; [reflexivity|]. fold (rowOf s2).
    assert (Hrow : sessions
                     {| sessions := <[toText (id s2) := rowOf s2]>
                                      (sessions (after db (addSession db s1)));
                        pending_operations :=
                          pending_operations (after db (addSession db s1)) |}
                   !! toText (id s2) = Some (rowOf s2))
      by apply lookup_insert_eq.
    split; [eapply rowsWithId_stored; exact Hrow|].
    split; [exact Hrow|].
    split; [now apply Hget|].
    split; [intros Hwf; rewrite (Hget _ Hrow); f_equal;
            now apply storedSession_wellFormed|].
    unfold addSession. destruct (sessionSchema s1); cbn [after sessions pending_operations].
    + split; [|reflexivity]. intros i Hi.
      rewrite lookup_insert_ne by congruence.
      rewrite lookup_insert_ne by (rewrite Hid; congruence). reflexivity.
    + split; [|reflexivity]. intros i Hi. now rewrite lookup_insert_ne.
  - intros db s Hs. unfold addSession. rewrite Hs. split; reflexivity.
  - intros db s. unfold addSession.
    destruct (sessionSchema s) eqn:E; cbn [after]; rewrite ?E; cbn [after];
      [|reflexivity].
    cbn [sessions pending_operations]. now rewrite insert_insert_eq.
Qed.

Lemma addSession_upsert_witness :
  exists db2,
    addSession (after emptyDb (addSession emptyDb session1)) session1' = Ok db2 /\
    rowsWithId db2 (toText (id session1')) = 1%nat /\
    sessions db2 !! toText (id session1') = Some (rowOf session1') /\
    getSession db2 (id session1') = Some (storedSession session1') /\
    (wellFormedSession session1' = true ->
     getSession db2 (id session1') = Some session1') /\
    (forall i, i <> toText (id session1') ->
               sessions db2 !! i = sessions emptyDb !! i) /\
    pending_operations db2 = pending_operations emptyDb.
Proof.
  apply (proj1 addSession_upsert); reflexivity.
Defined.

(** C9 as worded fails in two ways.  When the second session does not pass
    the schema, [addSession] throws and the row keeps the values of the
    first call.  And a session that passes the schema is not always what
    the row holds: a surrogate code unit without its partner is stored as
    U+FFFD. *)
Lemma addSession_upsert_counterexample :
  ~ (forall db s1 s2,
       id s1 = id s2 ->
       let db2 := after (after db (addSession db s1))
                        (addSession (after db (addSession db s1)) s2) in
       rowsWithId db2 (id s2) = 1%nat /\
       sessions db2 !! id s2
       = Some {| col_branch := branch s2; col_path := path s2;
                 col_created_at := createdAt s2 |})
  /\
  ~ (forall db s1 s2,
       id s1 = id s2 ->
       sessionSchema s2 = true ->
       let db2 := after (after db (addSession db s1))
                        (addSession (after db (addSession db s1)) s2) in
       rowsWithId db2 (id s2) = 1%nat /\
       sessions db2 !! id s2
       = Some {| col_branch := branch s2; col_path := path s2;
                 col_created_at := createdAt s2 |}).
Proof.
  split; intros H.
  - destruct (H emptyDb session1 session1NoBranch eq_refl) as [_ Hrow].
    cbn -[toText] in Hrow. change (toText (js "ses_1")) with (js "ses_1") in Hrow.
    rewrite lookup_insert_eq in Hrow. discriminate Hrow.
  - destruct (H emptyDb session1 session1Lone eq_refl eq_refl) as [_ Hrow].
    cbn -[toText] in Hrow. change (toText (js "ses_1")) with (js "ses_1") in Hrow.
    rewrite lookup_insert_eq in Hrow. discriminate Hrow.
Qed.

End SessionProofs.

Section CreateInvalidBranch.
Import SetCreation.
Context {W : Type} (h : Handler W).

(** C4. When the validator rejects the branch name, [createWorktreeSet]
    returns a result that lists every repository of the request, each marked
    failed with the message of the first validation issue, with
    [successCount = 0] and [failureCount] the number of repositories; it
    makes no external call (no directory is created, no [git] is run, no
    file is synchronised, no hook is executed) and leaves the environment
    as it was. *)
Theorem createWorktreeSet_invalid_branch (cwd : jstring)
  (options : CreateSetOptions) (w : W) :
  is_ok (GitRef.safeParse (branch options)) = false ->
  exists m ms result,
    GitRef.safeParse (branch options) = Err (m :: ms) /\
    run h (createWorktreeSet cwd options) w = (Ok result, w, []) /\
    List.map repo (results result) = repos options /\
    Forall (fun r => success r = false /\
                     worktreePath r = None /\
                     error r = Some (js "Invalid branch name: " ++ m))
           (results result) /\
    successCount result = 0%nat /\
    failureCount result = length (repos options).
Proof.
  intros Hbad. unfold createWorktreeSet.
  assert (Hshape : exists m ms, GitRef.safeParse (branch options) = Err (m :: ms)).
  { unfold GitRef.safeParse in *.
    destruct (GitRef.issues (branch options)) as [|m ms]; [discriminate|].
    now exists m, ms. }
  destruct Hshape as (m & ms & Hparse). rewrite Hparse.
  exists m, ms. eexists. split; [reflexivity|]. split; [reflexivity|].
  cbn [hd allFailed results successCount failureCount].
  split; [|split; [|split; reflexivity]].
  - rewrite List.map_map. cbn [failed repo]. apply List.map_id.
  - apply List.Forall_forall. intros r Hr. apply List.in_map_iff in Hr as (x & <- & _).
    cbn. auto.
Qed.

End CreateInvalidBranch.

Lemma createWorktreeSet_invalid_branch_witness :
  exists m ms result,
    GitRef.safeParse (SetCreation.branch Fs.badBranchOptions) = Err (m :: ms) /\
    run Fs.handle (SetCreation.createWorktreeSet (js "/home") Fs.badBranchOptions)
        Fs.workspace = (Ok result, Fs.workspace, []) /\
    List.map SetCreation.repo (SetCreation.results result)
      = SetCreation.repos Fs.badBranchOptions /\
    Forall (fun r => SetCreation.success r = false /\
                     SetCreation.worktreePath r = None /\
                     SetCreation.error r = Some (js "Invalid branch name: " ++ m))
           (SetCreation.results result) /\
    SetCreation.successCount result = 0%nat /\
    SetCreation.failureCount result = length (SetCreation.repos Fs.badBranchOptions).
Proof.
  apply (createWorktreeSet_invalid_branch Fs.handle).
  vm_compute. reflexivity.
Defined.

Section RemovalProofs.
Import Path Discovery Git Hooks SetRemoval RemovalRuns.
Context {W : Type} (h : Handler W).

Lemma git_run (args : list jstring) (cwd : jstring) (w : W) :
  run h (git args cwd) w
  = (gitResult args (fst (h _ (Spawn (js "git" :: args) cwd) w)),
     snd (h _ (Spawn (js "git" :: args) cwd) w),
     [Ev (Spawn (js "git" :: args) cwd)
         (fst (h _ (Spawn (js "git" :: args) cwd) w))]).
Proof.
  unfold git. cbn [bind call run].
  destruct (h _ (Spawn (js "git" :: args) cwd) w) as [[out|e] w1]; cbn [fst snd].
  - unfold gitResult. destruct (exitCode out =? 0)%Z; reflexivity.
  - reflexivity.
Qed.

Lemma runHooks_run (cwd : jstring) (commands : list jstring) : forall w : W,
  exists w' t, run h (runHooks cwd commands) w = (tt, w', t) /\
               hooksRun cwd commands t.
Proof.
  induction commands as [|command rest IH]; intros w.
  - exists w, []. split; [reflexivity|constructor].
  - cbn [runHooks bind call run].
    destruct (h _ (Spawn [js "bash"; js "-c"; command] cwd) w) as [resp w1].
    destruct (IH w1) as (w' & t & Hrun & Ht). rewrite Hrun.
    exists w', (Ev (Spawn [js "bash"; js "-c"; command] cwd) resp :: t).
    split; [reflexivity|]. constructor; [now exists resp|exact Ht].
Qed.

Lemma run_bindE_call {X B : Type} (op : Op (Result X Error))
  (f : X -> Prog (Result B Error)) (w : W) :
  run h (bindE (call op) f) w
  = match h _ op w with
    | (Ok a, w1) =>
        let '(b, w2, t) := run h (f a) w1 in (b, w2, Ev op (Ok a) :: t)
    | (Err e, w1) => (Err e, w1, [Ev op (Err e)])
    end.
Proof.
  unfold bindE. cbn [bind call run].
  destruct (h _ op w) as [[a|e] w1]; reflexivity.
Qed.

(** The hooks of a configuration, run when there are any, and what follows. *)
Lemma run_hooks_bindE {B : Type} (cwd : jstring) (commands : list jstring)
  (f : unit -> Prog (Result B Error)) (w : W) :
  exists w' t,
    hooksRun cwd commands t /\
    run h (bindE (SetCreation.whenNonEmpty commands
                    (bind (runHooks cwd commands) (fun _ => Ret (Ok tt)))) f) w
    = let '(b, w2, t2) := run h (f tt) w' in (b, w2, t ++ t2).
Proof.
  unfold SetCreation.whenNonEmpty, bindE.
  destruct commands as [|c cs].
  - exists w, []. split; [constructor|]. cbn [bind run app].
    now destruct (run h (f tt) w) as [[b w2] t2].
  - destruct (runHooks_run cwd (c :: cs) w) as (w' & t & Hrun & Ht).
    exists w', t. split; [exact Ht|].
    rewrite !run_bind, Hrun. cbn [run app]. rewrite app_nil_r.
    now destruct (run h (f tt) w') as [[b w2] t2].
Qed.

Lemma removeEntry_run (fp : jstring) (acc : SetRemovalResult) (entry : jstring)
  (w : W) :
  let r := run h (removeEntry fp acc entry) w in
  exists o, entryRun fp entry (events r) o /\ value r = record acc o.
Proof.
  cbv zeta. unfold removeEntry, tryEntry. rewrite run_bind.
  cbn [bind call run].
  destruct (h _ (Lstat (join [join [fp; entry]; js ".git"])) w) as [stats w1].
  assert (Hskip : stats <> Ok KFile ->
            exists o,
              entryRun fp entry
                [Ev (Lstat (join [join [fp; entry]; js ".git"])) stats] o /\
              acc = record acc o).
  { intros Hs. exists Skipped. split; [apply entry_skipped; exact Hs|reflexivity]. }
  destruct stats as [[| | |]|e];
    try (cbn [run events value fst snd app]; apply Hskip; discriminate).
  clear Hskip.
  change [js "rev-parse"; js "--path-format=absolute"; js "--git-common-dir"]
    with commonDirArgs.
  rewrite run_bind, git_run.
  destruct (h _ (Spawn (js "git" :: commonDirArgs) (join [fp; entry])) w1)
    as [resp w2].
  cbn [fst snd].
  destruct (gitResult commonDirArgs resp) as [commonDir|e] eqn:Hgit.
  2:{ cbn [run events value fst snd app].
      eexists (Failed _). split; [apply entry_unresolved; exact Hgit|reflexivity]. }
  rewrite run_bindE_call.
  destruct (h _ (LoadWorktreeConfig (stripDotGit commonDir)) w2) as [[config|e] w3].
  2:{ cbn [run events value fst snd app].
      eexists (Failed _). split; [eapply entry_config_error; exact Hgit|reflexivity]. }
  match goal with
  | |- context [run h (bindE (SetCreation.whenNonEmpty ?c (bind (runHooks ?d ?c) _)) ?f) ?w0] =>
      destruct (run_hooks_bindE d c f w0) as (w4 & hooks & Hh & ->)
  end.
  change [js "worktree"; js "remove"; js "--force"; join [fp; entry]]
    with (removeArgs (join [fp; entry])).
  rewrite run_bind, git_run.
  destruct (h _ (Spawn (js "git" :: removeArgs (join [fp; entry]))
                   (stripDotGit commonDir)) w4) as [resp' w5].
  cbn [fst snd].
  destruct (gitResult (removeArgs (join [fp; entry])) resp') as [out|e] eqn:Hrm.
  - cbn [run events value fst snd app].
    exists Removed. split; [|reflexivity].
    rewrite !app_nil_r.
    change (Ev (Lstat (join [join [fp; entry]; js ".git"])) (Ok KFile)
            :: Ev (Spawn (js "git" :: commonDirArgs) (join [fp; entry])) resp
            :: Ev (LoadWorktreeConfig (stripDotGit commonDir)) (Ok config)
            :: hooks ++ [Ev (Spawn (js "git" :: removeArgs (join [fp; entry]))
                              (stripDotGit commonDir)) resp'])
      with ([Ev (Lstat (join [join [fp; entry]; js ".git"])) (Ok KFile);
             Ev (Spawn (js "git" :: commonDirArgs) (join [fp; entry])) resp;
             Ev (LoadWorktreeConfig (stripDotGit commonDir)) (Ok config)]
            ++ hooks
            ++ [Ev (Spawn (js "git" :: removeArgs (join [fp; entry]))
                      (stripDotGit commonDir)) resp']).
    eapply entry_removed; eauto.
  - cbn [run events value fst snd app].
    eexists (Failed _). split; [|reflexivity].
    rewrite !app_nil_r.
    change (Ev (Lstat (join [join [fp; entry]; js ".git"])) (Ok KFile)
            :: Ev (Spawn (js "git" :: commonDirArgs) (join [fp; entry])) resp
            :: Ev (LoadWorktreeConfig (stripDotGit commonDir)) (Ok config)
            :: hooks ++ [Ev (Spawn (js "git" :: removeArgs (join [fp; entry]))
                              (stripDotGit commonDir)) resp'])
      with ([Ev (Lstat (join [join [fp; entry]; js ".git"])) (Ok KFile);
             Ev (Spawn (js "git" :: commonDirArgs) (join [fp; entry])) resp;
             Ev (LoadWorktreeConfig (stripDotGit commonDir)) (Ok config)]
            ++ hooks
            ++ [Ev (Spawn (js "git" :: removeArgs (join [fp; entry]))
                      (stripDotGit commonDir)) resp']).
    eapply entry_not_removed; eauto.
Qed.

Lemma removeEntries_run (fp : jstring) (entries : list jstring) :
  forall (acc : SetRemovalResult) (w : W),
  let r := run h (removeEntries fp entries acc) w in
  exists outcomes,
    entriesRun fp entries (events r) outcomes /\
    value r = fold_left record outcomes acc.
Proof.
  induction entries as [|entry rest IH]; intros acc w; cbv zeta.
  - exists []. split; [constructor|reflexivity].
  - cbn [removeEntries]. rewrite run_bind.
    destruct (removeEntry_run fp acc entry w) as (o & Ho & Hv).
    destruct (run h (removeEntry fp acc entry) w) as [[acc1 w1] t1].
    destruct (IH acc1 w1) as (os & Hos & Hvs).
    destruct (run h (removeEntries fp rest acc1) w1) as [[acc2 w2] t2].
    unfold value, events in *. cbn [fst snd] in *. subst acc1 acc2.
    exists (o :: os). split; [now constructor|reflexivity].
Qed.

Lemma record_all (outcomes : list Outcome) : forall acc,
  let acc' := fold_left record outcomes acc in
  featurePath acc' = featurePath acc /\
  removedCount acc'
  = (removedCount acc + length (List.filter isRemoved outcomes))%nat /\
  failureCount acc'
  = (failureCount acc + length (List.filter isFailed outcomes))%nat /\
  errors acc' = errors acc ++ flat_map messageOf outcomes.
Proof.
  induction outcomes as [|o os IH]; intros acc; cbv zeta.
  - cbn. rewrite app_nil_r. repeat split; lia.
  - cbn [fold_left]. destruct (IH (record acc o)) as (Hf & Hr & Hc & He).
    rewrite Hf, Hr, Hc, He.
    destruct o; cbn [record removed fail featurePath removedCount failureCount
                     errors List.filter isRemoved isFailed flat_map messageOf
                     length app];
      rewrite <- ?app_assoc; repeat split; try lia; reflexivity.
Qed.

Lemma entryRun_calls (fp entry : jstring) (t : list Event) (o : Outcome) :
  entryRun fp entry t o ->
  lstatPaths t = [join [join [fp; entry]; js ".git"]] /\ existsb isRm t = false.
Proof.
  assert (Hh : forall cwd commands hooks,
             hooksRun cwd commands hooks ->
             lstatPaths hooks = [] /\ existsb isRm hooks = false).
  { intros cwd commands hooks H. induction H as [|c e cs es [resp ->] _ [IH1 IH2]].
    - now split.
    - split; [exact IH1|exact IH2]. }
  intros H. destruct H as [| | |? ? ? hooks ? ? ? Hhooks|? ? ? hooks ? ? ? Hhooks];
    try (split; reflexivity).
  - destruct (Hh _ _ _ Hhooks) as [H1 H2].
    unfold lstatPaths in *. rewrite !flat_map_app, H1, !existsb_app, H2. now split.
  - destruct (Hh _ _ _ Hhooks) as [H1 H2].
    unfold lstatPaths in *. rewrite !flat_map_app, H1, !existsb_app, H2. now split.
Qed.

Lemma entriesRun_calls (fp : jstring) (entries : list jstring) (t : list Event)
  (outcomes : list Outcome) :
  entriesRun fp entries t outcomes ->
  lstatPaths t = List.map (fun entry => join [join [fp; entry]; js ".git"]) entries /\
  existsb isRm t = false /\
  length outcomes = length entries.
Proof.
  induction 1 as [|entry rest t o t' os He _ (IH1 & IH2 & IH3)].
  - now repeat split.
  - destruct (entryRun_calls _ _ _ _ He) as [H1 H2].
    unfold lstatPaths in *. rewrite flat_map_app, H1, IH1, existsb_app, H2, IH2.
    cbn [length]. now rewrite IH3.
Qed.

Variable exists_ : W -> jstring -> bool.

(** What a successful recursive, forced [rm] leaves behind. *)
Hypothesis rm_removes : forall p w w',
  h _ (Rm p true true) w = (Ok tt, w') -> exists_ w' p = false.

(** C5 (as amended). Take a feature path that [lstat] reports as a
    directory.  If the directory cannot be listed, [removeWorktreeSet]
    returns after these two calls with one error message: nothing is
    removed.  Otherwise it goes through every entry, in order, whatever
    became of the earlier ones: an entry whose [.git] is not a regular file
    is skipped; for the others it asks [git] for the main repository, loads
    its configuration, runs the [preDelete] hooks and asks [git] to remove
    the worktree.  An entry counts as removed exactly when that last [git]
    succeeds; every other way out records one failure with its message.
    [removedCount], [failureCount] and [errors] are the removed entries, the
    failed entries and their messages in order.  No [rm] is issued while the
    entries are processed; after them, always, exactly one recursive forced
    [rm] of the feature directory is issued as the last call.  When that
    [rm] succeeds the feature directory does not exist afterwards; when it
    fails its message is appended to [errors]. *)
Theorem removeWorktreeSet_spec (options : RemoveSetOptions) (w w1 : W) :
  let fp := getFeaturePath (workspaceRoot options) (branch options) in
  let r := run h (removeWorktreeSet options) w in
  h _ (Lstat fp) w = (Ok KDirectory, w1) ->
  match h _ (Readdir fp) w1 with
  | (Err e, w2) =>
      r = (nothingRemoved fp (js "Failed to read feature directory: " ++ e), w2,
           [Ev (Lstat fp) (Ok KDirectory); Ev (Readdir fp) (Err e)])
  | (Ok entries, _) =>
      exists t outcomes resp,
        events r = Ev (Lstat fp) (Ok KDirectory) :: Ev (Readdir fp) (Ok entries)
                   :: t ++ [Ev (Rm fp true true) resp] /\
        entriesRun fp entries t outcomes /\
        lstatPaths t
        = List.map (fun entry => join [join [fp; entry]; js ".git"]) entries /\
        existsb isRm t = false /\
        featurePath (value r) = fp /\
        removedCount (value r) = length (List.filter isRemoved outcomes) /\
        failureCount (value r) = length (List.filter isFailed outcomes) /\
        errors (value r)
        = flat_map messageOf outcomes
          ++ match resp with
             | Ok _ => []
             | Err e => [js "Failed to remove feature directory: " ++ e]
             end /\
        (resp = Ok tt -> exists_ (world r) fp = false)
  end.
Proof.
  intros fp r Hstat. subst r. unfold removeWorktreeSet. fold fp.
  cbn [bind call run]. rewrite Hstat. cbn [isDirectory negb bind run].
  destruct (h _ (Readdir fp) w1) as [[entries|e] w2]; [|reflexivity].
  rewrite run_bind.
  destruct (removeEntries_run fp entries
              {| featurePath := fp; removedCount := 0; failureCount := 0;
                 errors := [] |} w2) as (outcomes & Hrun & Hval).
  destruct (run h (removeEntries fp entries _) w2) as [[acc w3] t].
  unfold value, events in Hrun, Hval. cbn [fst snd] in Hrun, Hval.
  destruct (entriesRun_calls _ _ _ _ Hrun) as (Hl & Hr & _).
  destruct (record_all outcomes
              {| featurePath := fp; removedCount := 0; failureCount := 0;
                 errors := [] |}) as (Hf & Hrc & Hfc & He).
  rewrite <- Hval in Hf, Hrc, Hfc, He.
  cbn [featurePath removedCount failureCount errors app] in Hf, Hrc, Hfc, He.
  cbn [bind call run].
  destruct (h _ (Rm fp true true) w3) as [resp w4] eqn:Hrm.
  exists t, outcomes, resp.
  destruct resp as [[]|e]; cbn [run]; unfold value, events, world; cbn [fst snd].
  - repeat split; try assumption.
    + now rewrite app_nil_r.
    + intros _. eapply rm_removes. exact Hrm.
  - cbn [pushError featurePath removedCount failureCount errors].
    repeat split; try assumption.
    + now rewrite He.
    + discriminate.
Qed.

End RemovalProofs.

Section FsFacts.
Import Fs.

Lemma lookup_filter_under (p : jstring) (ns : list (jstring * FileKind)) :
  lookup p (List.filter (fun n => negb (under p (fst n))) ns) = None.
Proof.
  induction ns as [|[q k] ns IH]; [reflexivity|].
  cbn [List.filter fst]. unfold under at 1.
  destruct (streq q p) eqn:E; cbn [orb negb].
  - exact IH.
  - destruct (startsWith q (p ++ Path.sep)); cbn [negb]; [exact IH|].
    cbn [lookup]. destruct (streq p q) eqn:E'; [|exact IH].
    apply streq_eq in E'. subst q.
    assert (streq p p = true) by now apply streq_eq. congruence.
Qed.

Lemma Fs_rm_removes (p : jstring) (w w' : World) :
  handle _ (Rm p true true) w = (Ok tt, w') -> existsPath w' p = false.
Proof.
  cbn [handle]. destruct (existsb (streq p) (locked w)); [discriminate|].
  intros H. injection H as <-. unfold existsPath, setNodes. cbn [nodes].
  now rewrite lookup_filter_under.
Qed.

End FsFacts.

Lemma removeWorktreeSet_spec_witness :
  let fp := Discovery.getFeaturePath (js "/ws") (js "feat/x") in
  let r := run Fs.handle (SetRemoval.removeWorktreeSet Fs.featureOptions)
             Fs.featureWorld in
  exists t outcomes resp,
    events r = Ev (Lstat fp) (Ok KDirectory)
               :: Ev (Readdir fp) (Ok [js "api"; js "notes.txt"; js "web"])
               :: t ++ [Ev (Rm fp true true) resp] /\
    RemovalRuns.entriesRun fp [js "api"; js "notes.txt"; js "web"] t outcomes /\
    lstatPaths t
      = List.map (fun entry => Path.join [Path.join [fp; entry]; js ".git"])
                 [js "api"; js "notes.txt"; js "web"] /\
    existsb isRm t = false /\
    SetRemoval.featurePath (value r) = fp /\
    SetRemoval.removedCount (value r)
      = length (List.filter RemovalRuns.isRemoved outcomes) /\
    SetRemoval.failureCount (value r)
      = length (List.filter RemovalRuns.isFailed outcomes) /\
    SetRemoval.errors (value r)
      = flat_map RemovalRuns.messageOf outcomes
        ++ match resp with
           | Ok _ => []
           | Err e => [js "Failed to remove feature directory: " ++ e]
           end /\
    (resp = Ok tt -> Fs.existsPath (world r) fp = false).
Proof.
  exact (removeWorktreeSet_spec Fs.handle Fs.existsPath Fs_rm_removes
           Fs.featureOptions Fs.featureWorld Fs.featureWorld eq_refl).
Defined.

(** C5 as worded fails in two ways.  When the final [rm] is refused, both
    worktrees are removed, the failure is reported, and the feature
    directory is still there.  And when the feature directory cannot be
    listed, no entry is processed and no [rm] is issued at all. *)
Lemma removeWorktreeSet_counterexample :
  (let r := run Fs.handle (SetRemoval.removeWorktreeSet Fs.featureOptions)
              Fs.lockedWorld in
   SetRemoval.removedCount (value r) = 2%nat /\
   SetRemoval.failureCount (value r) = 0%nat /\
   SetRemoval.errors (value r)
     = [js "Failed to remove feature directory: EACCES: permission denied"] /\
   Fs.existsPath (world r) (js "/ws/feat-x") = true)
  /\
  (let r := run Fs.handle (SetRemoval.removeWorktreeSet Fs.featureOptions)
              Fs.unreadableWorld in
   Fs.handle _ (Lstat (js "/ws/feat-x")) Fs.unreadableWorld
     = (Ok KDirectory, Fs.unreadableWorld) /\
   SetRemoval.errors (value r)
     = [js "Failed to read feature directory: EACCES: permission denied"] /\
   existsb isRm (events r) = false /\
   Fs.existsPath (world r) (js "/ws/feat-x") = true).
Proof. vm_compute. repeat split; reflexivity. Qed.

Section SymlinkProofs.
Import Path Sync.
Context {W : Type} (h : Handler W).
Variable cwd : jstring.

Lemma isPathSafe_base_absolute (dir base : jstring) :
  isAbsolute cwd = true -> base <> [] ->
  isPathSafe cwd dir base = true -> isAbsolute base = true.
Proof.
  intros Hcwd Hbase. unfold isPathSafe.
  destruct (isAbsolute dir); [discriminate|].
  destruct (includes dir (js "..")); [discriminate|].
  pose proof (resolve_absolute cwd [base; dir] Hcwd) as Habs.
  destruct (isAbsolute_cons _ Habs) as [rest Hres]. rewrite Hres.
  destruct (startsWith (SLASH :: rest) (base ++ sep)) eqn:Hpre.
  - intros _. destruct base as [|c base']; [congruence|].
    cbn in Hpre. apply andb_true_iff in Hpre as [Hc _]. exact Hc.
  - destruct (streq (SLASH :: rest) base) eqn:Heq; [|discriminate].
    intros _. apply streq_eq in Heq. now subst base.
Qed.



Ltac answer :=
  match goal with
  | |- context [h ?X ?op ?w] =>
      let x := fresh "x" in let w' := fresh "w" in
      destruct (h X op w) as [x w']
  end.

Ltac branch :=
  match goal with
  | |- context [match ?x with _ => _ end] =>
      lazymatch x with
      | context [run] => fail
      | _ => destruct x
      end
  end.





End SymlinkProofs.



Section CallFacts.

Lemma allCalls_bind {A B : Type} (P : Event -> Prop) (m : Prog A) (f : A -> Prog B) :
  allCalls P m -> (forall a, allCalls P (f a)) -> allCalls P (bind m f).
Proof.
  intros Hm Hf. induction m as [a|X op k IH]; cbn [bind allCalls] in *.
  - apply Hf.
  - intros x. destruct (Hm x) as [Hp Hk]. split; [exact Hp|]. now apply IH.
Qed.

Lemma allCalls_bindE {A B : Type} (P : Event -> Prop)
  (m : Prog (Result A Error)) (f : A -> Prog (Result B Error)) :
  allCalls P m -> (forall a, allCalls P (f a)) -> allCalls P (bindE m f).
Proof.
  intros Hm Hf. unfold bindE. apply allCalls_bind; [exact Hm|].
  intros [a|e]; [apply Hf|exact I].
Qed.

Lemma allCalls_call {X : Type} (P : Event -> Prop) (op : Op X) :
  (forall x, P (Ev op x)) -> allCalls P (call op).
Proof. intros H x. split; [apply H|exact I]. Qed.

Lemma allCalls_mono {A : Type} (P Q : Event -> Prop) (p : Prog A) :
  (forall e, P e -> Q e) -> allCalls P p -> allCalls Q p.
Proof.
  intros HPQ. induction p as [a|X op k IH]; cbn [allCalls]; [auto|].
  intros H x. destruct (H x) as [Hp Hk]. split; [now apply HPQ|now apply IH].
Qed.

Lemma allCalls_run {W A : Type} (h : Handler W) (P : Event -> Prop) (p : Prog A) :
  allCalls P p -> forall w, List.Forall P (events (run h p w)).
Proof.
  induction p as [a|X op k IH]; intros H w; cbn [run].
  - constructor.
  - destruct (h X op w) as [x w1]. destruct (H x) as [Hp Hk].
    specialize (IH x Hk w1). destruct (run h (k x) w1) as [[a w2] t].
    unfold events in *. cbn [snd] in *. now constructor.
Qed.

Lemma allCalls_git (P : Event -> Prop) (args : list jstring) (cwd : jstring) :
  (forall x, P (Ev (Spawn (js "git" :: args) cwd) x)) ->
  allCalls P (Git.git args cwd).
Proof.
  intros H. unfold Git.git. cbn [bind call allCalls]. intros x.
  split; [apply H|]. destruct x as [out|e]; [|exact I].
  destruct (negb _); exact I.
Qed.

End CallFacts.

Section CreationProofs.
Import Path Segments Discovery Git Hooks Sync SetCreation Traces.
Context {W : Type} (h : Handler W).
Variable cwd : jstring.

Ltac plain_call := intros; split; [reflexivity | discriminate].

Lemma allCalls_runHooks (P : Event -> Prop) (dir : jstring) (commands : list jstring) :
  (forall e, hookCall dir e -> P e) -> allCalls P (runHooks dir commands).
Proof.
  intros HP. induction commands as [|command rest IH]; [exact I|].
  cbn [runHooks bind call allCalls]. intros x. split; [|exact IH].
  apply HP. now exists command, x.
Qed.

Lemma allCalls_symlinkDirs (P : Event -> Prop) (sourceDir targetDir : jstring)
  (dirs : list jstring) :
  (forall dir e, In dir dirs -> isPathSafe cwd dir sourceDir = true ->
                 linkCall sourceDir targetDir dir e -> P e) ->
  allCalls P (symlinkDirs cwd sourceDir targetDir dirs).
Proof.
  induction dirs as [|dir rest IH]; intros HP; [exact I|].
  assert (Hrest : allCalls P (symlinkDirs cwd sourceDir targetDir rest)).
  { apply IH. intros d e Hd. apply HP. now right. }
  cbn [symlinkDirs].
  destruct (isPathSafe cwd dir sourceDir) eqn:Hsafe; cbn [negb]; [|exact Hrest].
  assert (Hc : forall e, linkCall sourceDir targetDir dir e -> P e).
  { intros e. apply HP; [now left|exact Hsafe]. }
  apply allCalls_bind; [|intros _; exact Hrest].
  unfold linkDir. apply allCalls_bind.
  { apply allCalls_call. intros x. apply Hc. left. now exists x. }
  intros [[| | |]|e]; try exact I.
  apply allCalls_bindE.
  { apply allCalls_call. intros x. apply Hc. right; left. now exists x. }
  intros _. apply allCalls_bindE.
  { apply allCalls_call. intros x. apply Hc. right; right; left. now exists x. }
  intros _. apply allCalls_bindE; [|intros; exact I].
  apply allCalls_call. intros x. apply Hc. right; right; right. now exists x.
Qed.

(** Every call made for a repository is one of those [repoCall] lists, and
    a call of [symlinkDirs] is made for an entry that passed
    [isPathSafe]. *)
Lemma allCalls_processRepo_by (P : Event -> Prop) (options : CreateSetOptions)
  (fp repo : jstring) :
  let mainRepoPath := join [workspaceRoot options; js "main"; repo] in
  let worktreePath := join [fp; repo] in
  (forall args r, In (branch options) args ->
                  P (Ev (Spawn (js "git" :: args) mainRepoPath) r)) ->
  (forall r, P (Ev (LoadWorktreeConfig mainRepoPath) r)) ->
  (forall files r, P (Ev (CopyFiles mainRepoPath worktreePath files) r)) ->
  (forall dir e, isPathSafe cwd dir mainRepoPath = true ->
                 linkCall mainRepoPath worktreePath dir e -> P e) ->
  (runHooksFlag options <> Some false ->
   forall e, hookCall worktreePath e -> P e) ->
  allCalls P (processRepo cwd options fp repo).
Proof.
  intros mainRepoPath worktreePath Hgit Hload Hcopy Hlink Hhook.
  unfold processRepo. apply allCalls_bind; [|intros [r|e]; exact I].
  unfold tryRepo. fold mainRepoPath worktreePath. apply allCalls_bind.
  { unfold branchExists. apply allCalls_bind; [|intros; exact I].
    apply allCalls_git. intros x. apply Hgit. cbn. auto. }
  intros exists_. apply allCalls_bind.
  { destruct exists_; apply allCalls_git; intros x; apply Hgit; cbn; auto. }
  intros [value|e]; [|exact I].
  apply allCalls_bindE; [apply allCalls_call; exact Hload|]. intros config.
  apply allCalls_bindE.
  { unfold whenNonEmpty. destruct (sync_copyFiles config); [exact I|].
    apply allCalls_call. apply Hcopy. }
  intros _. apply allCalls_bindE.
  { unfold whenNonEmpty. destruct (sync_symlinkDirs config) as [|d ds]; [exact I|].
    apply allCalls_bind; [|intros; exact I].
    apply allCalls_symlinkDirs. intros dir e _. apply Hlink. }
  intros _. apply allCalls_bindE; [|intros; exact I].
  destruct (runHooksFlag options) as [[|]|] eqn:Hflag; try exact I.
  - unfold whenNonEmpty. destruct (hooks_postCreate config); [exact I|].
    apply allCalls_bind; [|intros; exact I].
    apply allCalls_runHooks. apply Hhook. discriminate.
  - unfold whenNonEmpty. destruct (hooks_postCreate config); [exact I|].
    apply allCalls_bind; [|intros; exact I].
    apply allCalls_runHooks. apply Hhook. discriminate.
Qed.

Lemma allCalls_processRepo (options : CreateSetOptions) (repo : jstring) :
  In repo (repos options) ->
  allCalls (loopCall cwd options)
    (processRepo cwd options
       (getFeaturePath (workspaceRoot options) (branch options)) repo).
Proof.
  intros Hin. apply allCalls_processRepo_by.
  - plain_call.
  - plain_call.
  - plain_call.
  - intros dir e Hsafe [[r ->]|[[r ->]|[[r ->]|[r ->]]]]; try plain_call.
    split; [reflexivity|]. intros _. now exists repo, dir, r.
  - intros _ e (command & r & ->). plain_call.
Qed.

Lemma allCalls_processRepos (options : CreateSetOptions) (todo : list jstring) :
  (forall repo, In repo todo -> In repo (repos options)) ->
  forall acc,
  allCalls (loopCall cwd options)
    (processRepos cwd options
       (getFeaturePath (workspaceRoot options) (branch options)) todo acc).
Proof.
  induction todo as [|repo rest IH]; intros Hsub acc; [exact I|].
  cbn [processRepos]. apply allCalls_bind.
  - apply allCalls_processRepo. apply Hsub. now left.
  - intros r. apply IH. intros r' Hr'. apply Hsub. now right.
Qed.

Lemma allCalls_containsWorktree (fp : jstring) (entries : list jstring) :
  allCalls (fun e => isMkdir e = false /\ isRm e = false /\ isOpenTerminal e = false)
           (containsWorktree fp entries).
Proof.
  induction entries as [|entry rest IH]; [exact I|].
  cbn [containsWorktree bind call allCalls]. intros x.
  split; [repeat split|]. destruct x as [[|]|e]; try exact IH. exact I.
Qed.

Lemma processRepos_counts (options : CreateSetOptions) (fp : jstring)
  (todo : list jstring) : forall acc (w : W),
  let r := run h (processRepos cwd options fp todo acc) w in
  length (results (value r)) = (length (results acc) + length todo)%nat /\
  (successCount (value r) + failureCount (value r)
   = successCount acc + failureCount acc + length todo)%nat /\
  (successCount acc = length (List.filter success (results acc)) ->
   successCount (value r) = length (List.filter success (results (value r)))).
Proof.
  induction todo as [|repo rest IH]; intros acc w; cbn zeta.
  - cbn. repeat split; auto; lia.
  - cbn [processRepos]. rewrite run_bind.
    destruct (run h (processRepo cwd options fp repo) w) as [[rr w1] t1].
    specialize (IH (push acc rr) w1). cbn zeta in IH.
    destruct (run h (processRepos cwd options fp rest (push acc rr)) w1)
      as [[acc2 w2] t2].
    unfold value in *. cbn [fst] in *.
    destruct IH as (Hlen & Hsum & Hcount).
    unfold push in Hlen, Hsum, Hcount.
    cbn [results successCount failureCount] in Hlen, Hsum, Hcount.
    rewrite List.length_app in Hlen. cbn [length] in *.
    split; [lia|]. split; [destruct (success rr); lia|].
    intros Hacc. apply Hcount.
    rewrite List.filter_app, List.length_app. cbn [List.filter].
    destruct (success rr); cbn [length]; lia.
Qed.

Lemma isPathSafe_true (dir base : jstring) :
  isPathSafe cwd dir base = true ->
  isAbsolute dir = false /\ includes dir (js "..") = false.
Proof.
  unfold isPathSafe. destruct (isAbsolute dir); [discriminate|].
  destruct (includes dir (js "..")); [discriminate|]. now split.
Qed.

(** For repositories with plain names, what [symlinkDirs] removes is the
    worktree of the repository or lies below it. *)
Lemma loopCall_inWorktree (options : CreateSetOptions) (e : Event) :
  isAbsolute cwd = true ->
  forallb plain (repos options) = true ->
  is_ok (GitRef.safeParse (branch options)) = true ->
  loopCall cwd options e -> rmInWorktree options e.
Proof.
  intros Hcwd Hplain Hok [_ Hrm] He.
  destruct (Hrm He) as (repo & dir & resp & Hin & Hsafe & ->).
  exists repo. eexists. exists resp. split; [exact Hin|]. split; [reflexivity|].
  assert (Hroot : isAbsolute (workspaceRoot options) = true).
  { destruct (isAbsolute (workspaceRoot options)) eqn:E; [reflexivity|].
    pose proof (mainRepoPath_relative _ repo E) as Hrel.
    rewrite (isPathSafe_base_absolute cwd dir _ Hcwd (join_nonempty _) Hsafe)
      in Hrel. discriminate. }
  destruct (featurePath_segments _ _ Hroot Hok) as (stack & Hfp & Hpl & Hne).
  assert (Hrepo : plain repo = true).
  { rewrite forallb_forall in Hplain. now apply Hplain. }
  rewrite Hfp, (join_plain stack repo Hpl Hrepo).
  replace ((SLASH :: render stack) ++ SLASH :: repo)
    with (SLASH :: render (repo :: stack))
    by (rewrite render_cons by exact Hne; reflexivity).
  apply join_below.
  - cbn [forallb]. now rewrite Hrepo.
  - discriminate.
  - now apply isPathSafe_true in Hsafe.
Qed.

End CreationProofs.

Section CreationTheorem.
Import Path Segments Discovery Git Sync SetCreation.
Context {W : Type} (h : Handler W).
Variable cwd : jstring.
Variable exists_ : W -> jstring -> bool.

Hypothesis rm_removes : forall p w w',
  h _ (Rm p true true) w = (Ok tt, w') -> exists_ w' p = false.

Lemma Forall_loopCall_plain (options : CreateSetOptions) (t : list Event) :
  List.Forall (fun e => isMkdir e = false /\ isRm e = false /\ isOpenTerminal e = false) t ->
  List.Forall (loopCall cwd options) t.
Proof.
  apply List.Forall_impl. intros e (_ & Hrm & Hot). split; [exact Hot|].
  rewrite Hrm. discriminate.
Qed.

(** C6 (as amended). Take a run of [createWorktreeSet] that passed branch
    validation, created the feature directory and returned a result.  Every
    repository has been processed.  Before the last call the terminal
    launcher is never called, and [rm] only by [symlinkDirs], on the place
    of a link for an entry that passed [isPathSafe].  If no repository
    succeeded, the last call is the recursive forced [rm] of the feature
    directory, and when that [rm] succeeds the directory does not exist
    afterwards.  If some repository succeeded, the last call is the one
    launch of the terminal, in the feature directory, with the command
    [opencode] and nothing else, named after the sanitized branch; and the
    feature directory is kept when the repositories have plain names: every
    [rm] of the run is then at or below the worktree of a repository. *)
Theorem createWorktreeSet_finish (options : CreateSetOptions) (w : W)
  (result : SetCreationResult) :
  let fp := getFeaturePath (workspaceRoot options) (branch options) in
  let r := run h (createWorktreeSet cwd options) w in
  is_ok (GitRef.safeParse (branch options)) = true ->
  In (Ev (Mkdir fp true) (Ok tt)) (events r) ->
  value r = Ok result ->
  length (results result) = length (repos options) /\
  (successCount result + failureCount result = length (repos options))%nat /\
  successCount result = length (List.filter success (results result)) /\
  exists t last,
    events r = t ++ [last] /\
    List.Forall (loopCall cwd options) t /\
    ((successCount result = 0%nat /\
      exists resp, last = Ev (Rm fp true true) resp /\
                   (resp = Ok tt -> exists_ (world r) fp = false))
     \/
     ((0 < successCount result)%nat /\
      (exists opened,
          last = Ev (OpenTerminal fp (js "opencode")
                       (sanitizeBranchForDir (branch options))) (Ok opened)) /\
      (isAbsolute cwd = true ->
       forallb plain (repos options) = true ->
       List.Forall (rmInWorktree options) (events r)))).
Proof.
  intros fp r Hparse Hmk Hval. subst r. unfold createWorktreeSet in *.
  destruct (GitRef.safeParse (branch options)) as [parsed|issues] eqn:Hsafe;
    [|discriminate].
  fold fp in Hmk, Hval |- *.
  cbn [bind call run] in *.
  destruct (h _ (Readdir fp) w) as [listing w1].
  rewrite run_bind in *.
  set (entries := match listing with Ok es => es | Err _ => [] end) in *.
  pose proof (allCalls_run h _ _ (allCalls_containsWorktree fp entries) w1) as Hscan.
  destruct (run h (containsWorktree fp entries) w1) as [[occupied w2] tscan].
  unfold events in Hscan. cbn [snd] in Hscan.
  destruct occupied.
  - (* the feature directory already holds worktrees: nothing is created *)
    exfalso. cbn [run] in Hmk. unfold events in Hmk. cbn [snd] in Hmk.
    rewrite app_nil_r in Hmk. destruct Hmk as [Hmk|Hmk]; [discriminate|].
    rewrite List.Forall_forall in Hscan. destruct (Hscan _ Hmk) as [Hno _].
    discriminate.
  - unfold bindE in *.
    cbn [bind call run] in *.
    destruct (h _ (Mkdir fp true) w2) as [made w3].
    destruct made as [[]|e].
    2:{ cbn [run] in Hval. unfold value in Hval. cbn in Hval. discriminate. }
    rewrite run_bind in *.
    pose proof (allCalls_run h _ _
      (allCalls_processRepos cwd options (repos options) (fun _ H => H)
         {| featurePath := fp; results := []; successCount := 0; failureCount := 0 |})
      w3) as Hloop.
    pose proof (processRepos_counts h cwd options fp (repos options)
         {| featurePath := fp; results := []; successCount := 0; failureCount := 0 |}
         w3) as Hcounts.
    cbn zeta in Hcounts. fold fp in Hloop.
    destruct (run h (processRepos cwd options fp (repos options) _) w3)
      as [[acc w4] tloop].
    unfold events in Hloop. unfold value in Hcounts.
    cbn [fst snd results successCount failureCount length List.filter] in Hloop, Hcounts.
    destruct Hcounts as (Hlen & Hsum & Hcount). specialize (Hcount eq_refl).
    assert (Hbefore : List.Forall (loopCall cwd options)
              (Ev (Readdir fp) listing
               :: tscan ++ Ev (Mkdir fp true) (Ok tt) :: tloop)).
    { constructor; [split; [reflexivity|discriminate]|].
      apply List.Forall_app. split; [now apply Forall_loopCall_plain|].
      constructor; [split; [reflexivity|discriminate]|exact Hloop]. }
    unfold finish in *.
    destruct (0 <? successCount acc)%nat eqn:Hsucc.
    + (* some repository succeeded: launch the terminal *)
      apply Nat.ltb_lt in Hsucc.
      unfold bindE in Hval |- *. cbn [bind call run] in *.
      destruct (h _ (OpenTerminal fp (js "opencode")
                       (sanitizeBranchForDir (branch options))) w4)
        as [opened w5].
      destruct opened as [opened|e]; cbn [run] in *;
        unfold value, events, world in *; cbn [fst snd] in *;
        [|discriminate].
      injection Hval as <-.
      split; [lia|]. split; [lia|]. split; [exact Hcount|].
      exists (Ev (Readdir fp) listing :: tscan ++ Ev (Mkdir fp true) (Ok tt) :: tloop).
      eexists. split.
      * cbn [app]. rewrite <- app_assoc. reflexivity.
      * split; [exact Hbefore|]. right. split; [exact Hsucc|].
        split; [now exists opened|].
        intros Hcwd Hplain.
        assert (Heq : Ev (Readdir fp) listing
                      :: tscan ++ Ev (Mkdir fp true) (Ok tt)
                         :: tloop
                            ++ [Ev (OpenTerminal fp (js "opencode")
                                      (sanitizeBranchForDir (branch options)))
                                   (Ok opened)]
                      = (Ev (Readdir fp) listing
                         :: tscan ++ Ev (Mkdir fp true) (Ok tt) :: tloop)
                        ++ [Ev (OpenTerminal fp (js "opencode")
                                  (sanitizeBranchForDir (branch options)))
                               (Ok opened)])
          by (cbn [app]; rewrite <- app_assoc; reflexivity).
        rewrite Heq.
        apply List.Forall_app. split.
        -- eapply List.Forall_impl; [|exact Hbefore].
           intros e. apply loopCall_inWorktree; auto. now rewrite Hsafe.
        -- constructor; [|constructor]. intros Hrm. discriminate Hrm.
    + (* none succeeded: remove the feature directory *)
      apply Nat.ltb_ge in Hsucc.
      cbn [bind call run] in *.
      destruct (h _ (Rm fp true true) w4) as [resp w5] eqn:Hrm.
      cbn [run] in *. unfold value, events, world in *. cbn [fst snd] in *.
      injection Hval as <-.
      split; [lia|]. split; [lia|]. split; [exact Hcount|].
      exists (Ev (Readdir fp) listing :: tscan ++ Ev (Mkdir fp true) (Ok tt) :: tloop).
      eexists. split.
      * cbn [app]. rewrite <- app_assoc. reflexivity.
      * split; [exact Hbefore|]. left. split; [lia|].
        exists resp. split; [reflexivity|].
        intros ->. eapply rm_removes. exact Hrm.
Qed.

End CreationTheorem.

Lemma createWorktreeSet_finish_witness :
  let options := Fs.createOptions in
  let fp := Discovery.getFeaturePath (js "/ws") (js "feat/x") in
  let r := run Fs.handle (SetCreation.createWorktreeSet (js "/home") options)
             Fs.syncWorld in
  exists result,
    value r = Ok result /\
    length (SetCreation.results result) = 1%nat /\
    (SetCreation.successCount result + SetCreation.failureCount result = 1)%nat /\
    SetCreation.successCount result
      = length (List.filter SetCreation.success (SetCreation.results result)) /\
    exists t last,
      events r = t ++ [last] /\
      List.Forall (SetCreation.loopCall (js "/home") options) t /\
      ((SetCreation.successCount result = 0%nat /\
        exists resp, last = Ev (Rm fp true true) resp /\
                     (resp = Ok tt -> Fs.existsPath (world r) fp = false))
       \/
       ((0 < SetCreation.successCount result)%nat /\
        (exists opened,
            last = Ev (OpenTerminal fp (js "opencode")
                         (Discovery.sanitizeBranchForDir (js "feat/x")))
                      (Ok opened)) /\
        (Path.isAbsolute (js "/home") = true ->
         forallb Segments.plain (SetCreation.repos options) = true ->
         List.Forall (SetCreation.rmInWorktree options) (events r)))).
Proof.
  cbv zeta. eexists. split; [vm_compute; reflexivity|].
  apply (createWorktreeSet_finish Fs.handle (js "/home") Fs.existsPath
           Fs_rm_removes Fs.createOptions Fs.syncWorld).
  - vm_compute. reflexivity.
  - vm_compute. right. left. reflexivity.
  - vm_compute. reflexivity.
Defined.

(** C6 as worded fails in two ways.  When the final [rm] is refused, every
    repository has failed and the directory the call created is still
    there.  And the feature directory is not always kept when a repository
    succeeds: for the repository ["."] whose configuration links ["."], the
    worktree is the feature directory itself, [symlinkDirs] removes it, and
    a link to the main checkout takes its place. *)
Lemma createWorktreeSet_counterexample :
  (let r := run Fs.handle (SetCreation.createWorktreeSet (js "/home") Fs.createOptions)
              Fs.stuckWorld in
   is_ok (GitRef.safeParse (SetCreation.branch Fs.createOptions)) = true /\
   In (Ev (Mkdir (js "/ws/feat-x") true) (Ok tt)) (events r) /\
   (exists result,
       value r = Ok result /\
       SetCreation.successCount result = 0%nat /\
       List.map SetCreation.success (SetCreation.results result) = [false]) /\
   Fs.existsPath Fs.stuckWorld (js "/ws/feat-x") = false /\
   Fs.existsPath (world r) (js "/ws/feat-x") = true)
  /\
  (let r := run Fs.handle (SetCreation.createWorktreeSet (js "/home") Fs.dotOptions)
              Fs.dotWorld in
   is_ok (GitRef.safeParse (SetCreation.branch Fs.dotOptions)) = true /\
   In (Ev (Mkdir (js "/ws/feat-x") true) (Ok tt)) (events r) /\
   (exists result,
       value r = Ok result /\ SetCreation.successCount result = 1%nat) /\
   In (Ev (Rm (js "/ws/feat-x") true true) (Ok tt)) (events r) /\
   Fs.lookup (js "/ws/feat-x") (Fs.nodes (world r)) = Some KSymlink).
Proof.
  split; cbv zeta.
  - split; [vm_compute; reflexivity|]. split; [vm_compute; right; left; reflexivity|].
    split.
    + eexists. split; [vm_compute; reflexivity|]. split; reflexivity.
    + split; vm_compute; reflexivity.
  - split; [vm_compute; reflexivity|]. split; [vm_compute; right; left; reflexivity|].
    split.
    + eexists. split; [vm_compute; reflexivity|]. reflexivity.
    + split; [vm_compute; tauto|vm_compute; reflexivity].
Qed.

(** * Worked examples *)

Example branch_with_slash_accepted :
  GitRef.safeParse (js "feature/dark-mode") = Ok (js "feature/dark-mode").
Proof. vm_compute. reflexivity. Qed.

Example first_issue_of_a_leading_dash :
  GitRef.safeParse (js "-rf")
  = Err [js "Branch name cannot start with '-' (prevents option injection)"].
Proof. vm_compute. reflexivity. Qed.

Example sanitize_feature_branch :
  Discovery.getFeaturePath (js "/Users/dev/workspace") (js "feature/dark-mode")
  = js "/Users/dev/workspace/feature-dark-mode".
Proof. vm_compute. reflexivity. Qed.

Example normalize_examples :
  Path.normalize (js "/a/b/../c/./d//e/") = js "/a/c/d/e/" /\
  Path.normalize (js "a/../..") = js ".." /\
  Path.normalize (js "/a/../..") = js "/" /\
  Path.join [js "/ws"; js "feat-x"; js ".git"] = js "/ws/feat-x/.git" /\
  Path.resolve (js "/home/dev") [js "w"; js "a/b"] = js "/home/dev/w/a/b" /\
  Path.resolve (js "/home/dev") [js "/w/"; js "../b"] = js "/b" /\
  Path.dirname (js "/ws/main/api") = js "/ws/main" /\
  Path.dirname (js "/ws") = js "/".
Proof. vm_compute. repeat split; reflexivity. Qed.

Example escape_examples :
  Shell.escapeBash (js "cost: $5!") = js "cost: \$5\!" /\
  Shell.escapeBatch (js "50% & more") = js "50%% ^& more".
Proof. vm_compute. split; reflexivity. Qed.

(** Removing the set of [featureWorld]: both worktrees are removed, the
    stray file is skipped, and the feature directory is gone. *)
Example remove_two_worktrees :
  let r := run Fs.handle (SetRemoval.removeWorktreeSet Fs.featureOptions)
             Fs.featureWorld in
  SetRemoval.removedCount (value r) = 2%nat /\
  SetRemoval.failureCount (value r) = 0%nat /\
  SetRemoval.errors (value r) = [] /\
  Fs.existsPath (world r) (js "/ws/feat-x") = false.
Proof. vm_compute. repeat split; reflexivity. Qed.

(* ===================================================================== *)
(** * Part III: further properties of the code                            *)
(* ===================================================================== *)

Section StoreMore.
Import Text State.

Lemma nonEmpty_ne (s : jstring) : s <> [] -> nonEmpty s = true.
Proof. now destruct s. Qed.

(** X1. [removeSession db branch], for a non-empty branch, deletes exactly
    the sessions whose stored branch is that branch as [TEXT] (the branch
    itself when it is well formed): afterwards [getSession] finds what it
    found before, except that those sessions are gone.  The pending
    operation is not touched, and an empty branch changes nothing. *)
Theorem removeSession_spec :
  (forall db b i,
      b <> [] ->
      getSession (removeSession db b) i
      = match getSession db i with
        | Some s => if streq (branch s) (toText b) then None else Some s
        | None => None
        end /\
      (isWellFormed b = true ->
       getSession (removeSession db b) i
       = match getSession db i with
         | Some s => if streq (branch s) b then None else Some s
         | None => None
         end) /\
      pending_operations (removeSession db b) = pending_operations db) /\
  (forall db, removeSession db [] = db).
Proof.
  split; [|reflexivity].
  intros db b i Hb.
  assert (Hget : getSession (removeSession db b) i
                 = match getSession db i with
                   | Some s => if streq (branch s) (toText b) then None else Some s
                   | None => None
                   end).
  { unfold removeSession. rewrite (nonEmpty_ne b Hb). cbn [negb].
    unfold getSession. cbn [sessions].
    destruct (nonEmpty i); cbn [negb]; [|reflexivity].
    destruct (sessions db !! toText i) as [row|] eqn:Hrow.
    - cbn [branch]. destruct (streq (col_branch row) (toText b)) eqn:Hbr.
      + apply streq_eq in Hbr.
        assert (filter (fun kv : jstring * SessionRow => col_branch kv.2 <> toText b)
                  (sessions db) !! toText i = None) as ->; [|reflexivity].
        apply map_lookup_filter_None. right. intros row' Hrow' Hne.
        rewrite Hrow in Hrow'. injection Hrow' as <-. now apply Hne.
      + apply streq_neq in Hbr.
        assert (filter (fun kv : jstring * SessionRow => col_branch kv.2 <> toText b)
                  (sessions db) !! toText i = Some row) as ->; [|reflexivity].
        apply map_lookup_filter_Some. split; [exact Hrow|exact Hbr].
    - assert (filter (fun kv : jstring * SessionRow => col_branch kv.2 <> toText b)
                (sessions db) !! toText i = None) as ->; [|reflexivity].
      apply map_lookup_filter_None. now left. }
  split; [exact Hget|]. split.
  - intros Hwf. rewrite Hget. now rewrite (toText_wellFormed b Hwf).
  - unfold removeSession. now rewrite (nonEmpty_ne b Hb).
Qed.

Lemma removeSession_spec_witness :
  let db := after emptyDb (addSession emptyDb session1) in
  getSession (removeSession db (js "feat/a")) (js "ses_1")
  = match getSession db (js "ses_1") with
    | Some s => if streq (branch s) (toText (js "feat/a")) then None else Some s
    | None => None
    end /\
  (isWellFormed (js "feat/a") = true ->
   getSession (removeSession db (js "feat/a")) (js "ses_1")
   = match getSession db (js "ses_1") with
     | Some s => if streq (branch s) (js "feat/a") then None else Some s
     | None => None
     end) /\
  pending_operations (removeSession db (js "feat/a")) = pending_operations db.
Proof.
  apply (proj1 removeSession_spec). discriminate.
Defined.

Lemma tag_spawn_not_delete (row : PendingRow) :
  hasType (js "spawn") row = true -> hasType (js "delete") row = false.
Proof.
  unfold hasType. intros H. apply streq_eq in H. rewrite H. reflexivity.
Qed.

Lemma tag_delete_not_spawn (row : PendingRow) :
  hasType (js "delete") row = true -> hasType (js "spawn") row = false.
Proof.
  unfold hasType. intros H. apply streq_eq in H. rewrite H. reflexivity.
Qed.

(** X2. Clearing is selective.  After [clearPendingSpawn] there is no
    pending spawn and the pending delete, if any, is still returned by
    [getPendingDelete]; after [clearPendingDelete] there is no pending
    delete and the pending spawn, if any, is still there.  Neither touches
    the sessions. *)
Theorem clearPending_selective (db : Database) :
  getPendingSpawn (clearPendingSpawn db) = None /\
  getPendingDelete (clearPendingSpawn db) = getPendingDelete db /\
  getPendingDelete (clearPendingDelete db) = None /\
  getPendingSpawn (clearPendingDelete db) = getPendingSpawn db /\
  sessions (clearPendingSpawn db) = sessions db /\
  sessions (clearPendingDelete db) = sessions db.
Proof.
  unfold clearPendingSpawn, clearPendingDelete, deletePending,
    getPendingSpawn, getPendingDelete.
  cbn [pending_operations sessions].
  destruct (pending_operations db !! 1%Z) as [row|] eqn:Hrow.
  - destruct (hasType (js "spawn") row) eqn:Hs;
      destruct (hasType (js "delete") row) eqn:Hd;
      rewrite ?lookup_delete_eq, ?Hrow, ?Hs, ?Hd; auto 10.
    + rewrite (tag_spawn_not_delete row Hs) in Hd. discriminate.
  - rewrite Hrow. auto 10.
Qed.

Lemma storedSpawn_wellFormed (p : PendingSpawn) :
  wellFormedSpawn p = true -> storedSpawn p = p.
Proof.
  unfold wellFormedSpawn, storedSpawn. rewrite !andb_true_iff.
  intros [[Hb Hp] Hi].
  rewrite (toText_wellFormed _ Hb), (toText_wellFormed _ Hp).
  destruct p as [b pth [i|]]; cbn [spawn_sessionId option_map] in *;
    [now rewrite (toText_wellFormed _ Hi)|reflexivity].
Qed.

Lemma storedDelete_wellFormed (p : PendingDelete) :
  wellFormedDelete p = true -> storedDelete p = p.
Proof.
  unfold wellFormedDelete, storedDelete. rewrite andb_true_iff.
  intros [Hb Hp].
  rewrite (toText_wellFormed _ Hb), (toText_wellFormed _ Hp). now destruct p.
Qed.

(** X3. Setting reads back, whatever was pending before.  A spawn that
    passes its schema is returned by [getPendingSpawn] as [TEXT] stores it
    (unchanged when its strings are well formed), and [getPendingDelete]
    then returns null; a delete that passes its schema is returned by
    [getPendingDelete] in the same way, and [getPendingSpawn] then returns
    null.  A payload that fails its schema is refused and nothing is
    written.  The sessions are never touched. *)
Theorem setPending_reads_back (db : Database) :
  (forall s, pendingSpawnSchema s = true ->
     exists db', setPendingSpawn db s = Ok db' /\
                 getPendingSpawn db' = Some (storedSpawn s) /\
                 (wellFormedSpawn s = true -> getPendingSpawn db' = Some s) /\
                 getPendingDelete db' = None /\
                 sessions db' = sessions db) /\
  (forall d, pendingDeleteSchema d = true ->
     exists db', setPendingDelete db d = Ok db' /\
                 getPendingDelete db' = Some (storedDelete d) /\
                 (wellFormedDelete d = true -> getPendingDelete db' = Some d) /\
                 getPendingSpawn db' = None /\
                 sessions db' = sessions db) /\
  (forall s, pendingSpawnSchema s = false -> setPendingSpawn db s = Err zodError) /\
  (forall d, pendingDeleteSchema d = false -> setPendingDelete db d = Err zodError).
Proof.
  split; [|split; [|split]].
  - intros s Hs. unfold setPendingSpawn. rewrite Hs. eexists.
    split; [reflexivity|].
    unfold getPendingSpawn, getPendingDelete. cbn [pending_operations sessions].
    rewrite lookup_insert_eq.
    change (hasType (js "spawn") _) with true.
    change (hasType (js "delete") _) with false.
    cbn [op_branch op_path op_session_id]. fold (storedSpawn s).
    split; [reflexivity|]. split; [|now split].
    intros Hwf. now rewrite (storedSpawn_wellFormed s Hwf).
  - intros d Hd. unfold setPendingDelete. rewrite Hd. eexists.
    split; [reflexivity|].
    unfold getPendingSpawn, getPendingDelete. cbn [pending_operations sessions].
    rewrite lookup_insert_eq.
    change (hasType (js "spawn") _) with false.
    change (hasType (js "delete") _) with true.
    cbn [op_branch op_path op_session_id]. fold (storedDelete d).
    split; [reflexivity|]. split; [|now split].
    intros Hwf. now rewrite (storedDelete_wellFormed d Hwf).
  - intros s Hs. unfold setPendingSpawn. now rewrite Hs.
  - intros d Hd. unfold setPendingDelete. now rewrite Hd.
Qed.

Lemma setPending_reads_back_witness :
  exists db', setPendingSpawn emptyDb spawnA = Ok db' /\
              getPendingSpawn db' = Some (storedSpawn spawnA) /\
              (wellFormedSpawn spawnA = true -> getPendingSpawn db' = Some spawnA) /\
              getPendingDelete db' = None /\
              sessions db' = sessions emptyDb.
Proof.
  apply (proj1 (setPending_reads_back emptyDb)). reflexivity.
Defined.

End StoreMore.

Section ValidatorMore.
Import GitRef.

Lemma testClass_false (cls : N -> bool) (s : jstring) :
  testClass cls s = false <-> (forall c, In c s -> cls c = false).
Proof.
  unfold testClass. induction s as [|x s IH]; cbn [existsb].
  - split; [intros _ c []|reflexivity].
  - rewrite orb_false_iff, IH. split.
    + intros [Hx Hs] c [<-|Hc]; auto.
    + intros H. split; [apply H; now left|intros c Hc; apply H; now right].
Qed.

Lemma listedChar_false (c : N) :
  listedChar c = false <->
  invalidCharClass c = false /\ isControl c = false /\ refOrShellClass c = false.
Proof.
  unfold listedChar, invalidCharClass, isControl, refOrShellClass, oneOf.
  cbn [js list_ascii_of_string List.map existsb N_of_ascii N_of_digits].
  repeat rewrite ?orb_false_iff, ?orb_false_r. tauto.
Qed.

Lemma chars_allowed (name : jstring) :
  negb (testClass invalidCharClass name) = true /\ isValidBranchName name = true <->
  (forall c, In c name -> listedChar c = false).
Proof.
  unfold isValidBranchName. rewrite negb_true_iff.
  change (existsb isControl name) with (testClass isControl name).
  split.
  - intros [Hi Hv] c Hc. apply listedChar_false.
    destruct (testClass isControl name) eqn:Hctl; [discriminate|].
    destruct (testClass refOrShellClass name) eqn:Href; [discriminate|].
    rewrite testClass_false in Hi, Hctl, Href. auto.
  - intros H.
    assert (Hi : testClass invalidCharClass name = false).
    { apply testClass_false. intros c Hc. now apply listedChar_false, H. }
    assert (Hctl : testClass isControl name = false).
    { apply testClass_false. intros c Hc. now apply listedChar_false, H. }
    assert (Href : testClass refOrShellClass name = false).
    { apply testClass_false. intros c Hc. now apply listedChar_false, H. }
    now rewrite Hi, Hctl, Href.
Qed.

(** X4. The branch validator accepts exactly the names that are non-empty,
    at most 255 code units long, free of the characters
    [~ ^ : ? * [ ] \ ; & | ` $ ( )], of spaces and of control characters,
    that do not start with [-], [/] or [.], do not end with [/], [.] or
    [.lock], and contain neither [//], [@{] nor [..]; the accepted value is
    the name itself. *)
Theorem branchNameSchema_accepts (name : jstring) :
  safeParse name = Ok name <->
  (name <> [] /\
   (length name <= 255)%nat /\
   (forall c, In c name -> listedChar c = false) /\
   startsWith name (js "-") = false /\
   startsWith name (js "/") = false /\
   endsWith name (js "/") = false /\
   includes name (js "//") = false /\
   includes name (js "@{") = false /\
   includes name (js "..") = false /\
   startsWith name (js ".") = false /\
   endsWith name (js ".") = false /\
   endsWith name (js ".lock") = false).
Proof.
  assert (Hok : safeParse name = Ok name <-> issues name = []).
  { unfold safeParse. destruct (issues name); split; congruence. }
  rewrite Hok, issues_nil. unfold branchNameChecks.
  cbn [forallb passes].
  rewrite !andb_true_iff, !negb_true_iff.
  rewrite Nat.leb_le, Nat.leb_le.
  rewrite <- chars_allowed, negb_true_iff.
  assert (Hlen : (1 <= length name)%nat <-> name <> []).
  { destruct name; cbn; split; [lia|congruence|discriminate|lia]. }
  rewrite Hlen. tauto.
Qed.

End ValidatorMore.

Lemma branchNameSchema_accepts_witness :
  GitRef.safeParse (js "feature/dark-mode") = Ok (js "feature/dark-mode").
Proof.
  apply branchNameSchema_accepts.
  split; [discriminate|]. split; [vm_compute; lia|].
  split.
  - intros c Hc. vm_compute in Hc.
    repeat (destruct Hc as [<-|Hc]; [reflexivity|]). destruct Hc.
  - repeat split; reflexivity.
Defined.

Section SanitizeMore.
Import Path Discovery.

(** X5. The directory name made from a branch has no ["/"] left, is as long
    as the branch, and is the branch itself when the branch has no ["/"];
    sanitizing twice is sanitizing once. *)
Theorem sanitizeBranchForDir_spec (branch : jstring) :
  ~ In SLASH (sanitizeBranchForDir branch) /\
  length (sanitizeBranchForDir branch) = length branch /\
  (~ In SLASH branch -> sanitizeBranchForDir branch = branch) /\
  sanitizeBranchForDir (sanitizeBranchForDir branch) = sanitizeBranchForDir branch.
Proof.
  unfold sanitizeBranchForDir, replaceAll.
  assert (Hno : forall s, ~ In SLASH (flat_map (fun x => if x =? SLASH then js "-" else [x]) s)).
  { induction s as [|x s IH]; [easy|]. cbn [flat_map].
    intros H. apply in_app_or in H as [H|H]; [|now apply IH].
    destruct (N.eqb_spec x SLASH) as [->|Hx].
    - cbn in H. destruct H as [H|[]]. discriminate.
    - destruct H as [H|[]]. congruence. }
  assert (Hid : forall s, ~ In SLASH s ->
                flat_map (fun x => if x =? SLASH then js "-" else [x]) s = s).
  { induction s as [|x s IH]; [easy|]. intros H. cbn [flat_map].
    destruct (N.eqb_spec x SLASH) as [->|Hx]; [exfalso; apply H; now left|].
    cbn [app]. f_equal. apply IH. intros Hs. apply H. now right. }
  split; [apply Hno|]. split; [|split; [apply Hid|apply Hid, Hno]].
  induction branch as [|x s IH]; [reflexivity|]. cbn [flat_map].
  rewrite List.length_app, IH. now destruct (x =? SLASH).
Qed.

Lemma sanitizeBranchForDir_spec_witness :
  sanitizeBranchForDir (js "main") = js "main".
Proof.
  apply (proj1 (proj2 (proj2 (sanitizeBranchForDir_spec (js "main"))))).
  vm_compute. intros H. repeat (destruct H as [H|H]; [discriminate|]). exact H.
Defined.

End SanitizeMore.

Section GitMore.
Import Git Traces.
Context {W : Type} (h : Handler W).

Lemma trimStart_fixed (s : jstring) : trimStart (trimStart s) = trimStart s.
Proof.
  induction s as [|c s IH]; [reflexivity|]. cbn [trimStart].
  destruct (isWhite c) eqn:E; [exact IH|]. cbn [trimStart]. now rewrite E.
Qed.

Lemma trimStart_suffix (s : jstring) : exists pre, s = pre ++ trimStart s.
Proof.
  induction s as [|c s [pre IH]]; [now exists []|]. cbn [trimStart].
  destruct (isWhite c); [|now exists []].
  exists (c :: pre). cbn [app]. now f_equal.
Qed.

Lemma trimStart_head (s : jstring) (c : N) (rest : jstring) :
  trimStart s = c :: rest -> isWhite c = false.
Proof.
  induction s as [|x s IH]; [discriminate|]. cbn [trimStart].
  destruct (isWhite x) eqn:E; [exact IH|]. intros H. now injection H as <- _.
Qed.

Lemma trimStart_keeps (s : jstring) :
  match s with c :: _ => isWhite c = false | [] => True end -> trimStart s = s.
Proof. destruct s as [|c s]; [easy|]. cbn [trimStart]. now intros ->. Qed.

Lemma trim_fixed (s : jstring) : trim (trim s) = trim s.
Proof.
  unfold trim. set (t := trimStart s). set (u := trimStart (rev t)).
  assert (Hpre : trimStart (rev u) = rev u).
  { apply trimStart_keeps. destruct (rev u) as [|c r] eqn:Hr; [exact I|].
    destruct (trimStart_suffix (rev t)) as [pre Hsuf]. fold u in Hsuf.
    apply (f_equal (@rev N)) in Hsuf. rewrite rev_involutive, rev_app_distr, Hr in Hsuf.
    cbn [app] in Hsuf. eapply trimStart_head. unfold t in Hsuf. exact Hsuf. }
  rewrite Hpre, rev_involutive. unfold u. now rewrite trimStart_fixed.
Qed.

(** X6. [git(args, cwd)] starts exactly one process, [git] followed by the
    arguments as they were given, in [cwd].  It returns [Ok] only when the
    process ended with exit code 0, and then the value is the trimmed
    standard output (trimming it again changes nothing).  When the exit
    code is not 0 it returns an error whose message is not empty.
    [branchExists] asks [git rev-parse --verify <branch>] and answers true
    exactly when that process ended with exit code 0. *)
Theorem git_spec (args : list jstring) (cwd : jstring) (w : W) :
  let r := run h (git args cwd) w in
  spawns (events r) = [(js "git" :: args, cwd)] /\
  length (events r) = 1%nat /\
  (forall v, value r = Ok v ->
     exists out, fst (h _ (Spawn (js "git" :: args) cwd) w) = Ok out /\
                 exitCode out = 0%Z /\ v = trim (stdout out) /\ trim v = v) /\
  (forall out, fst (h _ (Spawn (js "git" :: args) cwd) w) = Ok out ->
     exitCode out <> 0%Z ->
     exists e, value r = Err e /\ e <> []) /\
  (forall branch,
     let b := run h (branchExists cwd branch) w in
     spawns (events b) = [([js "git"; js "rev-parse"; js "--verify"; branch], cwd)] /\
     (value b = true <->
      exists out,
        fst (h _ (Spawn [js "git"; js "rev-parse"; js "--verify"; branch] cwd) w)
          = Ok out /\ exitCode out = 0%Z)).
Proof.
  assert (Hgit : forall a,
    let r := run h (git a cwd) w in
    spawns (events r) = [(js "git" :: a, cwd)] /\
    length (events r) = 1%nat /\
    (forall v, value r = Ok v ->
       exists out, fst (h _ (Spawn (js "git" :: a) cwd) w) = Ok out /\
                   exitCode out = 0%Z /\ v = trim (stdout out) /\ trim v = v) /\
    (forall out, fst (h _ (Spawn (js "git" :: a) cwd) w) = Ok out ->
       exitCode out <> 0%Z -> exists e, value r = Err e /\ e <> []) /\
    (is_ok (value r) = true <->
     exists out, fst (h _ (Spawn (js "git" :: a) cwd) w) = Ok out /\
                 exitCode out = 0%Z)).
  { intros a. unfold git. cbn [bind call run].
    destruct (h _ (Spawn (js "git" :: a) cwd) w) as [resp w1]. cbn [fst].
    destruct resp as [out|e].
    - destruct (Z.eqb_spec (exitCode out) 0) as [Hz|Hz]; cbn [negb run];
        unfold value, events; cbn [fst snd spawns flat_map spawned app length].
      + split; [reflexivity|]. split; [reflexivity|]. split; [|split].
        * intros v Hv. injection Hv as <-. exists out.
          repeat split; auto. apply trim_fixed.
        * intros out' Hout. injection Hout as <-. congruence.
        * cbn. split; [intros _; now exists out|reflexivity].
      + split; [reflexivity|]. split; [reflexivity|]. split; [|split].
        * intros v Hv. discriminate.
        * intros out' Hout _. injection Hout as <-. eexists. split; [reflexivity|].
          destruct (trim (stderr out)); [|discriminate].
          unfold js at 1. cbn. discriminate.
        * cbn. split; [discriminate|]. intros (out' & Hout & Hz').
          injection Hout as <-. contradiction.
    - cbn [run]. unfold value, events. cbn [fst snd spawns flat_map spawned app length].
      split; [reflexivity|]. split; [reflexivity|]. split; [|split].
      + discriminate.
      + discriminate.
      + cbn. split; [discriminate|]. intros (out & Hout & _). discriminate. }
  cbn zeta. destruct (Hgit args) as (H1 & H2 & H3 & H4 & _).
  split; [exact H1|]. split; [exact H2|]. split; [exact H3|]. split; [exact H4|].
  intros branch. unfold branchExists. rewrite run_bind.
  destruct (Hgit [js "rev-parse"; js "--verify"; branch]) as (B1 & _ & _ & _ & B5).
  destruct (run h (git [js "rev-parse"; js "--verify"; branch] cwd) w)
    as [[res w1] t].
  cbn [run]. unfold value, events in *. cbn [fst snd] in *.
  rewrite app_nil_r. split; [exact B1|exact B5].
Qed.

End GitMore.

Section PathSafetyMore.
Import Path Sync.

(** X7. Two edges of [isPathSafe], for an absolute working directory.  With
    a non-empty base directory that is not absolute, every path is
    rejected.  With the empty string as base directory the containment
    check is void: a path is accepted as soon as it is not absolute and
    does not contain [".."]. *)
Theorem isPathSafe_base_edges (cwd : jstring) :
  isAbsolute cwd = true ->
  (forall p base, base <> [] -> isAbsolute base = false ->
                  isPathSafe cwd p base = false) /\
  (forall p, isPathSafe cwd p []
             = negb (isAbsolute p) && negb (includes p (js ".."))).
Proof.
  intros Hcwd. split.
  - intros p base Hne Hrel.
    destruct (isPathSafe cwd p base) eqn:E; [|reflexivity].
    rewrite (isPathSafe_base_absolute cwd p base Hcwd Hne E) in Hrel. discriminate.
  - intros p. unfold isPathSafe.
    destruct (isAbsolute p); [reflexivity|].
    destruct (includes p (js "..")); [reflexivity|].
    destruct (isAbsolute_cons _ (resolve_absolute cwd [[]; p] Hcwd)) as [rest ->].
    unfold sep. cbn [app startsWith]. rewrite N.eqb_refl.
    destruct rest; reflexivity.
Qed.

Lemma isPathSafe_base_edges_witness :
  (forall p base, base <> [] -> isAbsolute base = false ->
                  isPathSafe (js "/home/dev") p base = false) /\
  (forall p, isPathSafe (js "/home/dev") p []
             = negb (isAbsolute p) && negb (includes p (js ".."))).
Proof.
  apply isPathSafe_base_edges. reflexivity.
Defined.

End PathSafetyMore.

Section SyncMore.
Import Path Sync Traces.
Context {W : Type} (h : Handler W).
Variable cwd : jstring.

Ltac answer :=
  match goal with
  | |- context [h ?X ?op ?w] =>
      let x := fresh "x" in let w' := fresh "w" in
      destruct (h X op w) as [x w']
  end.

Ltac branch :=
  match goal with
  | |- context [match ?x with _ => _ end] =>
      lazymatch x with
      | context [run] => fail
      | _ => destruct x
      end
  end.

Lemma linkDir_calls (sourceDir targetDir dir : jstring) (w : W) :
  let r := run h (linkDir (join [sourceDir; dir]) (join [targetDir; dir])) w in
  statPaths (events r) = [join [sourceDir; dir]] /\
  List.Forall (linkCall sourceDir targetDir dir) (events r).
Proof.
  unfold linkDir, bindE, events, linkCall.
  repeat first [ progress cbn -[js join dirname] | answer | branch ].
  all: split; [reflexivity|].
  all: repeat (apply List.Forall_cons || apply List.Forall_nil).
  all: cbv zeta; eauto 10.
Qed.

(** X8. [symlinkDirs] looks at every entry that passes [isPathSafe], once
    and in the order given, whatever happened to the entries before it; and
    it makes no call for any other entry.  Every call it makes is, for some
    accepted entry [dir], the [stat] of [join(sourceDir, dir)], the [mkdir]
    of the parent of [join(targetDir, dir)], the forced recursive [rm] of
    [join(targetDir, dir)], or the [symlink] between the two. *)
Theorem symlinkDirs_calls (sourceDir targetDir : jstring) (dirs : list jstring) :
  forall w : W,
  let r := run h (symlinkDirs cwd sourceDir targetDir dirs) w in
  statPaths (events r)
    = List.map (fun dir => join [sourceDir; dir])
               (List.filter (fun dir => isPathSafe cwd dir sourceDir) dirs) /\
  List.Forall (fun e => exists dir, In dir dirs /\
                                    isPathSafe cwd dir sourceDir = true /\
                                    linkCall sourceDir targetDir dir e)
              (events r).
Proof.
  induction dirs as [|dir rest IH]; intros w; cbn zeta.
  - split; [reflexivity|constructor].
  - cbn [symlinkDirs List.filter].
    assert (Hrest : forall w',
      List.Forall (fun e => exists d, In d (dir :: rest) /\
                                      isPathSafe cwd d sourceDir = true /\
                                      linkCall sourceDir targetDir d e)
                  (events (run h (symlinkDirs cwd sourceDir targetDir rest) w'))).
    { intros w'. destruct (IH w') as [_ H]. revert H. apply List.Forall_impl.
      intros e (d & Hd & Hs & Hc). exists d. split; [now right|auto]. }
    destruct (isPathSafe cwd dir sourceDir) eqn:Hsafe; cbn [negb].
    + rewrite run_bind.
      pose proof (linkDir_calls sourceDir targetDir dir w) as [H1 H2].
      destruct (run h (linkDir (join [sourceDir; dir]) (join [targetDir; dir])) w)
        as [[u w1] t1].
      destruct (IH w1) as [I1 _]. specialize (Hrest w1).
      destruct (run h (symlinkDirs cwd sourceDir targetDir rest) w1) as [[u2 w2] t2].
      unfold events in *. cbn [snd] in *. split.
      * unfold statPaths in *. rewrite flat_map_app, H1, I1. reflexivity.
      * apply List.Forall_app. split; [|exact Hrest].
        revert H2. apply List.Forall_impl. intros e He.
        exists dir. split; [now left|auto].
    + destruct (IH w) as [I1 _]. split; [exact I1|apply Hrest].
Qed.

End SyncMore.

Section HooksMore.
Import Hooks Traces.
Context {W : Type} (h : Handler W).

(** X9. [runHooks] runs every command, once and in the order given, as
    [bash -c <command>] in the given directory, whatever the exit codes and
    errors of the commands before it, and makes no other call. *)
Theorem runHooks_runs_all (cwd : jstring) (commands : list jstring) :
  forall w : W,
  let r := run h (runHooks cwd commands) w in
  spawns (events r)
    = List.map (fun command => ([js "bash"; js "-c"; command], cwd)) commands /\
  length (events r) = length commands.
Proof.
  induction commands as [|command rest IH]; intros w; cbn zeta.
  - split; reflexivity.
  - cbn [runHooks bind call run].
    destruct (h _ (Spawn [js "bash"; js "-c"; command] cwd) w) as [x w1].
    destruct (IH w1) as [I1 I2].
    destruct (run h (runHooks cwd rest) w1) as [[u w2] t].
    unfold events in *. cbn [snd] in *. split.
    + cbn [spawns flat_map spawned app List.map]. f_equal. exact I1.
    + cbn [length]. now rewrite I2.
Qed.

End HooksMore.

Section ValidationMore.
Import Path RepoValidation State.
Context {W : Type} (h : Handler W).
Hypothesis lstat_reads : forall p w, snd (h _ (Lstat p) w) = w.

Lemma checkRepo_spec (mainPath repo : jstring) (w : W) :
  let r := run h (checkRepo mainPath repo) w in
  world r = w /\ value r = keeps h w mainPath repo /\
  List.Forall (fun e => lstatPath e <> []) (events r).
Proof.
  unfold checkRepo, keeps, dirAt. destruct repo as [|c repo].
  { cbn. repeat split. constructor. }
  cbn [nonEmpty andb bind call run].
  pose proof (lstat_reads (join [mainPath; c :: repo]) w) as H1.
  destruct (h _ (Lstat (join [mainPath; c :: repo])) w) as [r1 w1].
  cbn [fst snd] in *. subst w1.
  destruct r1 as [k1|e1].
  - cbn [bind run].
    pose proof (lstat_reads (join [join [mainPath; c :: repo]; js ".git"]) w) as H2.
    destruct (h _ (Lstat (join [join [mainPath; c :: repo]; js ".git"])) w)
      as [r2 w2].
    cbn [fst snd] in *. subst w2.
    destruct r2 as [k2|e2]; cbn [run]; unfold world, value, events; cbn [fst snd].
    + split; [reflexivity|]. split; [now destruct k1, k2|].
      repeat constructor; discriminate.
    + split; [reflexivity|]. split; [now destruct k1|].
      repeat constructor; discriminate.
  - cbn [run]. unfold world, value, events. cbn [fst snd].
    split; [reflexivity|]. split; [reflexivity|]. repeat constructor; discriminate.
Qed.

Lemma validateLoop_spec (mainPath : jstring) (repos : list jstring) :
  forall (acc : list jstring) (w : W),
  let r := run h (validateLoop mainPath repos acc) w in
  world r = w /\
  value r = acc ++ List.filter (keeps h w mainPath) repos /\
  List.Forall (fun e => lstatPath e <> []) (events r).
Proof.
  induction repos as [|repo rest IH]; intros acc w; cbn zeta.
  - cbn. rewrite app_nil_r. repeat split. constructor.
  - cbn [validateLoop List.filter]. rewrite run_bind.
    pose proof (checkRepo_spec mainPath repo w) as H1. cbn zeta in H1.
    destruct (run h (checkRepo mainPath repo) w) as [[keep w1] t1].
    unfold world, value, events in H1. cbn [fst snd] in H1.
    destruct H1 as (-> & -> & Hev1).
    specialize (IH (if keeps h w mainPath repo then acc ++ [repo] else acc) w).
    cbn zeta in IH.
    destruct (run h (validateLoop mainPath rest _) w) as [[res w2] t2].
    unfold world, value, events in *. cbn [fst snd] in *.
    destruct IH as (-> & -> & Hev2).
    split; [reflexivity|]. split; [|now apply List.Forall_app].
    destruct (keeps h w mainPath repo); [|reflexivity].
    now rewrite <- app_assoc.
Qed.

(** X10. On a file system that [lstat] only reads, [validateRepos] with a
    non-empty workspace root returns [Ok] of the requested repositories, in
    the order given, that have a non-empty name and for which both
    [main/<repo>] and [main/<repo>/.git] are directories; it leaves the file
    system as it was and makes no call other than [lstat].  With an empty
    workspace root it returns an error without any call. *)
Theorem validateRepos_spec (workspaceRoot : jstring) (repos : list jstring) (w : W) :
  (workspaceRoot <> [] ->
   let r := run h (validateRepos workspaceRoot repos) w in
   value r = Ok (List.filter
                   (fun repo =>
                      nonEmpty repo
                      && dirAt h w (join [join [workspaceRoot; js "main"]; repo])
                      && dirAt h w (join [join [join [workspaceRoot; js "main"]; repo];
                                          js ".git"]))
                   repos) /\
   world r = w /\
   List.Forall (fun e => lstatPath e <> []) (events r)) /\
  (run h (validateRepos [] repos) w
   = (Err (js "workspaceRoot must be a non-empty string"), w, [])).
Proof.
  split; [|reflexivity].
  intros Hne. unfold validateRepos. destruct workspaceRoot as [|c root]; [congruence|].
  cbn zeta. rewrite run_bind.
  pose proof (validateLoop_spec (join [c :: root; js "main"]) repos [] w) as H.
  cbn zeta in H.
  destruct (run h (validateLoop (join [c :: root; js "main"]) repos []) w)
    as [[res w1] t].
  unfold world, value, events in *. cbn [fst snd run] in *.
  destruct H as (-> & -> & Hev). rewrite app_nil_r.
  split; [reflexivity|]. split; [reflexivity|exact Hev].
Qed.

End ValidationMore.

Lemma validateRepos_spec_witness :
  let r := run Fs.handle
             (RepoValidation.validateRepos (js "/ws") [js "api"; js "web"; []])
             Fs.workspace in
  value r = Ok (List.filter
                  (fun repo =>
                     State.nonEmpty repo
                     && RepoValidation.dirAt Fs.handle Fs.workspace
                          (Path.join [Path.join [js "/ws"; js "main"]; repo])
                     && RepoValidation.dirAt Fs.handle Fs.workspace
                          (Path.join [Path.join [Path.join [js "/ws"; js "main"]; repo];
                                      js ".git"]))
                  [js "api"; js "web"; []]) /\
  world r = Fs.workspace /\
  List.Forall (fun e => lstatPath e <> []) (events r).
Proof.
  apply (proj1 (validateRepos_spec Fs.handle (fun p w => eq_refl)
                  (js "/ws") [js "api"; js "web"; []] Fs.workspace)).
  discriminate.
Defined.

Example validateRepos_example :
  value (run Fs.handle
           (RepoValidation.validateRepos (js "/ws") [js "api"; js "web"; []])
           Fs.workspace)
  = Ok [js "api"].
Proof. vm_compute. reflexivity. Qed.

Section DiscoveryMore.
Import Path Discovery.
Context {W : Type} (h : Handler W).

Lemma dirnameEnd_positive (rtail : jstring) : forall matched e,
  dirnameEnd rtail matched = Some e -> (1 <= e)%nat.
Proof.
  induction rtail as [|c rest IH]; intros matched e; cbn [dirnameEnd]; [discriminate|].
  destruct (c =? SLASH).
  - destruct matched; [apply IH|]. intros H. injection H as <-. lia.
  - apply IH.
Qed.

Lemma dirname_absolute (p : jstring) :
  isAbsolute p = true -> isAbsolute (dirname p) = true.
Proof.
  intros H. destruct (isAbsolute_cons p H) as [tail ->].
  unfold dirname. change (SLASH =? SLASH) with true.
  destruct (dirnameEnd (rev tail) true) as [e|] eqn:He; [|reflexivity].
  cbn [andb]. destruct (e =? 1)%nat; [reflexivity|].
  apply dirnameEnd_positive in He. destruct e as [|e]; [lia|]. reflexivity.
Qed.

Lemma walkUp_absolute (n : nat) : forall (d : jstring) (w : W) (found : jstring),
  isAbsolute d = true ->
  value (run h (walkUp n d) w) = Some found ->
  isAbsolute found = true /\ found <> js "/".
Proof.
  induction n as [|n IH]; intros d w found Habs; cbn [walkUp].
  - cbn. discriminate.
  - destruct (streq d (js "/")) eqn:Eroot; [cbn; discriminate|].
    apply streq_neq in Eroot. cbn [bind call run].
    destruct (h _ (Lstat (join [d; js "main"])) w) as [x w1].
    assert (Hnext : value (run h (walkUp n (dirname d)) w1) = Some found ->
                    isAbsolute found = true /\ found <> js "/").
    { apply IH. now apply dirname_absolute. }
    destruct x as [[| | |]|e];
      try (destruct (run h (walkUp n (dirname d)) w1) as [[a w2] t];
           exact Hnext).
    cbn. intros Hf. injection Hf as <-. auto.
Qed.

(** X11. With an absolute working directory, a workspace root returned by
    [findWorkspaceRoot] is an absolute path and is never the file-system
    root ["/"], in every environment. *)
Theorem findWorkspaceRoot_absolute (cwd startDir root : jstring) (w : W) :
  isAbsolute cwd = true ->
  value (run h (findWorkspaceRoot cwd startDir) w) = Ok root ->
  isAbsolute root = true /\ root <> js "/".
Proof.
  intros Hcwd. unfold findWorkspaceRoot.
  destruct startDir as [|c rest]; [cbn; discriminate|].
  rewrite run_bind.
  pose proof (walkUp_absolute MAX_LEVELS (resolve cwd [c :: rest]) w) as H.
  destruct (run h (walkUp MAX_LEVELS (resolve cwd [c :: rest])) w) as [[found w1] t].
  unfold value in *. cbn [fst] in *.
  destruct found as [d|]; cbn [run fst]; [|discriminate].
  intros Hv. injection Hv as <-. apply H; [|reflexivity].
  now apply resolve_absolute.
Qed.

End DiscoveryMore.

Lemma findWorkspaceRoot_absolute_witness :
  Path.isAbsolute (js "/ws") = true /\ js "/ws" <> js "/".
Proof.
  apply (findWorkspaceRoot_absolute Fs.handle (js "/home") (js "/ws/main/api")
           (js "/ws") Fs.workspace).
  - reflexivity.
  - vm_compute. reflexivity.
Defined.

Section StripMore.
Import SetRemoval.

Lemma streq_refl (s : jstring) : streq s s = true.
Proof. now apply streq_eq. Qed.

Lemma endsWith_app (p s : jstring) : endsWith (p ++ s) s = true.
Proof.
  unfold endsWith. rewrite List.length_app.
  replace (length p + length s - length s)%nat with (length p) by lia.
  rewrite List.skipn_app, List.skipn_all, Nat.sub_diag. cbn [app skipn].
  rewrite streq_refl, andb_true_r. apply Nat.leb_le. lia.
Qed.

(** X12. [stripDotGit] undoes the suffix that [git rev-parse
    --git-common-dir] adds to the path of a main repository: from
    [<path>/.git] it gives back [<path>]; a value that does not end in
    [/.git] is left alone. *)
Theorem stripDotGit_spec :
  (forall p, stripDotGit (p ++ js "/.git") = p) /\
  (forall v, endsWith v (js "/.git") = false -> stripDotGit v = v).
Proof.
  split.
  - intros p. unfold stripDotGit. rewrite endsWith_app, List.length_app.
    change (length (js "/.git")) with 5%nat.
    replace (length p + 5 - 5)%nat with (length p) by lia.
    rewrite List.firstn_app, List.firstn_all, Nat.sub_diag. cbn [firstn].
    apply app_nil_r.
  - intros v H. unfold stripDotGit. now rewrite H.
Qed.

Lemma stripDotGit_spec_witness : stripDotGit (js "/ws/main/api") = js "/ws/main/api".
Proof.
  apply (proj2 stripDotGit_spec). reflexivity.
Defined.

End StripMore.

Section CreationCalls.
Import Path Discovery Git Hooks Sync SetCreation Traces SetCalls.
Context {W : Type} (h : Handler W).
Variable cwd : jstring.

Lemma allCalls_symlinkDirs_link (sourceDir targetDir : jstring) (dirs : list jstring) :
  allCalls (fun e => exists dir, linkCall sourceDir targetDir dir e)
           (symlinkDirs cwd sourceDir targetDir dirs).
Proof.
  induction dirs as [|dir rest IH]; [exact I|].
  cbn [symlinkDirs]. destruct (negb (isPathSafe cwd dir sourceDir)); [exact IH|].
  apply allCalls_bind; [|intros _; exact IH].
  unfold linkDir, linkCall.
  apply allCalls_bind; [apply allCalls_call; intros x; exists dir; eauto|].
  intros [[| | |]|e]; try exact I.
  apply allCalls_bindE; [apply allCalls_call; intros x; exists dir; eauto|].
  intros _.
  apply allCalls_bindE; [apply allCalls_call; intros x; exists dir; eauto 6|].
  intros _.
  apply allCalls_bindE; [apply allCalls_call; intros x; exists dir; eauto 6|].
  intros _. exact I.
Qed.

Lemma allCalls_processRepo_shape (options : CreateSetOptions) (fp repo : jstring) :
  allCalls (repoCall options fp repo) (processRepo cwd options fp repo).
Proof.
  unfold processRepo. apply allCalls_bind; [|intros [r|e]; exact I].
  unfold tryRepo, repoCall. apply allCalls_bind.
  { unfold branchExists. apply allCalls_bind; [|intros; exact I].
    apply allCalls_git. intros x. left. now exists x. }
  intros exists_. apply allCalls_bind.
  { destruct exists_; apply allCalls_git; intros x.
    - right; left. now exists x.
    - right; right; left. eexists _, x. split; reflexivity. }
  intros [value|e]; [|exact I].
  apply allCalls_bindE.
  { apply allCalls_call. intros x. do 3 right. left. now exists x. }
  intros config. apply allCalls_bindE.
  { unfold whenNonEmpty. destruct (sync_copyFiles config) as [|f fs] eqn:Hf; [exact I|].
    apply allCalls_call. intros x. do 4 right. left. now exists (f :: fs), x. }
  intros _. apply allCalls_bindE.
  { unfold whenNonEmpty. destruct (sync_symlinkDirs config) as [|d ds]; [exact I|].
    apply allCalls_bind; [|intros; exact I].
    eapply allCalls_mono; [|apply allCalls_symlinkDirs_link].
    intros ev Hev. do 5 right. left. exact Hev. }
  intros _. apply allCalls_bindE; [|intros; exact I].
  destruct (runHooksFlag options) as [[|]|] eqn:Hflag; try exact I.
  - unfold whenNonEmpty. destruct (hooks_postCreate config) as [|c cs]; [exact I|].
    apply allCalls_bind; [|intros; exact I].
    apply allCalls_runHooks. intros e He. do 6 right. split; [discriminate|exact He].
  - unfold whenNonEmpty. destruct (hooks_postCreate config) as [|c cs]; [exact I|].
    apply allCalls_bind; [|intros; exact I].
    apply allCalls_runHooks. intros e He. do 6 right. split; [discriminate|exact He].
Qed.

Lemma allCalls_processRepos_shape (options : CreateSetOptions) (fp : jstring)
  (todo : list jstring) : forall acc,
  allCalls (fun e => exists repo, In repo todo /\ repoCall options fp repo e)
           (processRepos cwd options fp todo acc).
Proof.
  induction todo as [|repo rest IH]; intros acc; [exact I|].
  cbn [processRepos]. apply allCalls_bind.
  - eapply allCalls_mono; [|apply allCalls_processRepo_shape].
    intros e He. exists repo. split; [now left|exact He].
  - intros r. eapply allCalls_mono; [|apply IH].
    intros e (repo' & Hin & He). exists repo'. split; [now right|exact He].
Qed.



Lemma linkCall_kind (s t dir : jstring) (e : Event) :
  linkCall s t dir e ->
  isSpawn e = false /\ isReaddirOrExists e = false /\ isOpenTerminal e = false.
Proof.
  intros [[r ->]|[[r ->]|[[r ->]|[r ->]]]]; repeat split.
Qed.

Lemma repoCall_kind (options : CreateSetOptions) (fp repo : jstring) (e : Event) :
  repoCall options fp repo e ->
  isReaddirOrExists e = false /\
  isOpenTerminal e = false /\
  (isSpawn e = true ->
   (exists args r,
       e = Ev (Spawn (js "git" :: args)
                 (join [workspaceRoot options; js "main"; repo])) r /\
       In (branch options) args)
   \/
   (runHooksFlag options <> Some false /\
    exists command r,
      e = Ev (Spawn [js "bash"; js "-c"; command] (join [fp; repo])) r)).
Proof.
  unfold repoCall.
  intros [[r ->]|[[r ->]|[(base & r & -> & _)|[[r ->]|[(fs & r & ->)|[[dir Hl]|[Hf (c & r & ->)]]]]]]].
  - repeat split; try reflexivity. intros _. left. eexists _, r.
    split; [reflexivity|]. cbn. auto.
  - repeat split; try reflexivity. intros _. left. eexists _, r.
    split; [reflexivity|]. cbn. auto 6.
  - repeat split; try reflexivity. intros _. left. eexists _, r.
    split; [reflexivity|]. cbn. auto 6.
  - repeat split; try reflexivity; discriminate.
  - repeat split; try reflexivity; discriminate.
  - destruct (linkCall_kind _ _ _ _ Hl) as (H1 & H2 & H3).
    repeat split; auto. rewrite H1. discriminate.
  - repeat split; try reflexivity. intros _. right. split; [exact Hf|].
    now exists c, r.
Qed.


End CreationCalls.

Section ValueFacts.
Import Traces.

Lemma allValues_bind {A B : Type} (Q : B -> Prop) (m : Prog A) (f : A -> Prog B) :
  allValues (fun a => allValues Q (f a)) m -> allValues Q (bind m f).
Proof.
  induction m as [a|X op k IH]; cbn [bind allValues]; [auto|].
  intros H x. apply IH, H.
Qed.

Lemma allValues_any {A : Type} (p : Prog A) : allValues (fun _ => True) p.
Proof. induction p as [a|X op k IH]; cbn [allValues]; auto. Qed.

Lemma allValues_mono {A : Type} (P Q : A -> Prop) (p : Prog A) :
  (forall a, P a -> Q a) -> allValues P p -> allValues Q p.
Proof.
  intros HPQ. induction p as [a|X op k IH]; cbn [allValues]; [auto|].
  intros H x. apply IH, H.
Qed.

Lemma allValues_run {W A : Type} (h : Handler W) (Q : A -> Prop) (p : Prog A) :
  allValues Q p -> forall w, Q (value (run h p w)).
Proof.
  induction p as [a|X op k IH]; intros H w; cbn [run].
  - exact H.
  - destruct (h X op w) as [x w1]. specialize (IH x (H x) w1).
    destruct (run h (k x) w1) as [[a w2] t]. exact IH.
Qed.

End ValueFacts.

Section CreationResults.
Import Path Discovery Git Sync SetCreation Traces SetCalls.
Context {W : Type} (h : Handler W).
Variable cwd : jstring.

Lemma allValues_git (Q : Result jstring jstring -> Prop) (args : list jstring)
  (dir : jstring) :
  (forall r, Q r) -> allValues Q (git args dir).
Proof.
  intros H. unfold git. cbn [bind call allValues].
  intros [out|e]; [|apply H]. destruct (negb _); apply H.
Qed.

Lemma allValues_bindE_any {A B : Type} (Q : Result B Error -> Prop)
  (m : Prog (Result A Error)) (f : A -> Prog (Result B Error)) :
  (forall e, Q (Err e)) -> (forall a, allValues Q (f a)) ->
  allValues Q (bindE m f).
Proof.
  intros He Hf. unfold bindE. apply allValues_bind.
  eapply allValues_mono; [|apply allValues_any].
  intros [a|e] _; [apply Hf|apply He].
Qed.

Lemma processRepo_result (options : CreateSetOptions) (fp repo : jstring) :
  allValues (resultFor fp repo) (processRepo cwd options fp repo).
Proof.
  assert (Hfail : forall e, resultFor fp repo (failed repo e)).
  { intros e. split; [reflexivity|]. split; [discriminate|].
    intros _. split; [reflexivity|]. now exists e. }
  assert (Hok : resultFor fp repo (succeeded repo (join [fp; repo]))).
  { split; [reflexivity|]. split; [intros _; split; reflexivity|discriminate]. }
  unfold processRepo. apply allValues_bind.
  eapply (allValues_mono
            (fun r => match r with
                      | Ok result => resultFor fp repo result
                      | Err _ => True
                      end)).
  { intros [result|e] H; [exact H|apply Hfail]. }
  unfold tryRepo. apply allValues_bind.
  eapply allValues_mono; [|apply allValues_any]. intros exists_ _.
  apply allValues_bind.
  eapply allValues_mono; [|apply allValues_any]. intros [v|e] _; [|apply Hfail].
  apply allValues_bindE_any; [intros; exact I|]. intros config.
  apply allValues_bindE_any; [intros; exact I|]. intros _.
  apply allValues_bindE_any; [intros; exact I|]. intros _.
  apply allValues_bindE_any; [intros; exact I|]. intros _.
  exact Hok.
Qed.

Lemma processRepos_results (options : CreateSetOptions) (fp : jstring)
  (todo : list jstring) : forall acc,
  allValues (fun acc' => exists rs,
               results acc' = results acc ++ rs /\
               Forall2 (resultFor fp) todo rs /\
               featurePath acc' = featurePath acc)
            (processRepos cwd options fp todo acc).
Proof.
  induction todo as [|repo rest IH]; intros acc.
  - cbn. exists []. rewrite app_nil_r. repeat split. constructor.
  - cbn [processRepos]. apply allValues_bind.
    eapply allValues_mono; [|apply processRepo_result].
    intros r Hr. eapply allValues_mono; [|apply IH].
    intros acc' (rs & Hres & Hall & Hfp). exists (r :: rs).
    cbn [push results featurePath] in Hres, Hfp.
    split; [now rewrite Hres, <- app_assoc|]. split; [|exact Hfp].
    now constructor.
Qed.

(** X14. Whenever [createWorktreeSet] returns a result, on any path through
    the code, [results] has exactly one entry per requested repository, in
    the order of the request.  An entry marked successful carries the
    worktree path [<featurePath>/<repo>] and no error; an entry marked
    failed carries an error message and no worktree path. *)
Theorem createWorktreeSet_results (options : CreateSetOptions) (w : W)
  (result : SetCreationResult) :
  value (run h (createWorktreeSet cwd options) w) = Ok result ->
  Forall2 (resultFor (featurePath result)) (repos options) (results result).
Proof.
  assert (Hall : forall fp e,
    Forall2 (resultFor fp) (repos options)
            (List.map (fun repo => failed repo e) (repos options))).
  { intros fp e. induction (repos options) as [|r rs IH]; cbn [List.map];
      constructor; [|exact IH].
    split; [reflexivity|]. split; [discriminate|].
    intros _. split; [reflexivity|]. now exists e. }
  revert result.
  assert (H : allValues
    (fun res => forall result, res = Ok result ->
       Forall2 (resultFor (featurePath result)) (repos options) (results result))
    (createWorktreeSet cwd options)).
  { unfold createWorktreeSet.
    destruct (GitRef.safeParse (branch options)).
    2:{ cbn [allValues]. intros result Hr. injection Hr as <-. apply Hall. }
    apply allValues_bind. cbn [call allValues]. intros listing.
    apply allValues_bind. eapply allValues_mono; [|apply allValues_any].
    intros [|] _.
    { cbn [allValues]. intros result Hr. injection Hr as <-. apply Hall. }
    unfold bindE. apply allValues_bind. cbn [call allValues].
    intros [u|e]; [|cbn; discriminate].
    apply allValues_bind.
    eapply allValues_mono; [|apply processRepos_results].
    intros acc (rs & Hres & Hrs & Hfp). cbn [results featurePath app] in Hres, Hfp.
    unfold finish. destruct (0 <? successCount acc)%nat.
    - apply allValues_bind. cbn [call allValues].
      intros [t|e]; cbn [allValues]; [|discriminate].
      intros result Hr. injection Hr as <-. now rewrite Hfp, Hres.
    - cbn [bind call allValues]. intros x result Hr. injection Hr as <-.
      now rewrite Hfp, Hres. }
  intros result Hv. exact (allValues_run h _ _ H w result Hv).
Qed.

End CreationResults.

Lemma createWorktreeSet_results_witness :
  exists result,
    value (run Fs.handle (SetCreation.createWorktreeSet (js "/home") Fs.createOptions)
             Fs.workspace) = Ok result /\
    Forall2 (SetCalls.resultFor (SetCreation.featurePath result))
            (SetCreation.repos Fs.createOptions) (SetCreation.results result).
Proof.
  eexists. split; [vm_compute; reflexivity|].
  apply (createWorktreeSet_results Fs.handle (js "/home") Fs.createOptions Fs.workspace).
  vm_compute. reflexivity.
Defined.

Section CreationGuard.
Import Path Discovery Git Sync SetCreation Traces SetCalls.
Context {W : Type} (h : Handler W).
Variable cwd : jstring.

Lemma containsWorktree_scan (fp : jstring) (entries : list jstring) : forall w : W,
  let r := run h (containsWorktree fp entries) w in
  List.Forall (fun e => isReaddirOrExists e = true) (events r) /\
  (value r = false -> forall p, ~ In (Ev (FileExists p) (Ok true)) (events r)).
Proof.
  induction entries as [|entry rest IH]; intros w; cbn zeta.
  - cbn. split; [constructor|]. intros _ p [].
  - cbn [containsWorktree bind call run].
    destruct (h _ (FileExists (join [fp; entry; js ".git"])) w) as [x w1].
    specialize (IH w1). cbn zeta in IH.
    destruct x as [[|]|e].
    + cbn [run]. unfold value, events. cbn [fst snd].
      split; [repeat constructor|discriminate].
    + destruct (run h (containsWorktree fp rest) w1) as [[v w2] t].
      unfold value, events in *. cbn [fst snd] in *. destruct IH as [I1 I2].
      split; [now constructor|]. intros Hv p [Hp|Hp];
        [apply (f_equal foundExisting) in Hp; discriminate|].
      now apply (I2 Hv p).
    + destruct (run h (containsWorktree fp rest) w1) as [[v w2] t].
      unfold value, events in *. cbn [fst snd] in *. destruct IH as [I1 I2].
      split; [now constructor|]. intros Hv p [Hp|Hp];
        [apply (f_equal foundExisting) in Hp; discriminate|].
      now apply (I2 Hv p).
Qed.

Lemma allCalls_afterScan (options : CreateSetOptions) (fp sb : jstring)
  (acc : SetCreationResult) :
  allCalls (fun e => isReaddirOrExists e = false)
    (bindE (call (Mkdir fp true))
       (fun _ => bind (processRepos cwd options fp (repos options) acc)
                   (finish fp sb))).
Proof.
  apply allCalls_bindE; [apply allCalls_call; reflexivity|]. intros _.
  apply allCalls_bind.
  - eapply allCalls_mono; [|apply allCalls_processRepos_shape].
    intros e (repo & _ & He). now destruct (repoCall_kind _ _ _ _ He).
  - intros acc'. unfold finish. destruct (0 <? successCount acc')%nat.
    + apply allCalls_bindE; [apply allCalls_call; reflexivity|]. intros; exact I.
    + apply allCalls_bind; [apply allCalls_call; reflexivity|]. intros; exact I.
Qed.

(** X15. When the scan of an existing feature directory finds an entry with
    a [.git], [createWorktreeSet] stops there: it returns every requested
    repository marked failed with the message [Feature directory already
    contains worktrees], and the whole run consists of the directory
    listing and the existence checks; nothing is created, removed, spawned
    or launched. *)
Theorem createWorktreeSet_occupied (options : CreateSetOptions) (w : W) (p : jstring) :
  let fp := getFeaturePath (workspaceRoot options) (branch options) in
  let r := run h (createWorktreeSet cwd options) w in
  is_ok (GitRef.safeParse (branch options)) = true ->
  In (Ev (FileExists p) (Ok true)) (events r) ->
  value r = Ok (allFailed fp (repos options)
                  (js "Feature directory already contains worktrees")) /\
  List.Forall (fun e => isReaddirOrExists e = true) (events r).
Proof.
  intros fp r Hparse. subst r. unfold createWorktreeSet.
  destruct (GitRef.safeParse (branch options)) as [parsed|issues]; [|discriminate].
  fold fp. cbn [bind call run].
  destruct (h _ (Readdir fp) w) as [listing w1].
  rewrite run_bind.
  set (entries := match listing with Ok es => es | Err _ => [] end).
  pose proof (containsWorktree_scan fp entries w1) as Hscan. cbn zeta in Hscan.
  destruct (run h (containsWorktree fp entries) w1) as [[occupied w2] tscan].
  unfold value, events in Hscan. cbn [fst snd] in Hscan.
  destruct Hscan as [Hkind Hnone].
  destruct occupied.
  - cbn [run]. unfold value, events. cbn [fst snd]. rewrite app_nil_r.
    intros _. split; [reflexivity|]. now constructor.
  - pose proof (allCalls_run h _ _
      (allCalls_afterScan options fp (sanitizeBranchForDir (branch options))
         {| featurePath := fp; results := []; successCount := 0; failureCount := 0 |})
      w2) as Htail.
    destruct (run h (bindE (call (Mkdir fp true)) _) w2) as [[res w3] ttail].
    unfold value, events in *. cbn [fst snd] in *.
    intros [Hin|Hin]; [apply (f_equal foundExisting) in Hin; discriminate|].
    apply in_app_or in Hin as [Hin|Hin].
    + exfalso. now apply (Hnone eq_refl p).
    + exfalso. rewrite List.Forall_forall in Htail. specialize (Htail _ Hin).
      discriminate.
Qed.

End CreationGuard.

Lemma createWorktreeSet_occupied_witness :
  let fp := Discovery.getFeaturePath (js "/ws") (js "feat/x") in
  let r := run Fs.handle (SetCreation.createWorktreeSet (js "/home") Fs.createOptions)
             Fs.featureWorld in
  value r = Ok (SetCreation.allFailed fp [js "api"]
                  (js "Feature directory already contains worktrees")) /\
  List.Forall (fun e => Traces.isReaddirOrExists e = true) (events r).
Proof.
  apply (createWorktreeSet_occupied Fs.handle (js "/home") Fs.createOptions
           Fs.featureWorld (js "/ws/feat-x/api/.git")).
  - vm_compute. reflexivity.
  - vm_compute. right. left. reflexivity.
Defined.

Section RemovalMore.
Import Path Discovery Git SetRemoval.
Context {W : Type} (h : Handler W).

Lemma filter_none (t : list Event) :
  existsb isRm t = false -> List.filter isRm t = [].
Proof.
  induction t as [|e t IH]; [reflexivity|]. cbn [existsb List.filter].
  destruct (isRm e); [discriminate|]. exact IH.
Qed.

(** X16. [removeWorktreeSet] uses [rm] at most once, and only on the
    feature directory (recursive, forced).  It does so only after [lstat]
    has said that the feature path is a directory and [readdir] has listed
    it.  In every other case (the path is missing, is not a directory, or
    cannot be listed) it makes at most those two calls, removes nothing and
    returns no counts and exactly one error message. *)
Theorem removeWorktreeSet_rm_discipline (options : RemoveSetOptions) (w : W) :
  let fp := getFeaturePath (workspaceRoot options) (branch options) in
  let r := run h (removeWorktreeSet options) w in
  (length (List.filter isRm (events r)) <= 1)%nat /\
  List.Forall (fun e => isRm e = true -> exists resp, e = Ev (Rm fp true true) resp)
              (events r) /\
  (existsb isRm (events r) = true ->
   In (Ev (Lstat fp) (Ok KDirectory)) (events r) /\
   exists entries, In (Ev (Readdir fp) (Ok entries)) (events r)) /\
  (existsb isRm (events r) = false ->
   (length (events r) <= 2)%nat /\
   removedCount (value r) = 0%nat /\ failureCount (value r) = 0%nat /\
   length (errors (value r)) = 1%nat).
Proof.
  intros fp r. subst r. unfold removeWorktreeSet. fold fp.
  cbn [bind call run].
  destruct (h _ (Lstat fp) w) as [stats w1].
  destruct stats as [kind|e].
  2:{ cbn. repeat split; try lia; try discriminate.
      repeat constructor. discriminate. }
  destruct kind; cbn [isDirectory negb];
    try (cbn; repeat split; try lia; try discriminate;
         repeat constructor; discriminate).
  cbn [bind run].
  destruct (h _ (Readdir fp) w1) as [listing w2].
  destruct listing as [entries|e].
  2:{ cbn. repeat split; try lia; try discriminate.
      repeat constructor; discriminate. }
  rewrite run_bind.
  destruct (removeEntries_run h fp entries
              {| featurePath := fp; removedCount := 0; failureCount := 0;
                 errors := [] |} w2) as (outcomes & H & _).
  destruct (run h (removeEntries fp entries _) w2) as [[acc w3] t].
  unfold events in H. cbn [snd] in H.
  destruct (entriesRun_calls _ _ _ _ H) as (_ & Hrm & _).
  cbn [bind call run].
  destruct (h _ (Rm fp true true) w3) as [resp w4].
  assert (Hgoal :
    (length (List.filter isRm
       (Ev (Lstat fp) (Ok KDirectory) :: Ev (Readdir fp) (Ok entries)
        :: t ++ [Ev (Rm fp true true) resp])) <= 1)%nat /\
    List.Forall (fun e => isRm e = true -> exists resp0, e = Ev (Rm fp true true) resp0)
      (Ev (Lstat fp) (Ok KDirectory) :: Ev (Readdir fp) (Ok entries)
       :: t ++ [Ev (Rm fp true true) resp]) /\
    existsb isRm (Ev (Lstat fp) (Ok KDirectory) :: Ev (Readdir fp) (Ok entries)
                  :: t ++ [Ev (Rm fp true true) resp]) = true).
  { split; [|split].
    - cbn [List.filter isRm]. rewrite List.filter_app, (filter_none t Hrm). cbn. lia.
    - constructor; [discriminate|]. constructor; [discriminate|].
      apply List.Forall_app. split.
      + apply List.Forall_forall. intros e He Hr.
        assert (existsb isRm t = true) by (apply existsb_exists; eauto).
        congruence.
      + constructor; [|constructor]. intros _. now exists resp.
    - cbn [existsb isRm orb]. rewrite existsb_app. cbn. now rewrite orb_true_r. }
  destruct Hgoal as (G1 & G2 & G3).
  destruct resp as [[]|e]; cbn [run]; unfold value, events; cbn [fst snd];
    (split; [exact G1|]); (split; [exact G2|]);
    (split; [intros _; split; [now left|exists entries; right; now left]|]);
    rewrite G3; discriminate.
Qed.

End RemovalMore.

Section EscapeMore.
Import Shell Unescape.

Lemma escapeBash_rule (s : jstring) : escapeBash s = flat_map bashRule s.
Proof. apply by_units; [reflexivity | apply escapeBash_app | apply escapeBash_unit]. Qed.

Lemma escapeAppleScript_rule (s : jstring) :
  escapeAppleScript s = flat_map appleScriptRule s.
Proof.
  apply by_units;
    [reflexivity | apply escapeAppleScript_app | apply escapeAppleScript_unit].
Qed.

Lemma escapeBatch_rule (s : jstring) : escapeBatch s = flat_map batchRule s.
Proof. apply by_units; [reflexivity | apply escapeBatch_app | apply escapeBatch_unit]. Qed.

Lemma unescape_appleScript (s : jstring) :
  unescape isBackslash (flat_map appleScriptRule s) = s.
Proof.
  induction s as [|c s IH]; [reflexivity|]. cbn [flat_map].
  unfold appleScriptRule, isBackslash in *.
  destruct ((c =? BACKSLASH) || (c =? DQUOTE) || (c =? DOLLAR)) eqn:E.
  - cbn [app unescape]. rewrite N.eqb_refl. now rewrite IH.
  - cbn [app unescape]. apply orb_false_iff in E as [E _].
    apply orb_false_iff in E as [E _]. rewrite E. now rewrite IH.
Qed.

Lemma unescape_batch (s : jstring) :
  unescape isPercentOrCaret (flat_map batchRule s) = s.
Proof.
  induction s as [|c s IH]; [reflexivity|]. cbn [flat_map].
  unfold batchRule, isPercentOrCaret in *.
  destruct ((c =? PERCENT) || (c =? CARET)) eqn:E.
  - cbn [app unescape]. rewrite E. now rewrite IH.
  - destruct ((c =? AMP) || (c =? LT) || (c =? GT) || (c =? PIPE)) eqn:E2.
    + cbn [app unescape]. change ((CARET =? PERCENT) || (CARET =? CARET)) with true.
      cbv iota. now rewrite IH.
    + cbn [app unescape]. rewrite E. now rewrite IH.
Qed.

Lemma unescape_bash (s : jstring) :
  unescape isBackslash (flat_map bashRule s) = List.map newlineAsSpace s.
Proof.
  induction s as [|c s IH]; [reflexivity|]. cbn [flat_map List.map].
  unfold bashRule, isBackslash, newlineAsSpace in *.
  destruct ((c =? BACKSLASH) || (c =? DQUOTE) || (c =? DOLLAR)
            || (c =? BACKTICK) || (c =? BANG)) eqn:E.
  - cbn [app unescape]. rewrite N.eqb_refl, IH. f_equal.
    destruct (N.eqb_spec c NEWLINE) as [->|]; [discriminate E|reflexivity].
  - repeat (apply orb_false_iff in E as [E ?]).
    destruct (N.eqb_spec c NEWLINE) as [->|Hn].
    + cbn [app unescape]. change (SPACE =? BACKSLASH) with false. cbv iota.
      now rewrite IH.
    + cbn [app unescape]. rewrite E. now rewrite IH.
Qed.

Lemma bashRule_newlineAsSpace (c : N) : bashRule (newlineAsSpace c) = bashRule c.
Proof.
  unfold newlineAsSpace. destruct (N.eqb_spec c NEWLINE) as [->|]; reflexivity.
Qed.

(** X17. Escaping for AppleScript and for batch files loses nothing: two
    different strings never have the same escaped form.  Escaping for bash
    loses exactly the difference between a newline and a space: two strings
    have the same escaped form exactly when they are equal once every
    newline is read as a space. *)
Theorem escaping_injective :
  (forall s1 s2, escapeAppleScript s1 = escapeAppleScript s2 -> s1 = s2) /\
  (forall s1 s2, escapeBatch s1 = escapeBatch s2 -> s1 = s2) /\
  (forall s1 s2, escapeBash s1 = escapeBash s2 <->
                 List.map newlineAsSpace s1 = List.map newlineAsSpace s2).
Proof.
  split; [|split].
  - intros s1 s2 H. rewrite !escapeAppleScript_rule in H.
    apply (f_equal (unescape isBackslash)) in H.
    now rewrite !unescape_appleScript in H.
  - intros s1 s2 H. rewrite !escapeBatch_rule in H.
    apply (f_equal (unescape isPercentOrCaret)) in H.
    now rewrite !unescape_batch in H.
  - intros s1 s2. rewrite !escapeBash_rule. split.
    + intros H. apply (f_equal (unescape isBackslash)) in H.
      now rewrite !unescape_bash in H.
    + intros H.
      assert (Hmap : forall s, flat_map bashRule s
                               = flat_map bashRule (List.map newlineAsSpace s)).
      { induction s as [|c s IH]; [reflexivity|]. cbn [List.map flat_map].
        now rewrite bashRule_newlineAsSpace, IH. }
      now rewrite (Hmap s1), (Hmap s2), H.
Qed.

Lemma escaping_injective_witness :
  escapeBash (js "a b") = escapeBash [97; NEWLINE; 98].
Proof.
  apply (proj2 (proj2 escaping_injective)). reflexivity.
Defined.

Lemma rule_lengths (c : N) :
  (1 <= length (bashRule c) <= 2)%nat /\
  (1 <= length (appleScriptRule c) <= 2)%nat /\
  (1 <= length (batchRule c) <= 2)%nat.
Proof.
  unfold bashRule, appleScriptRule, batchRule.
  repeat match goal with |- context [if ?b then _ else _] => destruct b end;
    cbn; lia.
Qed.

Lemma flat_map_length_bounds (rule : N -> jstring) (s : jstring) :
  (forall c, (1 <= length (rule c) <= 2)%nat) ->
  (length s <= length (flat_map rule s) <= 2 * length s)%nat.
Proof.
  intros H. induction s as [|c s IH]; cbn [flat_map length]; [lia|].
  rewrite List.length_app. specialize (H c). lia.
Qed.

(** X18. An escaped string is at least as long as the string and at most
    twice as long, for each of the three functions; and the output of
    [escapeBash] never contains a newline. *)
Theorem escaping_bounds (s : jstring) :
  (length s <= length (escapeBash s) <= 2 * length s)%nat /\
  (length s <= length (escapeAppleScript s) <= 2 * length s)%nat /\
  (length s <= length (escapeBatch s) <= 2 * length s)%nat /\
  ~ In NEWLINE (escapeBash s).
Proof.
  rewrite escapeBash_rule, escapeAppleScript_rule, escapeBatch_rule.
  split; [apply flat_map_length_bounds; intros c; apply rule_lengths|].
  split; [apply flat_map_length_bounds; intros c; apply rule_lengths|].
  split; [apply flat_map_length_bounds; intros c; apply rule_lengths|].
  induction s as [|c s IH]; [easy|]. cbn [flat_map]. intros H.
  apply in_app_or in H as [H|H]; [|now apply IH].
  unfold bashRule in H.
  destruct ((c =? BACKSLASH) || (c =? DQUOTE) || (c =? DOLLAR)
            || (c =? BACKTICK) || (c =? BANG)) eqn:E.
  - destruct H as [H|[H|[]]]; [discriminate|]. subst c. discriminate.
  - destruct (N.eqb_spec c NEWLINE) as [->|Hn].
    + destruct H as [H|[]]. discriminate.
    + destruct H as [H|[]]. congruence.
Qed.

End EscapeMore.

Section ContainmentMore.
Import Path Segments Sync Traces.
Context {W : Type} (h : Handler W).
Variable cwd : jstring.

(** X21. Under a base directory that is an absolute path in resolved form,
    other than the root, [isPathSafe] accepts exactly the relative paths
    without [".."]: the containment test never fires, because what such a
    path resolves to is the base or lies below it. *)
Theorem isPathSafe_resolved_base (base p : jstring) :
  isAbsolute cwd = true -> resolve cwd [base] = base -> base <> js "/" ->
  isPathSafe cwd p base = negb (isAbsolute p) && negb (includes p (js "..")) /\
  (isPathSafe cwd p base = true -> atOrBelow base (resolve cwd [base; p])).
Proof.
  intros Hcwd Hres Hroot. split.
  - now apply isPathSafe_resolved.
  - intros Hsafe. apply isPathSafe_true in Hsafe as [Hp Hinc].
    now apply resolve_below.
Qed.

Lemma resolved_join_below (base dir : jstring) :
  isAbsolute cwd = true -> resolve cwd [base] = base -> base <> js "/" ->
  includes dir (js "..") = false ->
  atOrBelow base (join [base; dir]).
Proof.
  intros Hcwd Hres Hroot Hinc.
  destruct (resolved_segments cwd base Hcwd Hres Hroot) as (stack & -> & Hpl & Hne & _).
  now apply join_below.
Qed.

(** X22. When the source and the target directory are absolute paths in
    resolved form, other than the root, [symlinkDirs] stays inside them:
    every path it stats or links to is the source directory or lies below
    it, and every path it removes or creates a link at is the target
    directory or lies below it. *)
Theorem symlinkDirs_contained (sourceDir targetDir : jstring) (dirs : list jstring)
  (w : W) :
  isAbsolute cwd = true ->
  resolve cwd [sourceDir] = sourceDir -> sourceDir <> js "/" ->
  resolve cwd [targetDir] = targetDir -> targetDir <> js "/" ->
  List.Forall
    (fun e => (forall s, In s (linkSource e) -> atOrBelow sourceDir s) /\
              (forall p, In p (destination e) -> atOrBelow targetDir p))
    (events (run h (symlinkDirs cwd sourceDir targetDir dirs) w)).
Proof.
  intros Hcwd Hs Hsr Ht Htr. apply allCalls_run.
  apply allCalls_symlinkDirs. intros dir e _ Hsafe Hcall.
  apply (isPathSafe_true cwd) in Hsafe as [_ Hinc].
  pose proof (resolved_join_below sourceDir dir Hcwd Hs Hsr Hinc) as Hsrc.
  pose proof (resolved_join_below targetDir dir Hcwd Ht Htr Hinc) as Htgt.
  destruct Hcall as [[r ->]|[[r ->]|[[r ->]|[r ->]]]]; cbn [linkSource destination];
    split; intros x Hx; try contradiction;
    destruct Hx as [<-|[]]; assumption.
Qed.

End ContainmentMore.

Lemma isPathSafe_resolved_base_witness :
  Sync.isPathSafe (js "/home/dev") (js "node_modules") (js "/ws/main/api")
  = negb (Path.isAbsolute (js "node_modules"))
    && negb (includes (js "node_modules") (js "..")) /\
  (Sync.isPathSafe (js "/home/dev") (js "node_modules") (js "/ws/main/api") = true ->
   Segments.atOrBelow (js "/ws/main/api")
     (Path.resolve (js "/home/dev") [js "/ws/main/api"; js "node_modules"])).
Proof.
  apply isPathSafe_resolved_base.
  - reflexivity.
  - vm_compute. reflexivity.
  - discriminate.
Defined.

Lemma symlinkDirs_contained_witness :
  List.Forall
    (fun e => (forall s, In s (Traces.linkSource e) ->
                         Segments.atOrBelow (js "/ws/main/api") s) /\
              (forall p, In p (Traces.destination e) ->
                         Segments.atOrBelow (js "/ws/feat-x/api") p))
    (events (run Fs.handle
               (Sync.symlinkDirs (js "/home/dev") (js "/ws/main/api")
                  (js "/ws/feat-x/api") [js "node_modules"; js ".cache"])
               Fs.syncWorld)).
Proof.
  apply symlinkDirs_contained.
  - reflexivity.
  - vm_compute. reflexivity.
  - discriminate.
  - vm_compute. reflexivity.
  - discriminate.
Defined.

Section SingleRepoMore.
Import Path Git SingleRepo Traces.
Context {W : Type} (h : Handler W).

Ltac answer :=
  match goal with
  | |- context [h ?X ?op ?w] =>
      let x := fresh "x" in let w' := fresh "w" in
      destruct (h X op w) as [x w']
  end.

Ltac branch :=
  match goal with
  | |- context [match ?x with _ => _ end] =>
      lazymatch x with
      | context [run] => fail
      | _ => destruct x
      end
  end.

(** X19. [createWorktree] of the single-repository plugin puts the worktree
    at [<repoRoot>/.opencode/worktrees/<branch>].  If creating the parent
    directory throws, no process is started.  Otherwise exactly two [git]
    processes run in the repository: [rev-parse --verify <branch>], then
    [worktree add <path> <branch>] when the first ended with exit code 0,
    and [worktree add -b <branch> <path> <base>] (base [HEAD] unless given)
    when it did not.  A successful result carries the worktree path. *)
Theorem createWorktree_spec (repoRoot branch : jstring) (baseBranch : option jstring)
  (w : W) :
  let wt := join [repoRoot; js ".opencode"; js "worktrees"; branch] in
  let verify := [js "git"; js "rev-parse"; js "--verify"; branch] in
  let base := match baseBranch with Some b => b | None => js "HEAD" end in
  let r := run h (createWorktree repoRoot branch baseBranch) w in
  match h _ (Mkdir (dirname wt) true) w with
  | (Err e, _) => value r = Err e /\ spawns (events r) = []
  | (Ok _, w1) =>
      let verified :=
        match fst (h _ (Spawn verify repoRoot) w1) with
        | Ok out => (exitCode out =? 0)%Z
        | Err _ => false
        end in
      spawns (events r)
        = [ (verify, repoRoot);
            (if verified
             then [js "git"; js "worktree"; js "add"; wt; branch]
             else [js "git"; js "worktree"; js "add"; js "-b"; branch; wt; base],
             repoRoot) ] /\
      exists outcome, value r = Ok outcome /\
                      (forall p, outcome = Ok p -> p = wt)
  end.
Proof.
  cbn zeta. unfold createWorktree, branchExists, git, bindE.
  cbn -[js join dirname trim].
  destruct (h _ (Mkdir _ true) w) as [made w1].
  destruct made as [[]|e]; [|cbn; split; reflexivity].
  cbn -[js join dirname trim].
  destruct (h _ (Spawn [js "git"; js "rev-parse"; js "--verify"; branch] repoRoot) w1)
    as [out1 w2]. cbn [fst].
  destruct out1 as [out1|e1].
  - destruct (Z.eqb_spec (exitCode out1) 0) as [Hz|Hz]; cbn -[js join dirname trim].
    + answer. repeat first [progress cbn -[js join dirname trim] | branch].
      all: split; [reflexivity|]; eexists; split; [reflexivity|];
        intros p Hp; try discriminate; now injection Hp.
    + answer. repeat first [progress cbn -[js join dirname trim] | branch].
      all: split; [reflexivity|]; eexists; split; [reflexivity|];
        intros p Hp; try discriminate; now injection Hp.
  - cbn -[js join dirname trim].
    answer. repeat first [progress cbn -[js join dirname trim] | branch].
    all: split; [reflexivity|]; eexists; split; [reflexivity|];
      intros p Hp; try discriminate; now injection Hp.
Qed.

End SingleRepoMore.

Section FeaturePathMore.
Import Path Discovery GitRef.

Lemma atSeparator_shape (allow : bool) (st : nstate) :
  exists r l, atSeparator allow st = nextSegment r l.
Proof.
  unfold atSeparator.
  repeat match goal with
         | |- context [match ?x with _ => _ end] => destruct x
         end; eauto.
Qed.

Lemma scan_plain (allow : bool) (seg : jstring) : forall st,
  ~ In SLASH seg -> dots st = None ->
  fold_left (atCodeUnit allow) seg st
  = {| res := res st; lastSegmentLength := lastSegmentLength st;
       segment := segment st ++ seg; dots := None |}.
Proof.
  induction seg as [|c seg IH]; intros st Hno Hd.
  - cbn. rewrite app_nil_r. destruct st. cbn in *. now subst.
  - cbn [fold_left]. rewrite IH.
    + unfold atCodeUnit.
      destruct (N.eqb_spec c SLASH) as [->|Hc]; [exfalso; apply Hno; now left|].
      cbn [res lastSegmentLength segment]. now rewrite <- app_assoc.
    + intros H. apply Hno. now right.
    + unfold atCodeUnit.
      destruct (N.eqb_spec c SLASH) as [->|Hc]; [exfalso; apply Hno; now left|].
      cbn [dots]. now rewrite Hd.
Qed.

Lemma scan_segment (allow : bool) (c : N) (seg : jstring) (r : jstring) (l : nat) :
  c <> SLASH -> c <> DOT -> ~ In SLASH seg ->
  atSeparator allow (fold_left (atCodeUnit allow) (c :: seg) (nextSegment r l))
  = nextSegment (if (0 <? length r)%nat then r ++ SLASH :: c :: seg else c :: seg)
                (length (c :: seg)).
Proof.
  intros Hs Hd Hno. cbn [fold_left]. rewrite scan_plain; [|exact Hno|].
  - unfold atCodeUnit, nextSegment. apply N.eqb_neq in Hs. rewrite Hs.
    cbn [res lastSegmentLength segment app]. unfold atSeparator.
    cbn [segment dots res lastSegmentLength]. reflexivity.
  - unfold atCodeUnit, nextSegment. apply N.eqb_neq in Hs, Hd. rewrite Hs.
    cbn [dots]. now rewrite Hd.
Qed.

(** X20. For an absolute workspace root, the feature directory of every
    accepted branch name is one and the same parent path, fixed by the root
    alone, followed by a separator and the sanitized branch name, which has
    no separator in it: an accepted branch name adds exactly one path
    segment and cannot climb out of the workspace. *)
Theorem getFeaturePath_one_segment (workspaceRoot : jstring) :
  isAbsolute workspaceRoot = true ->
  exists parent,
    forall branch,
      safeParse branch = Ok branch ->
      getFeaturePath workspaceRoot branch
        = parent ++ SLASH :: sanitizeBranchForDir branch /\
      ~ In SLASH (sanitizeBranchForDir branch) /\
      sanitizeBranchForDir branch <> [].
Proof.
  intros Habs.
  destruct (atSeparator_shape false
              (fold_left (atCodeUnit false) workspaceRoot (nextSegment [] 0)))
    as (r & l & Hroot).
  exists (if (0 <? length r)%nat then SLASH :: r else []).
  intros branch Hok.
  destruct (accepted_first branch Hok) as (c & rest & -> & Hdot).
  pose proof (sanitized_no_slash (c :: rest)) as Hno.
  assert (Hseg : exists c' seg',
             sanitizeBranchForDir (c :: rest) = c' :: seg' /\
             c' <> SLASH /\ c' <> DOT).
  { unfold sanitizeBranchForDir, replaceAll in *. cbn [flat_map] in *.
    destruct (N.eqb_spec c SLASH) as [->|Hc].
    - eexists _, _. split; [reflexivity|]. split; discriminate.
    - eexists _, _. split; [reflexivity|]. split; assumption. }
  destruct Hseg as (c' & seg' & Hs & Hc1 & Hc2).
  rewrite Hs in *.
  split; [|split; [exact Hno|discriminate]].
  unfold getFeaturePath. rewrite Hs.
  destruct (isAbsolute_cons _ Habs) as [tail ->].
  unfold join, joinArgs. cbn [fold_left app].
  unfold normalize.
  change (isAbsolute (SLASH :: tail ++ SLASH :: c' :: seg')) with true.
  assert (Htrail : endsWith (SLASH :: tail ++ SLASH :: c' :: seg') sep = false).
  { replace (SLASH :: tail ++ SLASH :: c' :: seg')
      with ((SLASH :: tail ++ [SLASH]) ++ c' :: seg')
      by (cbn [app]; now rewrite <- app_assoc).
    apply no_trailing_slash; [discriminate|exact Hno]. }
  rewrite Htrail. cbn [negb].
  assert (Hnorm : normalizeString (SLASH :: tail ++ SLASH :: c' :: seg') false
                  = if (0 <? length r)%nat then r ++ SLASH :: c' :: seg'
                    else c' :: seg').
  { unfold normalizeString. rewrite Htrail.
    change (SLASH :: tail ++ SLASH :: c' :: seg')
      with ((SLASH :: tail) ++ SLASH :: c' :: seg').
    rewrite fold_left_app.
    set (st := fold_left (atCodeUnit false) (SLASH :: tail) (nextSegment [] 0)) in *.
    change (fold_left (atCodeUnit false) (SLASH :: c' :: seg') st)
      with (fold_left (atCodeUnit false) (c' :: seg') (atSeparator false st)).
    rewrite Hroot.
    assert (Hn : ~ In SLASH seg') by (intros H; apply Hno; now right).
    rewrite (scan_segment false c' seg' r l Hc1 Hc2 Hn). reflexivity. }
  rewrite Hnorm.
  destruct (0 <? length r)%nat.
  - destruct r as [|x r']; cbn [app]; reflexivity.
  - reflexivity.
Qed.

End FeaturePathMore.

Lemma getFeaturePath_one_segment_witness :
  exists parent,
    forall branch,
      GitRef.safeParse branch = Ok branch ->
      Discovery.getFeaturePath (js "/ws/") branch
        = parent ++ Path.SLASH :: Discovery.sanitizeBranchForDir branch /\
      ~ In Path.SLASH (Discovery.sanitizeBranchForDir branch) /\
      Discovery.sanitizeBranchForDir branch <> [].
Proof.
  apply getFeaturePath_one_segment. reflexivity.
Defined.
